(** * Verification tooling of the storage engine: [verify-tsm],
      [verify-tombstone] and the engine configuration.

    A shallow embedding of
    - [cmd/influxd/inspect/verify_tsm/verify_tsm.go] (package [verify_tsm]),
    - the [verify_tombstone] command (package [verify_tombstone]),
    - the storage engine [Config] (package [storage]),
    together with the pieces of Go's standard library they call
    ([hash/crc32], [unicode/utf8], [path/filepath]) and the read-only
    surface of package [tsm1] they consume. *)

From Stdlib Require Import ZArith List Lia Bool Ascii String.
From stdpp Require Import base list strings gmap.

Local Open Scope Z_scope.

(** ** Machine integers

    Go's [int] and [int64] are 64-bit two's complement on the supported
    platforms; [uint32] is 32 bits wide.  Integers are [Z] and every
    arithmetic operation of the source writes its wrap-around out. *)

Definition int_min : Z := - 2 ^ 63.
Definition int_max : Z := 2 ^ 63 - 1.

Definition is_int (z : Z) : Prop := int_min <= z <= int_max.

(** Wrap-around to the signed 64-bit range. *)
Definition wrap64 (z : Z) : Z := (z + 2 ^ 63) mod 2 ^ 64 - 2 ^ 63.

(** [a + b] on [int] / [int64]. *)
Definition int_add (a b : Z) : Z := wrap64 (a + b).

(** [x++]. *)
Definition int_incr (a : Z) : Z := int_add a 1.

(** A byte slice: every element is meant to satisfy [is_byte]. *)
Abbreviation bytes := (list Z).

Definition is_byte (v : Z) : Prop := 0 <= v < 256.

Definition uint32_max : Z := 0xFFFFFFFF.

Definition is_uint32 (c : Z) : Prop := 0 <= c < 2 ^ 32.

(** ** [hash/crc32] *)

Module crc32.

(** Modelled from the spec: the checksum of a block is "CRC-32, IEEE
    polynomial", computed in the source by [crc32.ChecksumIEEE] of Go's
    standard library, which is not part of the repository.  The model is
    the library's generic table implementation: [simplePopulateTable] and
    [simpleUpdate] over the reversed IEEE polynomial. *)
Definition IEEE : Z := 0xedb88320.

(** One round of the inner loop of [simplePopulateTable]:
    [if crc&1 == 1 { crc = (crc >> 1) ^ poly } else { crc >>= 1 }]. *)
Definition shift1 (poly crc : Z) : Z :=
  if Z.testbit crc 0 then Z.lxor (Z.shiftr crc 1) poly else Z.shiftr crc 1.

(** [t[i]] as computed by [simplePopulateTable]: eight rounds from
    [uint32(i)]. *)
Definition tableEntry (poly : Z) (i : Z) : Z := Nat.iter 8 (shift1 poly) i.

(** [simpleMakeTable]: the array of 256 entries. *)
Definition simpleMakeTable (poly : Z) : list Z :=
  tableEntry poly <$> seqZ 0 256.

Definition IEEETable : list Z := Eval vm_compute in simpleMakeTable IEEE.

(** [^crc] on [uint32]. *)
Definition not32 (crc : Z) : Z := Z.lxor crc uint32_max.

(** [tab[i]] for an index of type [byte]. *)
Definition index (tab : list Z) (i : Z) : Z := nth (Z.to_nat i) tab 0.

(** The body of the loop of [simpleUpdate]:
    [crc = tab[byte(crc)^v] ^ (crc >> 8)]. *)
Definition update1 (tab : list Z) (crc v : Z) : Z :=
  Z.lxor (index tab (Z.lxor (Z.land crc 0xFF) v)) (Z.shiftr crc 8).

Definition simpleUpdate (crc : Z) (tab : list Z) (p : bytes) : Z :=
  not32 (fold_left (update1 tab) p (not32 crc)).

(** Modelled from the spec: "CRC-32, IEEE polynomial" over the raw
    bytes of a block.  [ChecksumIEEE(data)] is
    [Update(0, IEEETable, data)]. *)
Definition ChecksumIEEE (data : bytes) : Z := simpleUpdate 0 IEEETable data.

End crc32.

(** ** Go errors *)

(** An [error] value: either made by [errors.New] (or handed over by the
    operating system or by package [tsm1], identified by its text), or made
    by [fmt.Errorf] with a [%w] verb wrapping another error.  A Go [error]
    that may be [nil] is an [option error]. *)
Inductive error : Type :=
| errors_New (text : string)
| fmt_Errorf_w (format : string) (wrapped : error).

(** The process exit status that [main] derives from the error returned by
    a command's [RunE]. *)
Definition exitStatus (err : option error) : Z :=
  match err with
  | None => 0
  | Some _ => 1
  end.

(** ** Loops that print

    The commands print while they loop.  A computation returns its value
    together with the events it emitted, in order. *)

Definition Emit (E A : Type) : Type := A * list E.

Definition emit_ret {E A} (a : A) : Emit E A := (a, []).

Definition emit_bind {E A B} (m : Emit E A) (k : A -> Emit E B) : Emit E B :=
  let '(a, ev1) := m in
  let '(b, ev2) := k a in
  (b, ev1 ++ ev2).

Definition tell {E} (ev : list E) : Emit E unit := (tt, ev).

Notation "'let*' x := m 'in' k" := (emit_bind m (fun x => k))
  (at level 10, x pattern, m at level 100, k at level 200, only parsing).

(** [for _, a := range l { s = body(s, a) }]. *)
Fixpoint forEach {E S A} (body : S -> A -> Emit E S) (s : S) (l : list A)
  : Emit E S :=
  match l with
  | [] => emit_ret s
  | a :: l' => let* s1 := body s a in forEach body s1 l'
  end.

(** ** [unicode/utf8]

    The spec asks of a series key that it "must be valid UTF-8"; the
    source decides it with [utf8.Valid] of Go's standard library, which is
    not part of the repository.  The model follows the library: the table
    [first] of leading bytes, the accepted ranges of the second byte, and
    continuation bytes between [locb] and [hicb]. *)

Module utf8.

Definition RuneSelf : Z := 0x80.
Definition locb : Z := 0x80.
Definition hicb : Z := 0xBF.

Definition xx : Z := 0xF1.
Definition as_ : Z := 0xF0.
Definition s1 : Z := 0x02.
Definition s2 : Z := 0x13.
Definition s3 : Z := 0x03.
Definition s4 : Z := 0x23.
Definition s5 : Z := 0x34.
Definition s6 : Z := 0x04.
Definition s7 : Z := 0x44.

(** The table [first]: information about the first byte of an encoding. *)
Definition first (b : Z) : Z :=
  if b <? 0x80 then as_
  else if b <? 0xC2 then xx
  else if b <? 0xE0 then s1
  else if b =? 0xE0 then s2
  else if b <? 0xED then s3
  else if b =? 0xED then s4
  else if b <? 0xF0 then s3
  else if b =? 0xF0 then s5
  else if b <? 0xF4 then s6
  else if b =? 0xF4 then s7
  else xx.

Record acceptRange := { lo : Z; hi : Z }.

(** The table [acceptRanges] (16 entries, the unlisted ones are zero). *)
Definition acceptRanges (i : Z) : acceptRange :=
  if i =? 0 then {| lo := locb; hi := hicb |}
  else if i =? 1 then {| lo := 0xA0; hi := hicb |}
  else if i =? 2 then {| lo := locb; hi := 0x9F |}
  else if i =? 3 then {| lo := 0x90; hi := hicb |}
  else if i =? 4 then {| lo := locb; hi := 0x8F |}
  else {| lo := 0; hi := 0 |}.

Definition outside (c lo hi : Z) : bool := (c <? lo) || (hi <? c).

(** [utf8.Valid(p)].  The loop over [i] consumes [size] bytes at a time;
    a sequence cut short by the end of [p] is invalid. *)
Fixpoint Valid (p : bytes) : bool :=
  match p with
  | [] => true
  | pi :: p1 =>
    if pi <? RuneSelf then Valid p1
    else
      let x := first pi in
      if x =? xx then false
      else
        let size := Z.land x 7 in
        let accept := acceptRanges (Z.shiftr x 4) in
        match p1 with
        | [] => false
        | c1 :: p2 =>
          if outside c1 (lo accept) (hi accept) then false
          else if size =? 2 then Valid p2
          else
            match p2 with
            | [] => false
            | c2 :: p3 =>
              if outside c2 locb hicb then false
              else if size =? 3 then Valid p3
              else
                match p3 with
                | [] => false
                | c3 :: p4 =>
                  if outside c3 locb hicb then false else Valid p4
                end
            end
        end
  end.

End utf8.

(** ** [path/filepath]

    [filepath.Ext] and [filepath.WalkDir] of Go's standard library, which
    is not part of the repository, after their documentation. *)

Module filepath.

(** [os.IsPathSeparator] on Unix. *)
Definition IsPathSeparator (c : ascii) : bool := Ascii.eqb c "/"%char.

Fixpoint hasSeparator (path : string) : bool :=
  match path with
  | EmptyString => false
  | String c rest => IsPathSeparator c || hasSeparator rest
  end.

(** [filepath.Ext]: the suffix beginning at the final dot in the final
    element of [path]; empty if there is no dot.  The source scans from
    the end and stops at a separator. *)
Fixpoint Ext (path : string) : string :=
  match path with
  | EmptyString => EmptyString
  | String c rest =>
    match Ext rest with
    | EmptyString =>
      if hasSeparator rest then EmptyString
      else if Ascii.eqb c "."%char then path
      else EmptyString
    | ext => ext
    end
  end.

(** One invocation of the [WalkDirFunc]: the path visited and the error
    the traversal met there, if any. *)
Definition Visit : Type := string * option error.

(** The directory tree as [WalkDir] sees it: for a root, the visits it
    makes in lexical order as long as the callback returns [nil]. *)
Definition Tree : Type := string -> list Visit.

Fixpoint walk {S} (fn : string -> option error -> S -> S * option error)
    (s : S) (visits : list Visit) : S * option error :=
  match visits with
  | [] => (s, None)
  | (path, err) :: rest =>
    match fn path err s with
    | (s1, Some e) => (s1, Some e)
    | (s1, None) => walk fn s1 rest
    end
  end.

(** [filepath.WalkDir(root, fn)]: the first non-nil error returned by
    [fn] stops the walk and is returned.  [s] is the state the closure
    [fn] captures. *)
Definition WalkDir {S} (tree : Tree) (root : string)
    (fn : string -> option error -> S -> S * option error) (s : S)
  : S * option error :=
  walk fn s (tree root).

End filepath.

(** ** Package [tsm1], as far as the tools read it *)

Module tsm1.

(** Modelled from the spec: the file extensions of package [tsm1]
    ([.tsm] and [.tombstone]); the package is not among the sources. *)
Definition TSMFileExtension : string := "tsm".
Definition TombstoneFileExtension : string := "tombstone".

(** Modelled from the spec: what [BlockIterator.Read] delivers for one
    block, "(key, min_time, max_time, value_type, checksum, raw_bytes)";
    the payload is raw, not decoded. *)
Record Block := {
  blockKey : bytes;
  minTime : Z;
  maxTime : Z;
  typ : Z;
  checksum : Z;
  buf : bytes
}.

(** The outcome of one [Read]: the block, or an error (the tuple is then
    the zero value, in particular the key is [nil]). *)
Inductive BlockRead : Type :=
| ReadOk (b : Block)
| ReadErr (err : error).

(** Modelled from the spec: an open [TSMReader]: its index, one entry
    per key with the key's block type, enumerated by [KeyCount] and
    [KeyAt]; and the finite forward scan its [BlockIterator] performs,
    one [Read] per [Next] that returned true. *)
Record TSMReader := {
  index : list (bytes * Z);
  blocks : list BlockRead
}.

Definition KeyCount (r : TSMReader) : Z := Z.of_nat (length (index r)).

(** [KeyAt(idx)]: the key and its type; [(nil, 0)] out of range. *)
Definition KeyAt (r : TSMReader) (idx : Z) : bytes * Z :=
  if (0 <=? idx) && (idx <? KeyCount r)
  then nth (Z.to_nat idx) (index r) ([], 0)
  else ([], 0).

(** What is stored under a path, as [os.OpenFile] followed by
    [NewTSMReader] finds it. *)
Inductive File : Type :=
| Unopenable (err : error)
| Unparsable (err : error)
| Readable (r : TSMReader).

(** Modelled from the spec: a tombstone entry "(key, min_time,
    max_time)". *)
Record Tombstone := { Key : bytes; Min : Z; Max : Z }.

(** Modelled from the spec: a [Tombstoner] on a tombstone file:
    [has_tombstones], and the entries [walk] delivers in append order;
    [walkErr] is the failure the walk meets after the last entry it
    could deliver, if the file is damaged. *)
Record Tombstoner := {
  HasTombstones : bool;
  entries : list Tombstone;
  walkErr : option error
}.

Fixpoint walkEntries {E S} (fn : S -> Tombstone -> Emit E (S * option error))
    (s : S) (l : list Tombstone) : Emit E (S * option error) :=
  match l with
  | [] => emit_ret (s, None)
  | t :: rest =>
    let* (s1, err) := fn s t in
    match err with
    | Some e => emit_ret (s1, Some e)
    | None => walkEntries fn s1 rest
    end
  end.

(** [Tombstoner.Walk(fn)]: [fn] is invoked for each entry; an error of
    [fn] aborts the walk and is returned; so is the failure of the walk
    itself.  [s] is the state the closure [fn] captures. *)
Definition Walk {E S} (t : Tombstoner)
    (fn : S -> Tombstone -> Emit E (S * option error)) (s : S)
  : Emit E (S * option error) :=
  let* (s1, err) := walkEntries fn s (entries t) in
  match err with
  | Some e => emit_ret (s1, Some e)
  | None => emit_ret (s1, walkErr t)
  end.

End tsm1.

(** ** [verify-tsm] *)

Module verify_tsm.

Import tsm1.

(** What a run does to the outside, in order: the lines it prints with
    [cmd.PrintErrf] (the elapsed time of the two summary lines is read
    off the clock and left out), and the calls it makes on files and
    readers. *)
Inductive Event : Type :=
| PrintNotUTF8 (f : string) (i : Z)
    (* "%s: key #%d is not valid UTF-8\n" *)
| PrintHealthy (f : string)
    (* "%s: healthy\n" *)
| PrintInvalidKeys (totalErrors total : Z)
    (* "Invalid Keys: %d / %d, in %vs\n" *)
| PrintNoChecksum (f : string) (key : bytes) (count : Z) (err : error)
    (* "%s: could not get checksum for key %v block %d due to error: %q\n" *)
| PrintMismatch (f : string) (checksum expected : Z) (key : bytes) (count : Z)
    (* "%s: got %d but expected %d for key %v, block %d\n" *)
| PrintBrokenBlocks (totalErrors total : Z)
    (* "Broken Blocks: %d / %d, in %vs\n" *)
| CallOpenFile (f : string)
| CallNewTSMReader (f : string)
| CallKeyCount (f : string)
| CallKeyAt (f : string) (i : Z)
| CallBlockIterator (f : string)
| CallNext (f : string)
| CallRead (f : string)
| CallFileClose (f : string)
| CallReaderClose (f : string).

(** [startTime] only feeds the elapsed time and is left out. *)
Record verifyTSM := { files : list string; f : string }.

Record verifyUTF8 := {
  utf8_verifyTSM : verifyTSM;
  utf8_totalErrors : Z;
  utf8_total : Z
}.

Record verifyChecksums := {
  sum_verifyTSM : verifyTSM;
  sum_totalErrors : Z;
  sum_total : Z
}.

(** The world a run reads: the directory tree and what each path holds.
    A path that holds nothing cannot be opened. *)
Record Disk := {
  tree : filepath.Tree;
  content : gmap string File
}.

Definition ErrNotExist : error := errors_New "file does not exist".

(** The closure given to [filepath.WalkDir] in [loadFiles]. *)
Definition loadFilesFn (path : string) (err : option error)
    (fls : list string) : list string * option error :=
  match err with
  | Some e => (fls, Some e)
  | None =>
    if String.eqb (filepath.Ext path) ("." +:+ TSMFileExtension)
    then (fls ++ [path], None)
    else (fls, None)
  end.

Definition loadFiles (d : Disk) (dataPath : string) (v : verifyTSM)
  : verifyTSM * option error :=
  let '(fls, err) := filepath.WalkDir (tree d) dataPath loadFilesFn (files v) in
  let v1 := {| files := fls; f := f v |} in
  match err with
  | Some e =>
    (v1, Some (fmt_Errorf_w
      "could not load storage files (use -dir for custom storage root): %w" e))
  | None => (v1, None)
  end.

Definition next (v : verifyTSM) : verifyTSM * bool :=
  match files v with
  | [] => (v, false)
  | f0 :: rest => ({| files := rest; f := f0 |}, true)
  end.

(** The two closers [tsmReader] hands out. *)
Inductive closer : Type :=
| closeFile (f : string)
| closeFileAndReader (f : string).

Definition runCloser (c : closer) : list Event :=
  match c with
  | closeFile f => [CallFileClose f]
  | closeFileAndReader f => [CallFileClose f; CallReaderClose f]
  end.

(** Deferred calls run at return, last deferred first. *)
Definition runDeferred (deferred : list closer) : list Event :=
  flat_map runCloser (rev deferred).

(** The result of [tsmReader]: [(reader, closer, nil)], or
    [(nil, closer-or-nil, err)]. *)
Inductive opened : Type :=
| openedOk (r : TSMReader) (c : closer)
| openedErr (c : option closer) (err : error).

Definition tsmReader (d : Disk) (v : verifyTSM) : Emit Event opened :=
  match content d !! f v with
  | None => (openedErr None ErrNotExist, [CallOpenFile (f v)])
  | Some (Unopenable e) => (openedErr None e, [CallOpenFile (f v)])
  | Some (Unparsable e) =>
    (openedErr (Some (closeFile (f v))) e,
     [CallOpenFile (f v); CallNewTSMReader (f v)])
  | Some (Readable r) =>
    (openedOk r (closeFileAndReader (f v)),
     [CallOpenFile (f v); CallNewTSMReader (f v)])
  end.

Definition deferCloser (c : option closer) : list closer :=
  match c with
  | Some c => [c]
  | None => []
  end.

(** *** [verifyUTF8.run] *)

(** The body of [for i := 0; i < n; i++]; the state is [v] and
    [fileErrors]. *)
Definition checkKey (verbose : bool) (reader : TSMReader)
    (st : verifyUTF8 * Z) (i : Z) : Emit Event (verifyUTF8 * Z) :=
  let '(v, fileErrors) := st in
  let '(key, _) := KeyAt reader i in
  let called := CallKeyAt (f (utf8_verifyTSM v)) i in
  if negb (utf8.Valid key) then
    ({| utf8_verifyTSM := utf8_verifyTSM v;
        utf8_totalErrors := int_incr (utf8_totalErrors v);
        utf8_total := utf8_total v |},
     int_incr fileErrors,
     called ::
     (if verbose then [PrintNotUTF8 (f (utf8_verifyTSM v)) i] else []))
  else (v, fileErrors, [called]).

(** The body of [for v.next()] once the reader is open. *)
Definition checkKeys (verbose : bool) (reader : TSMReader) (v : verifyUTF8)
  : Emit Event verifyUTF8 :=
  let n := KeyCount reader in
  let* _ := tell [CallKeyCount (f (utf8_verifyTSM v))] in
  let v1 := {| utf8_verifyTSM := utf8_verifyTSM v;
               utf8_totalErrors := utf8_totalErrors v;
               utf8_total := int_add (utf8_total v) n |} in
  let* (v2, fileErrors) := forEach (checkKey verbose reader) (v1, 0) (seqZ 0 n) in
  let* _ := tell (if (fileErrors =? 0) && verbose
                  then [PrintHealthy (f (utf8_verifyTSM v2))] else []) in
  emit_ret v2.

(** [for v.next() { ... }] of [verifyUTF8.run], by recursion on the files
    still pending, which are [v.files]: each round [next] moves the first
    of them to [v.f].  The result carries the closers deferred so far and
    the error of an early [return]. *)
Fixpoint utf8Loop (d : Disk) (verbose : bool) (pending : list string)
    (v : verifyUTF8) : Emit Event (verifyUTF8 * list closer * option error) :=
  match pending with
  | [] => emit_ret (v, [], None)
  | f0 :: rest =>
    let v0 := {| utf8_verifyTSM := {| files := rest; f := f0 |};
                 utf8_totalErrors := utf8_totalErrors v;
                 utf8_total := utf8_total v |} in
    let* o := tsmReader d (utf8_verifyTSM v0) in
    match o with
    | openedErr c err => emit_ret (v0, deferCloser c, Some err)
    | openedOk reader c =>
      let* v1 := checkKeys verbose reader v0 in
      let* (v2, deferred, err) := utf8Loop d verbose rest v1 in
      emit_ret (v2, c :: deferred, err)
    end
  end.

Definition verifyUTF8_run (d : Disk) (dataPath : string) (verbose : bool)
    (v : verifyUTF8) : Emit Event (verifyUTF8 * option error) :=
  match loadFiles d dataPath (utf8_verifyTSM v) with
  | (b, Some err) =>
    emit_ret ({| utf8_verifyTSM := b;
                 utf8_totalErrors := utf8_totalErrors v;
                 utf8_total := utf8_total v |}, Some err)
  | (b, None) =>
    let v0 := {| utf8_verifyTSM := b;
                 utf8_totalErrors := utf8_totalErrors v;
                 utf8_total := utf8_total v |} in
    let* (v1, deferred, err) := utf8Loop d verbose (files b) v0 in
    match err with
    | Some e =>
      let* _ := tell (runDeferred deferred) in
      emit_ret (v1, Some e)
    | None =>
      let* _ := tell [PrintInvalidKeys (utf8_totalErrors v1) (utf8_total v1)] in
      let* _ := tell (runDeferred deferred) in
      if utf8_totalErrors v1 >? 0
      then emit_ret (v1, Some (errors_New "check-utf8: failed"))
      else emit_ret (v1, None)
    end
  end.

(** *** [verifyChecksums.run] *)

(** The body of [for blockItr.Next()]; the state is [v], [fileErrors]
    and [count]. *)
Definition checkBlock (verbose : bool) (st : verifyChecksums * Z * Z)
    (rd : BlockRead) : Emit Event (verifyChecksums * Z * Z) :=
  let '(v, fileErrors, count) := st in
  let fname := f (sum_verifyTSM v) in
  let v1 := {| sum_verifyTSM := sum_verifyTSM v;
               sum_totalErrors := sum_totalErrors v;
               sum_total := int_incr (sum_total v) |} in
  let bad := {| sum_verifyTSM := sum_verifyTSM v;
                sum_totalErrors := int_incr (sum_totalErrors v);
                sum_total := int_incr (sum_total v) |} in
  let* _ := tell [CallNext fname; CallRead fname] in
  match rd with
  | ReadErr err =>
    let* _ := tell (if verbose
                    then [PrintNoChecksum fname [] count err] else []) in
    emit_ret (bad, int_incr fileErrors, int_incr count)
  | ReadOk b =>
    let expected := crc32.ChecksumIEEE (buf b) in
    if negb (checksum b =? expected) then
      let* _ := tell (if verbose
                      then [PrintMismatch fname (checksum b) expected
                              (blockKey b) count]
                      else []) in
      emit_ret (bad, int_incr fileErrors, int_incr count)
    else emit_ret (v1, fileErrors, int_incr count)
  end.

Definition checkBlocks (verbose : bool) (reader : TSMReader)
    (v : verifyChecksums) : Emit Event verifyChecksums :=
  let fname := f (sum_verifyTSM v) in
  let* _ := tell [CallBlockIterator fname] in
  let* (v1, fileErrors, _) := forEach (checkBlock verbose) (v, 0, 0) (blocks reader) in
  let* _ := tell [CallNext fname] in
  let* _ := tell (if (fileErrors =? 0) && verbose
                  then [PrintHealthy fname] else []) in
  emit_ret v1.

Fixpoint sumLoop (d : Disk) (verbose : bool) (pending : list string)
    (v : verifyChecksums)
  : Emit Event (verifyChecksums * list closer * option error) :=
  match pending with
  | [] => emit_ret (v, [], None)
  | f0 :: rest =>
    let v0 := {| sum_verifyTSM := {| files := rest; f := f0 |};
                 sum_totalErrors := sum_totalErrors v;
                 sum_total := sum_total v |} in
    let* o := tsmReader d (sum_verifyTSM v0) in
    match o with
    | openedErr c err => emit_ret (v0, deferCloser c, Some err)
    | openedOk reader c =>
      let* v1 := checkBlocks verbose reader v0 in
      let* (v2, deferred, err) := sumLoop d verbose rest v1 in
      emit_ret (v2, c :: deferred, err)
    end
  end.

Definition verifyChecksums_run (d : Disk) (dataPath : string)
    (verbose : bool) (v : verifyChecksums)
  : Emit Event (verifyChecksums * option error) :=
  match loadFiles d dataPath (sum_verifyTSM v) with
  | (b, Some err) =>
    emit_ret ({| sum_verifyTSM := b;
                 sum_totalErrors := sum_totalErrors v;
                 sum_total := sum_total v |}, Some err)
  | (b, None) =>
    let v0 := {| sum_verifyTSM := b;
                 sum_totalErrors := sum_totalErrors v;
                 sum_total := sum_total v |} in
    let* (v1, deferred, err) := sumLoop d verbose (files b) v0 in
    match err with
    | Some e =>
      let* _ := tell (runDeferred deferred) in
      emit_ret (v1, Some e)
    | None =>
      let* _ := tell [PrintBrokenBlocks (sum_totalErrors v1) (sum_total v1)] in
      let* _ := tell (runDeferred deferred) in
      emit_ret (v1, None)
    end
  end.

(** *** The command *)

(** [&verifyUTF8{}] and [&verifyChecksums{}]. *)
Definition newVerifyUTF8 : verifyUTF8 :=
  {| utf8_verifyTSM := {| files := []; f := "" |};
     utf8_totalErrors := 0; utf8_total := 0 |}.

Definition newVerifyChecksums : verifyChecksums :=
  {| sum_verifyTSM := {| files := []; f := "" |};
     sum_totalErrors := 0; sum_total := 0 |}.

(** [RunE] of [NewTSMVerifyCommand]: the error returned and what was
    done and printed. *)
Definition RunE (d : Disk) (dir : string) (checkUTF8 verbose : bool)
  : Emit Event (option error) :=
  if checkUTF8
  then let* (_, err) := verifyUTF8_run d dir verbose newVerifyUTF8 in
       emit_ret err
  else let* (_, err) := verifyChecksums_run d dir verbose newVerifyChecksums in
       emit_ret err.

End verify_tsm.

(** ** [verify-tombstone] *)

Module verify_tombstone.

Import tsm1.

(** [min] and [max] of an entry are printed as the raw [int64], or as
    [time.Unix(0, _)] above [veryVerbose]. *)
Inductive stamp : Type :=
| rawInt64 (ns : Z)
| unixTime (ns : Z).

(** The lines printed with [cmd.Printf] (the elapsed time of the
    completion line is left out) and the calls made on tombstone files,
    in order. *)
Inductive Event : Type :=
| PrintVerifying (f : string)
    (* "Verifying: %q\n" *)
| PrintNoEntries (f : string)
    (* "%s has no tombstone entries" *)
| PrintProgress (totalEntries : Z)
    (* "Verified %d tombstone entries\n" *)
| PrintEntry (key : bytes) (min max : stamp)
    (* "key: %q, min: %v, max: %v\n" *)
| PrintWalkFailed (f : string) (err : error) (totalEntries : Z)
    (* "%q failed to walk tombstone entries: %v. Last okay entry: %d\n" *)
| PrintCompleted (f : string) (totalEntries : Z)
    (* "Completed verification for %q in %v.\nVerified %d entries\n\n" *)
| PrintNoFiles
    (* "No tombstone files found\n" *)
| CallNewTombstoner (f : string)
| CallHasTombstones (f : string)
| CallWalk (f : string).

Record verifier := {
  path : string;
  verbosity : Z;
  files : list string;
  f : string
}.

Definition quiet : Z := 0.
Definition verbose : Z := 1.
Definition veryVerbose : Z := 2.

(** The world a run reads: the directory tree and the tombstone file
    behind each path.  A path that holds nothing has no tombstones. *)
Record Disk := {
  tree : filepath.Tree;
  content : gmap string Tombstoner
}.

Definition absent : Tombstoner :=
  {| HasTombstones := false; entries := []; walkErr := None |}.

(** [tsm1.NewTombstoner(v.f, nil)]. *)
Definition NewTombstoner (d : Disk) (f : string) : Tombstoner :=
  default absent (content d !! f).

Definition loadFilesFn (path : string) (err : option error)
    (fls : list string) : list string * option error :=
  match err with
  | Some e => (fls, Some e)
  | None =>
    if String.eqb (filepath.Ext path) ("." +:+ TombstoneFileExtension)
    then (fls ++ [path], None)
    else (fls, None)
  end.

Definition loadFiles (d : Disk) (v : verifier) : verifier * option error :=
  let '(fls, err) := filepath.WalkDir (tree d) (path v) loadFilesFn (files v) in
  ({| path := path v; verbosity := verbosity v; files := fls; f := f v |},
   err).

Definition next (v : verifier) : verifier * bool :=
  match files v with
  | [] => (v, false)
  | f0 :: rest =>
    ({| path := path v; verbosity := verbosity v; files := rest; f := f0 |},
     true)
  end.

(** The closure given to [Walk]; the state it captures and changes is
    [totalEntries]. *)
Definition visit (v : verifier) (totalEntries : Z) (t : Tombstone)
  : Emit Event (Z * option error) :=
  let totalEntries := int_incr totalEntries in
  let* _ := tell
    (if (verbosity v >? quiet) && (Z.rem totalEntries 10000000 =? 0)
     then [PrintProgress totalEntries]
     else if verbosity v >? verbose
     then (if verbosity v >? veryVerbose
           then [PrintEntry (Key t) (unixTime (Min t)) (unixTime (Max t))]
           else [PrintEntry (Key t) (rawInt64 (Min t)) (rawInt64 (Max t))])
     else []) in
  emit_ret (totalEntries, None).

(** One round of [for v.next()], after [next]: the new value of
    [failed]. *)
Definition verifyFile (d : Disk) (v : verifier) (failed : bool)
  : Emit Event bool :=
  let* _ := tell (if verbosity v >? quiet then [PrintVerifying (f v)] else []) in
  let tombstoner := NewTombstoner d (f v) in
  let* _ := tell [CallNewTombstoner (f v); CallHasTombstones (f v)] in
  if negb (HasTombstones tombstoner) then
    let* _ := tell [PrintNoEntries (f v)] in
    emit_ret failed
  else
    let* _ := tell [CallWalk (f v)] in
    let* (totalEntries, err) := Walk tombstoner (visit v) 0 in
    match err with
    | Some e =>
      let* _ := tell [PrintWalkFailed (f v) e totalEntries] in
      emit_ret true
    | None =>
      let* _ := tell [PrintCompleted (f v) totalEntries] in
      emit_ret failed
    end.

(** [for v.next() { ... }], by recursion on the files still pending,
    which are [v.files]; the state besides [v] is [failed] and
    [foundTombstoneFile]. *)
Fixpoint loop (d : Disk) (pending : list string) (v : verifier)
    (failed foundTombstoneFile : bool) : Emit Event (verifier * bool * bool) :=
  match pending with
  | [] => emit_ret (v, failed, foundTombstoneFile)
  | f0 :: rest =>
    let v0 := {| path := path v; verbosity := verbosity v;
                 files := rest; f := f0 |} in
    let* failed1 := verifyFile d v0 failed in
    loop d rest v0 failed1 true
  end.

Definition run (d : Disk) (v : verifier) : Emit Event (verifier * option error) :=
  match loadFiles d v with
  | (v0, Some err) => emit_ret (v0, Some err)
  | (v0, None) =>
    let* (v1, failed, foundTombstoneFile) := loop d (files v0) v0 false false in
    if failed
    then emit_ret (v1, Some (errors_New "failed tombstone verification"))
    else
      let* _ := tell (if negb foundTombstoneFile then [PrintNoFiles] else []) in
      emit_ret (v1, None)
  end.

(** [RunE] of [NewVerifyTombstoneCommand]. *)
Definition RunE (d : Disk) (dir : string) (v vv : bool)
  : Emit Event (option error) :=
  let runner := {| path := dir;
                   verbosity := if vv then veryVerbose
                                else if v then verbose else quiet;
                   files := []; f := "" |} in
  let* (_, err) := run d runner in
  emit_ret err.

End verify_tombstone.

(** ** The engine configuration (package [storage]) *)

Module time.

(** A [time.Duration] is an [int64] count of nanoseconds. *)
Definition Nanosecond : Z := 1.
Definition Microsecond : Z := 1000 * Nanosecond.
Definition Millisecond : Z := 1000 * Microsecond.
Definition Second : Z := 1000 * Millisecond.

End time.

Module storage.

(** [DefaultWriteTimeout] is the default timeout for a complete write to
    succeed. *)
Definition DefaultWriteTimeout : Z := 10 * time.Second.

Section Config.

(** The configurations of packages [tsdb], [retention] and
    [precreator] and their constructors are not among the sources. *)
Variables tsdb_Config retention_Config precreator_Config : Type.
Variable tsdb_NewConfig : tsdb_Config.
Variable retention_NewConfig : retention_Config.
Variable precreator_NewConfig : precreator_Config.

Record Config := {
  Data : tsdb_Config;
  WriteTimeout : Z;
  RetentionService : retention_Config;
  PrecreatorConfig : precreator_Config
}.

Definition NewConfig : Config :=
  {| Data := tsdb_NewConfig;
     WriteTimeout := DefaultWriteTimeout;
     RetentionService := retention_NewConfig;
     PrecreatorConfig := precreator_NewConfig |}.

End Config.

Arguments Data {_ _ _} _.
Arguments WriteTimeout {_ _ _} _.
Arguments RetentionService {_ _ _} _.
Arguments PrecreatorConfig {_ _ _} _.
Arguments NewConfig {_ _ _} _ _ _.

End storage.

(** ** Notions for the properties

    The notions in which the properties of the tools are stated: counting,
    a single flipped bit, the blocks and keys a disk holds, and the trace a
    run is expected to leave. *)

(** The number of elements of [l] that satisfy [p]. *)
Definition countIf {A} (p : A -> bool) (l : list A) : Z :=
  Z.of_nat (length (List.filter p l)).

(** [flipBit b i] is [b] with bit [i] flipped, where bit [i] is bit
    [i mod 8] of the byte at index [i / 8]. *)
Fixpoint flipBit (b : bytes) (i : nat) : bytes :=
  match b with
  | [] => []
  | v :: rest =>
    if (i <? 8)%nat then Z.lxor v (2 ^ Z.of_nat i) :: rest
    else v :: flipBit rest (i - 8)
  end.

(** The traversal of the directory meets no error. *)
Definition cleanWalk (visits : list filepath.Visit) : Prop :=
  Forall (fun vis => vis.2 = None) visits.

Module tsm_facts.

Import tsm1 verify_tsm.

(** The path holds a file that opens and parses. *)
Definition readable (d : Disk) (p : string) : Prop :=
  exists r, content d !! p = Some (Readable r).

(** The reader on a readable path. *)
Definition readerAt (d : Disk) (p : string) : TSMReader :=
  match content d !! p with
  | Some (Readable r) => r
  | _ => {| index := []; blocks := [] |}
  end.

(** The error and the closer [tsmReader] returns on a path that cannot
    be opened or parsed. *)
Definition openFailure (d : Disk) (p : string) : option (option closer * error) :=
  match content d !! p with
  | None => Some (None, ErrNotExist)
  | Some (Unopenable e) => Some (None, e)
  | Some (Unparsable e) => Some (Some (closeFile p), e)
  | Some (Readable _) => None
  end.

(** The calls of [tsmReader] on a path. *)
Definition openTrace (d : Disk) (p : string) : list Event :=
  match content d !! p with
  | None | Some (Unopenable _) => [CallOpenFile p]
  | _ => [CallOpenFile p; CallNewTSMReader p]
  end.

(** *** Keys *)

(** Key number [i] of the index is not valid UTF-8. *)
Definition keyInvalid (r : TSMReader) (i : Z) : bool :=
  negb (utf8.Valid (KeyAt r i).1).

(** The number of key indices of the file whose key is not valid
    UTF-8. *)
Definition invalidKeys (r : TSMReader) : Z :=
  countIf (keyInvalid r) (seqZ 0 (KeyCount r)).

Definition totalKeys (d : Disk) (fl : list string) : Z :=
  foldr (fun p acc => KeyCount (readerAt d p) + acc) 0 fl.

Definition totalInvalidKeys (d : Disk) (fl : list string) : Z :=
  foldr (fun p acc => invalidKeys (readerAt d p) + acc) 0 fl.

Definition keyTrace (verbose : bool) (p : string) (r : TSMReader) (i : Z)
  : list Event :=
  CallKeyAt p i ::
  (if keyInvalid r i && verbose then [PrintNotUTF8 p i] else []).

Definition utf8FileTrace (verbose : bool) (p : string) (r : TSMReader)
  : list Event :=
  [CallOpenFile p; CallNewTSMReader p; CallKeyCount p]
  ++ flat_map (keyTrace verbose p r) (seqZ 0 (KeyCount r))
  ++ (if (wrap64 (invalidKeys r) =? 0) && verbose then [PrintHealthy p] else []).

Definition utf8Trace (d : Disk) (verbose : bool) (fl : list string)
  : list Event :=
  flat_map (fun p => utf8FileTrace verbose p (readerAt d p)) fl.

(** *** Blocks *)

(** The block counts as broken: its read fails, or the checksum
    recomputed over its raw bytes differs from the stored one. *)
Definition blockBad (rd : BlockRead) : bool :=
  match rd with
  | ReadErr _ => true
  | ReadOk b => negb (checksum b =? crc32.ChecksumIEEE (buf b))
  end.

(** The blocks the iterators of the files yield, in order. *)
Definition allBlocks (d : Disk) (fl : list string) : list BlockRead :=
  flat_map (fun p => blocks (readerAt d p)) fl.

Definition blockTrace (verbose : bool) (p : string) (count : Z)
    (rd : BlockRead) : list Event :=
  [CallNext p; CallRead p]
  ++ match rd with
     | ReadErr err =>
       if verbose then [PrintNoChecksum p [] count err] else []
     | ReadOk b =>
       if blockBad rd && verbose
       then [PrintMismatch p (checksum b) (crc32.ChecksumIEEE (buf b))
               (blockKey b) count]
       else []
     end.

Fixpoint blocksTrace (verbose : bool) (p : string) (count : Z)
    (l : list BlockRead) : list Event :=
  match l with
  | [] => []
  | rd :: rest =>
    blockTrace verbose p count rd
    ++ blocksTrace verbose p (int_incr count) rest
  end.

Definition sumFileTrace (verbose : bool) (p : string) (r : TSMReader)
  : list Event :=
  [CallOpenFile p; CallNewTSMReader p; CallBlockIterator p]
  ++ blocksTrace verbose p 0 (blocks r)
  ++ [CallNext p]
  ++ (if (wrap64 (countIf blockBad (blocks r)) =? 0) && verbose
      then [PrintHealthy p] else []).

Definition sumTrace (d : Disk) (verbose : bool) (fl : list string)
  : list Event :=
  flat_map (fun p => sumFileTrace verbose p (readerAt d p)) fl.

(** *** Kinds of events *)

(** The aggregate summary lines. *)
Definition isSummary (e : Event) : bool :=
  match e with
  | PrintInvalidKeys _ _ | PrintBrokenBlocks _ _ => true
  | _ => false
  end.

(** The lines that report one broken block. *)
Definition isBlockReport (e : Event) : bool :=
  match e with
  | PrintNoChecksum _ _ _ _ | PrintMismatch _ _ _ _ _ => true
  | _ => false
  end.

Definition isKeyAt (e : Event) : bool :=
  match e with
  | CallKeyAt _ _ => true
  | _ => false
  end.

(** The calls that touch data blocks. *)
Definition isBlockCall (e : Event) : bool :=
  match e with
  | CallBlockIterator _ | CallNext _ | CallRead _ => true
  | _ => false
  end.

(** The calls that enumerate the index. *)
Definition isIndexCall (e : Event) : bool :=
  match e with
  | CallKeyCount _ | CallKeyAt _ _ => true
  | _ => false
  end.

(** The file an event is about; the summary lines are about none. *)
Definition eventFile (e : Event) : option string :=
  match e with
  | PrintNotUTF8 f _ | PrintHealthy f | PrintNoChecksum f _ _ _
  | PrintMismatch f _ _ _ _ | CallOpenFile f | CallNewTSMReader f
  | CallKeyCount f | CallKeyAt f _ | CallBlockIterator f | CallNext f
  | CallRead f | CallFileClose f | CallReaderClose f => Some f
  | PrintInvalidKeys _ _ | PrintBrokenBlocks _ _ => None
  end.

(** The events verifying the keys of the file at [p] consists of. *)
Definition utf8Event (p : string) (e : Event) : Prop :=
  match e with
  | CallOpenFile q | CallNewTSMReader q | CallKeyCount q | CallKeyAt q _
  | PrintNotUTF8 q _ | PrintHealthy q => q = p
  | _ => False
  end.

(** The events verifying the blocks of the file at [p] consists of. *)
Definition sumEvent (p : string) (e : Event) : Prop :=
  match e with
  | CallOpenFile q | CallNewTSMReader q | CallBlockIterator q | CallNext q
  | CallRead q | PrintNoChecksum q _ _ _ | PrintMismatch q _ _ _ _
  | PrintHealthy q => q = p
  | _ => False
  end.

(** The events of the deferred closers of the file at [p]. *)
Definition closeEvent (p : string) (e : Event) : Prop :=
  match e with
  | CallFileClose q | CallReaderClose q => q = p
  | _ => False
  end.

Definition closerFile (c : closer) : string :=
  match c with
  | closeFile f | closeFileAndReader f => f
  end.

(** The paths [loadFiles] collects from the visits of a walk. *)
Definition tsmPaths (visits : list filepath.Visit) : list string :=
  List.filter
    (fun p => String.eqb (filepath.Ext p) ("." +:+ TSMFileExtension))
    (map fst visits).

(** Some key of some file of [fl] is not valid UTF-8. *)
Definition someKeyInvalid (d : Disk) (fl : list string) : Prop :=
  exists p i,
    In p fl /\ 0 <= i < KeyCount (readerAt d p)
    /\ keyInvalid (readerAt d p) i = true.

(** The exit status of [--check-utf8] read as depending on the keys
    alone: an error if and only if some key of the TSM files under the
    directory is not valid UTF-8. *)
Definition utf8ExitByKeysAlone (d : Disk) (dir : string) (verbose : bool)
  : Prop :=
  (RunE d dir true verbose).1 <> None
  <-> someKeyInvalid d (tsmPaths (tree d dir)).

(** A block as it was written, and the same block after bit [i] of its
    raw bytes was flipped on disk. *)
Definition flipBlock (b : Block) (i : nat) : Block :=
  {| blockKey := blockKey b; minTime := minTime b; maxTime := maxTime b;
     typ := typ b; checksum := checksum b; buf := flipBit (buf b) i |}.

End tsm_facts.

Module tombstone_facts.

Import tsm1 verify_tombstone.

(** The walk of the tombstone file at [p] fails before completion. *)
Definition walkFails (d : Disk) (p : string) : bool :=
  HasTombstones (NewTombstoner d p)
  && bool_decide (is_Some (walkErr (NewTombstoner d p))).

Definition tombstonePaths (visits : list filepath.Visit) : list string :=
  List.filter
    (fun p => String.eqb (filepath.Ext p) ("." +:+ TombstoneFileExtension))
    (map fst visits).

(** What one round of the loop prints and calls for the file at [p]. *)
Definition fileTrace (d : Disk) (verbosity : Z) (p : string) : list Event :=
  (verifyFile d {| path := ""; verbosity := verbosity; files := []; f := p |}
     false).2.

(** The verbosity [RunE] derives from the flags [-v] and [--vv]. *)
Definition verbosityOf (v vv : bool) : Z :=
  if vv then veryVerbose else if v then verbose else quiet.

Definition someWalkFails (d : Disk) (fl : list string) : Prop :=
  exists p, In p fl /\ walkFails d p = true.

(** The exit status of [verify-tombstone] read as depending on the walks
    of the tombstone files alone. *)
Definition exitByWalksAlone (d : Disk) (dir : string) (v vv : bool) : Prop :=
  (RunE d dir v vv).1 <> None
  <-> someWalkFails d (tombstonePaths (tree d dir)).

End tombstone_facts.

(** ** Sample disks *)

Module samples.

Import tsm1.

Definition ENOENT : error := errors_New "no such file or directory".

(** A tree whose root [/data] holds the named entries; any other root
    does not exist. *)
Definition dataTree (names : list string) : filepath.Tree :=
  fun root =>
    if String.eqb root "/data"
    then ("/data", None) :: map (fun n => ("/data/" +:+ n, None)) names
    else [(root, Some ENOENT)].

(** The key "cpu", and a key with the byte [0xFF] in it. *)
Definition cpuKey : bytes := [99; 112; 117].
Definition brokenKey : bytes := [99; 0xFF; 117].

Definition payload : bytes := [1; 2; 3; 4].

Definition soundBlock : Block :=
  {| blockKey := cpuKey; minTime := 1; maxTime := 2; typ := 0;
     checksum := crc32.ChecksumIEEE payload; buf := payload |}.

(** The stored checksum is off by one bit. *)
Definition corruptBlock : Block :=
  {| blockKey := cpuKey; minTime := 1; maxTime := 2; typ := 0;
     checksum := Z.lxor (crc32.ChecksumIEEE payload) 1; buf := payload |}.

Definition soundFile : File :=
  Readable {| index := [(cpuKey, 0)];
              blocks := [ReadOk soundBlock; ReadOk soundBlock] |}.

Definition corruptFile : File :=
  Readable {| index := [(cpuKey, 0)]; blocks := [ReadOk corruptBlock] |}.

Definition flippedFile : File :=
  Readable {| index := [(cpuKey, 0)];
              blocks := [ReadOk soundBlock;
                         ReadOk (tsm_facts.flipBlock soundBlock 10);
                         ReadOk soundBlock] |}.

Definition brokenKeyFile : File :=
  Readable {| index := [(cpuKey, 0); (brokenKey, 0)];
              blocks := [ReadOk soundBlock] |}.

Definition garbage : File := Unparsable (errors_New "init: error reading magic number of file").

(** One TSM file with one block whose stored checksum is corrupted. *)
Definition corruptDisk : verify_tsm.Disk :=
  {| verify_tsm.tree := dataTree ["000000001-000000001.tsm"];
     verify_tsm.content :=
       {[ "/data/000000001-000000001.tsm" := corruptFile ]} |}.

(** Two sound files around one file with a flipped bit. *)
Definition flippedDisk : verify_tsm.Disk :=
  {| verify_tsm.tree := dataTree ["a.tsm"; "b.tsm"; "c.tsm"; "notes.txt"];
     verify_tsm.content :=
       {[ "/data/a.tsm" := soundFile; "/data/b.tsm" := flippedFile;
          "/data/c.tsm" := soundFile ]} |}.

(** One TSM file that does not parse, and whose keys are therefore
    never seen. *)
Definition garbageDisk : verify_tsm.Disk :=
  {| verify_tsm.tree := dataTree ["a.tsm"];
     verify_tsm.content := {[ "/data/a.tsm" := garbage ]} |}.

(** A sound file, a file that does not parse, and a file after it. *)
Definition mixedDisk : verify_tsm.Disk :=
  {| verify_tsm.tree := dataTree ["a.tsm"; "b.tsm"; "c.tsm"];
     verify_tsm.content :=
       {[ "/data/a.tsm" := corruptFile; "/data/b.tsm" := garbage;
          "/data/c.tsm" := brokenKeyFile ]} |}.

Definition keysDisk : verify_tsm.Disk :=
  {| verify_tsm.tree := dataTree ["a.tsm"; "b.tsm"];
     verify_tsm.content :=
       {[ "/data/a.tsm" := soundFile; "/data/b.tsm" := brokenKeyFile ]} |}.

Definition entry (t : Z) : Tombstone := {| Key := cpuKey; Min := t; Max := t |}.

Definition wholeTombstones : Tombstoner :=
  {| HasTombstones := true; entries := [entry 1; entry 2; entry 3];
     walkErr := None |}.

(** Two entries can be read, then the file ends early. *)
Definition tornTombstones : Tombstoner :=
  {| HasTombstones := true; entries := [entry 1; entry 2];
     walkErr := Some (errors_New "unexpected EOF") |}.

Definition noTombstones : Tombstoner :=
  {| HasTombstones := false; entries := []; walkErr := None |}.

Definition tombstoneDisk : verify_tombstone.Disk :=
  {| verify_tombstone.tree :=
       dataTree ["a.tombstone"; "a.tsm"; "b.tombstone"; "c.tombstone"];
     verify_tombstone.content :=
       {[ "/data/a.tombstone" := wholeTombstones;
          "/data/b.tombstone" := tornTombstones;
          "/data/c.tombstone" := noTombstones ]} |}.

Definition quietDisk : verify_tombstone.Disk :=
  {| verify_tombstone.tree := dataTree ["a.tombstone"; "c.tombstone"];
     verify_tombstone.content :=
       {[ "/data/a.tombstone" := wholeTombstones;
          "/data/c.tombstone" := noTombstones ]} |}.

Definition emptyDisk : verify_tombstone.Disk :=
  {| verify_tombstone.tree := dataTree ["a.tsm"];
     verify_tombstone.content := ∅ |}.

End samples.

(** ** Further notions

    Notions for the properties of the traversal, of the iteration over the
    files and of what a run prints and closes. *)

(** The error at which a traversal stops: the first one it meets. *)
Fixpoint firstError (visits : list filepath.Visit) : option error :=
  match visits with
  | [] => None
  | (_, Some e) :: _ => Some e
  | (_, None) :: rest => firstError rest
  end.

(** The visits a traversal makes before it meets an error. *)
Fixpoint beforeError (visits : list filepath.Visit) : list filepath.Visit :=
  match visits with
  | [] => []
  | (_, Some _) :: _ => []
  | vis :: rest => vis :: beforeError rest
  end.

(** The path ends in the given suffix. *)
Definition endsIn (suffix path : string) : Prop :=
  exists pre, path = pre +:+ suffix.

Module tsm_more.

Import tsm1 verify_tsm tsm_facts.

(** [next] called up to [n] times, as long as it returns true: the values
    [v.f] takes, and the state after the last call. *)
Fixpoint nexts (n : nat) (v : verifyTSM) : list string * verifyTSM :=
  match n with
  | O => ([], v)
  | S n' =>
    match next v with
    | (v1, true) => let '(fs, v2) := nexts n' v1 in (f v1 :: fs, v2)
    | (v1, false) => ([], v1)
    end
  end.

(** The lines printed, as opposed to the calls made. *)
Definition isPrint (e : Event) : bool :=
  match e with
  | PrintNotUTF8 _ _ | PrintHealthy _ | PrintInvalidKeys _ _
  | PrintNoChecksum _ _ _ _ | PrintMismatch _ _ _ _ _
  | PrintBrokenBlocks _ _ => true
  | _ => false
  end.

Definition isClose (e : Event) : bool :=
  match e with
  | CallFileClose _ | CallReaderClose _ => true
  | _ => false
  end.

Definition isNotUTF8 (e : Event) : bool :=
  match e with
  | PrintNotUTF8 _ _ => true
  | _ => false
  end.

(** The lines [-v] prints for the invalid keys of a file: one for each
    index with an invalid key, in the order of the index. *)
Definition keyReports (p : string) (r : TSMReader) : list Event :=
  map (PrintNotUTF8 p) (List.filter (keyInvalid r) (seqZ 0 (KeyCount r))).

(** The lines [-v] prints for the broken blocks among [l], the first of
    which is block number [k] of the file. *)
Fixpoint blockReports (p : string) (k : Z) (l : list BlockRead) : list Event :=
  match l with
  | [] => []
  | rd :: rest =>
    match rd with
    | ReadErr err => [PrintNoChecksum p [] k err]
    | ReadOk b =>
      if blockBad rd
      then [PrintMismatch p (checksum b) (crc32.ChecksumIEEE (buf b))
              (blockKey b) k]
      else []
    end ++ blockReports p (k + 1) rest
  end.

(** The closers a run has deferred when it returns: one for each file
    opened, up to and including the first file that does not parse, and
    none for a file that does not open. *)
Fixpoint deferredClosers (d : Disk) (fl : list string) : list closer :=
  match fl with
  | [] => []
  | p :: rest =>
    match content d !! p with
    | Some (Readable _) => closeFileAndReader p :: deferredClosers d rest
    | Some (Unparsable _) => [closeFile p]
    | _ => []
    end
  end.




End tsm_more.

Module tombstone_more.

Import tsm1 verify_tombstone tombstone_facts.

Fixpoint nexts (n : nat) (v : verifier) : list string * verifier :=
  match n with
  | O => ([], v)
  | S n' =>
    match next v with
    | (v1, true) => let '(fs, v2) := nexts n' v1 in (f v1 :: fs, v2)
    | (v1, false) => ([], v1)
    end
  end.

(** The line that tells the outcome for one file. *)
Definition isOutcome (e : Event) : bool :=
  match e with
  | PrintNoEntries _ | PrintWalkFailed _ _ _ | PrintCompleted _ _ => true
  | _ => false
  end.

Definition isEntryLine (e : Event) : bool :=
  match e with
  | PrintEntry _ _ _ => true
  | _ => false
  end.

(** The lines the visitor of the walk prints. *)
Definition isWalkLine (e : Event) : bool :=
  match e with
  | PrintProgress _ | PrintEntry _ _ _ => true
  | _ => false
  end.

(** The verifier at work on the file at [p]. *)
Definition verifierAt (verbosity : Z) (p : string) : verifier :=
  {| path := ""; verbosity := verbosity; files := []; f := p |}.

(** The lines printed only at some verbosity. *)
Definition isChatter (e : Event) : bool :=
  match e with
  | PrintVerifying _ | PrintProgress _ | PrintEntry _ _ _ => true
  | _ => false
  end.

(** The line prints a time as [time.Unix(0, _)]. *)
Definition usesUnixTime (e : Event) : bool :=
  match e with
  | PrintEntry _ (unixTime _) _ | PrintEntry _ _ (unixTime _) => true
  | _ => false
  end.

(** The line [--vv] prints for an entry. *)
Definition entryLine (t : Tombstone) : Event :=
  PrintEntry (Key t) (rawInt64 (Min t)) (rawInt64 (Max t)).

(** The entries the walk of the file at [p] delivers, none when the file
    has no tombstones. *)
Definition walkedEntries (d : Disk) (p : string) : list Tombstone :=
  if HasTombstones (NewTombstoner d p)
  then entries (NewTombstoner d p) else [].

End tombstone_more.

(** * Properties *)

(** ** The models of the standard library on known values *)

(** The check value of CRC-32/IEEE: the checksum of the ASCII string
    "123456789" is [0xCBF43926]. *)
Example ChecksumIEEE_check_value :
  crc32.ChecksumIEEE [49; 50; 51; 52; 53; 54; 55; 56; 57] = 0xCBF43926.
Proof. vm_compute. reflexivity. Qed.

Example ChecksumIEEE_empty : crc32.ChecksumIEEE [] = 0.
Proof. reflexivity. Qed.

Example IEEETable_entries :
  crc32.index crc32.IEEETable 1 = 0x77073096
  /\ crc32.index crc32.IEEETable 255 = 0x2d02ef8d.
Proof. split; reflexivity. Qed.

(** The euro sign and an emoji are valid; a lone [0xFF], an overlong
    encoding, a surrogate and a truncated sequence are not. *)
Example Valid_examples :
  utf8.Valid [0xE2; 0x82; 0xAC] = true
  /\ utf8.Valid [0xF0; 0x9F; 0x98; 0x80] = true
  /\ utf8.Valid samples.cpuKey = true
  /\ utf8.Valid [0xFF] = false
  /\ utf8.Valid [0xC0; 0x80] = false
  /\ utf8.Valid [0xED; 0xA0; 0x80] = false
  /\ utf8.Valid [0xE2; 0x82] = false
  /\ utf8.Valid samples.brokenKey = false.
Proof. repeat split; reflexivity. Qed.

Example Ext_examples :
  filepath.Ext "/data/000000001-000000001.tsm" = ".tsm"
  /\ filepath.Ext "/data/a.tombstone" = ".tombstone"
  /\ filepath.Ext "/data.tsm/readme" = ""
  /\ filepath.Ext "/data/a.tsm.tmp" = ".tmp"
  /\ filepath.Ext "/data/" = "".
Proof. repeat split; reflexivity. Qed.

(** ** Bits and machine integers *)

Section Ints.

Lemma wrap64_is_int z : is_int (wrap64 z).
Proof.
  unfold is_int, wrap64, int_min, int_max.
  pose proof (Z.mod_pos_bound (z + 2 ^ 63) (2 ^ 64) ltac:(lia)). lia.
Qed.

Lemma wrap64_id z : is_int z -> wrap64 z = z.
Proof.
  unfold is_int, wrap64, int_min, int_max. intros H.
  rewrite Z.mod_small by lia. lia.
Qed.

Lemma wrap64_add_l a b : wrap64 (wrap64 a + b) = wrap64 (a + b).
Proof.
  unfold wrap64. f_equal.
  replace ((a + 2 ^ 63) mod 2 ^ 64 - 2 ^ 63 + b + 2 ^ 63)
    with ((a + 2 ^ 63) mod 2 ^ 64 + b) by lia.
  rewrite Z.add_mod_idemp_l by lia. f_equal. lia.
Qed.

Lemma int_add_wrap a b c : int_add (wrap64 (a + b)) c = wrap64 (a + (b + c)).
Proof. unfold int_add. rewrite wrap64_add_l. f_equal. lia. Qed.

Lemma int_incr_wrap a b : int_incr (wrap64 (a + b)) = wrap64 (a + (b + 1)).
Proof. apply int_add_wrap. Qed.

Lemma wrap64_incr_add a b : wrap64 (int_incr a + b) = wrap64 (a + (1 + b)).
Proof. unfold int_incr, int_add. rewrite wrap64_add_l. f_equal. lia. Qed.

Lemma int_add_is_int a b : is_int (int_add a b).
Proof. apply wrap64_is_int. Qed.

Lemma int_incr_is_int a : is_int (int_incr a).
Proof. apply wrap64_is_int. Qed.

Lemma is_int_0 : is_int 0.
Proof. unfold is_int, int_min, int_max. lia. Qed.

Lemma wrap64_small n : 0 <= n < 2 ^ 63 -> wrap64 n = n.
Proof. intros H. apply wrap64_id. unfold is_int, int_min, int_max. lia. Qed.

End Ints.

Section Counting.
Context {A : Type}.

Lemma countIf_nil (p : A -> bool) : countIf p [] = 0.
Proof. reflexivity. Qed.

Lemma countIf_cons (p : A -> bool) a l :
  countIf p (a :: l) = (if p a then 1 else 0) + countIf p l.
Proof.
  unfold countIf. cbn [List.filter]. destruct (p a); cbn [length]; lia.
Qed.

Lemma countIf_app (p : A -> bool) l1 l2 :
  countIf p (l1 ++ l2) = countIf p l1 + countIf p l2.
Proof.
  induction l1 as [|a l1 IH]; [now rewrite app_nil_l, countIf_nil|].
  rewrite <- app_comm_cons, !countIf_cons, IH. lia.
Qed.

Lemma countIf_bounds (p : A -> bool) l :
  0 <= countIf p l <= Z.of_nat (length l).
Proof.
  induction l as [|a l IH]; [rewrite countIf_nil; cbn [length]; lia|].
  rewrite countIf_cons. cbn [length]. destruct (p a); lia.
Qed.

Lemma countIf_pos (p : A -> bool) l :
  0 < countIf p l <-> exists a, In a l /\ p a = true.
Proof.
  induction l as [|a l IH].
  - rewrite countIf_nil. split; [lia | intros (a & [] & _)].
  - rewrite countIf_cons. pose proof (countIf_bounds p l) as B.
    destruct (p a) eqn:E.
    + split; [intros _; exists a; split; [now left | exact E] | lia].
    + rewrite Z.add_0_l, IH. split.
      * intros (x & Hx & Hp). exists x. split; [now right | exact Hp].
      * intros (x & [->|Hx] & Hp); [congruence | now exists x].
Qed.

Lemma countIf_zero (p : A -> bool) l :
  countIf p l = 0 <-> Forall (fun a => p a = false) l.
Proof.
  pose proof (countIf_bounds p l) as B. pose proof (countIf_pos p l) as P.
  rewrite List.Forall_forall. split.
  - intros E a Ha. destruct (p a) eqn:Hp; [|reflexivity].
    assert (0 < countIf p l) by (apply P; eauto). lia.
  - intros H. destruct (Z.eq_dec (countIf p l) 0) as [|Hne]; [assumption|].
    assert (Hpos : 0 < countIf p l) by lia.
    apply P in Hpos as (a & Ha & Hp). rewrite (H a Ha) in Hp. discriminate.
Qed.

End Counting.

Section Emitting.
Context {E S A : Type}.

Lemma forEach_app (body : S -> A -> Emit E S) s l1 l2 :
  forEach body s (l1 ++ l2)
  = (let* s1 := forEach body s l1 in forEach body s1 l2).
Proof.
  revert s. induction l1 as [|a l1 IH]; intros s; cbn.
  - destruct (forEach body s l2). reflexivity.
  - unfold emit_bind in *. destruct (body s a) as [s1 e1]. rewrite IH.
    destruct (forEach body s1 l1) as [s2 e2].
    destruct (forEach body s2 l2) as [s3 e3]. now rewrite app_assoc.
Qed.
End Emitting.

Section Bits.

Lemma high_bits_zero n a i :
  0 <= a < 2 ^ n -> n <= i -> Z.testbit a i = false.
Proof.
  intros Ha Hi.
  destruct (Z.ltb_spec n 0) as [Hn|Hn].
  - rewrite Z.pow_neg_r in Ha by lia. lia.
  - rewrite <- (Z.mod_small a (2 ^ n)) by lia.
    apply Z.mod_pow2_bits_high. lia.
Qed.

Lemma below_pow2 n a :
  0 <= n -> 0 <= a -> (forall i, n <= i -> Z.testbit a i = false) ->
  a < 2 ^ n.
Proof.
  intros Hn Ha H.
  assert (E : a mod 2 ^ n = a).
  { apply Z.bits_inj'. intros i Hi.
    destruct (Z.ltb_spec i n).
    - apply Z.mod_pow2_bits_low. lia.
    - rewrite Z.mod_pow2_bits_high by lia. symmetry. apply H. lia. }
  rewrite <- E. apply Z.mod_pos_bound. lia.
Qed.

Lemma lxor_below n a b :
  0 <= n -> 0 <= a < 2 ^ n -> 0 <= b < 2 ^ n -> 0 <= Z.lxor a b < 2 ^ n.
Proof.
  intros Hn Ha Hb.
  assert (H0 : 0 <= Z.lxor a b) by (apply Z.lxor_nonneg; lia).
  split; [exact H0|].
  apply below_pow2; [lia | exact H0 |].
  intros i Hi. rewrite Z.lxor_spec.
  rewrite (high_bits_zero n a), (high_bits_zero n b) by lia. reflexivity.
Qed.

Lemma uint32_lxor a b : is_uint32 a -> is_uint32 b -> is_uint32 (Z.lxor a b).
Proof. apply lxor_below. lia. Qed.

Lemma uint32_shiftr a n : 0 <= n -> is_uint32 a -> is_uint32 (Z.shiftr a n).
Proof.
  unfold is_uint32. intros Hn [Ha0 Ha]. rewrite Z.shiftr_div_pow2 by lia.
  split; [apply Z.div_pos; lia|].
  apply Z.div_lt_upper_bound; [lia|]. nia.
Qed.

Lemma lxor_cancel_r a b c : Z.lxor a c = Z.lxor b c -> a = b.
Proof.
  intros H. apply (f_equal (fun x => Z.lxor x c)) in H.
  now rewrite !Z.lxor_assoc, Z.lxor_nilpotent, !Z.lxor_0_r in H.
Qed.

Lemma land_lxor_distr a b m :
  Z.land (Z.lxor a b) m = Z.lxor (Z.land a m) (Z.land b m).
Proof.
  apply Z.bits_inj'. intros i _.
  rewrite !Z.lxor_spec, !Z.land_spec, Z.lxor_spec.
  destruct (Z.testbit a i), (Z.testbit b i), (Z.testbit m i); reflexivity.
Qed.

End Bits.

Module crc32_rounds.
Import crc32.

Lemma shift1_lxor poly a b :
  shift1 poly (Z.lxor a b) = Z.lxor (shift1 poly a) (shift1 poly b).
Proof.
  unfold shift1. rewrite Z.lxor_spec, Z.shiftr_lxor.
  destruct (Z.testbit a 0), (Z.testbit b 0); cbn [xorb].
  - rewrite Z.lxor_assoc, (Z.lxor_comm poly), Z.lxor_assoc,
      Z.lxor_nilpotent, Z.lxor_0_r. reflexivity.
  - rewrite !Z.lxor_assoc. f_equal. apply Z.lxor_comm.
  - rewrite !Z.lxor_assoc. reflexivity.
  - reflexivity.
Qed.

Lemma shift1_uint32 poly a :
  is_uint32 poly -> is_uint32 a -> is_uint32 (shift1 poly a).
Proof.
  intros Hp Ha. unfold shift1.
  destruct (Z.testbit a 0).
  - apply uint32_lxor; [apply uint32_shiftr; [lia | exact Ha] | exact Hp].
  - apply uint32_shiftr; [lia | exact Ha].
Qed.

(** The polynomial has its top bit set, so a round never maps a non-zero
    register to zero. *)
Lemma shift1_zero poly a :
  2 ^ 31 <= poly -> is_uint32 a -> shift1 poly a = 0 -> a = 0.
Proof.
  unfold is_uint32, shift1. intros Hp Ha.
  assert (Hs : 0 <= Z.shiftr a 1 < 2 ^ 31).
  { rewrite Z.shiftr_div_pow2 by lia. change (2 ^ 1) with 2.
    split; [apply Z.div_pos; lia | apply Z.div_lt_upper_bound; lia]. }
  destruct (Z.testbit a 0) eqn:Hb.
  - intros H. apply Z.lxor_eq in H. lia.
  - intros H. rewrite Z.bit0_odd in Hb.
    rewrite Z.shiftr_div_pow2 in H by lia. change (2 ^ 1) with 2 in H.
    pose proof (Z.div_mod a 2 ltac:(lia)) as E.
    rewrite Zmod_odd, Hb in E. lia.
Qed.

Lemma iter_shift1_lxor poly n a b :
  Nat.iter n (shift1 poly) (Z.lxor a b)
  = Z.lxor (Nat.iter n (shift1 poly) a) (Nat.iter n (shift1 poly) b).
Proof.
  induction n as [|n IH]; [reflexivity|].
  rewrite !Nat.iter_succ. rewrite IH. apply shift1_lxor.
Qed.

Lemma iter_shift1_uint32 poly n a :
  is_uint32 poly -> is_uint32 a -> is_uint32 (Nat.iter n (shift1 poly) a).
Proof.
  intros Hp Ha. induction n as [|n IH]; [exact Ha|].
  rewrite !Nat.iter_succ. apply shift1_uint32; assumption.
Qed.

Lemma iter_shift1_zero poly n a :
  is_uint32 poly -> 2 ^ 31 <= poly -> is_uint32 a ->
  Nat.iter n (shift1 poly) a = 0 -> a = 0.
Proof.
  intros Hp Hp' Ha. induction n as [|n IH]; [trivial|].
  rewrite !Nat.iter_succ. intros H. apply IH.
  eapply shift1_zero; [exact Hp' | | exact H].
  apply iter_shift1_uint32; assumption.
Qed.

(** Rounds on a register whose low bits are clear only shift. *)
Lemma iter_shift1_shiftl poly n h :
  0 <= h ->
  Nat.iter n (shift1 poly) (Z.shiftl h (Z.of_nat n)) = h.
Proof.
  intros Hh. induction n as [|n IH]; [apply Z.shiftl_0_r|].
  rewrite Nat.iter_succ_r. 
  replace (shift1 poly (Z.shiftl h (Z.of_nat (S n)))) with (Z.shiftl h (Z.of_nat n)); [exact IH|].
  unfold shift1. rewrite Z.shiftl_spec_low by lia.
  rewrite Z.shiftr_shiftl_l by lia. f_equal. lia.
Qed.

End crc32_rounds.

Module crc32_table.
Import crc32 crc32_rounds.

Lemma IEEE_uint32 : is_uint32 IEEE.
Proof. unfold is_uint32, IEEE. lia. Qed.

Lemma IEEE_top_bit : 2 ^ 31 <= IEEE.
Proof. unfold IEEE. lia. Qed.

Lemma IEEETable_eq : IEEETable = simpleMakeTable IEEE.
Proof. vm_compute. reflexivity. Qed.

Lemma index_IEEETable i :
  is_byte i -> index IEEETable i = tableEntry IEEE i.
Proof.
  intros Hi. unfold index, is_byte in *.
  rewrite IEEETable_eq. unfold simpleMakeTable.
  rewrite nth_lookup, list_lookup_fmap.
  rewrite lookup_seqZ_lt by lia.
  rewrite Z.add_0_l, Z2Nat.id by lia. reflexivity.
Qed.

Lemma byte_lxor a b : is_byte a -> is_byte b -> is_byte (Z.lxor a b).
Proof. apply (lxor_below 8). lia. Qed.

Lemma byte_land c : 0 <= c -> is_byte (Z.land c 0xFF).
Proof.
  intros Hc. unfold is_byte. change 0xFF with (Z.ones 8).
  rewrite Z.land_ones by lia. apply Z.mod_pos_bound. lia.
Qed.

Lemma byte_uint32 v : is_byte v -> is_uint32 v.
Proof. unfold is_byte, is_uint32. lia. Qed.

Lemma tableEntry_uint32 i : is_byte i -> is_uint32 (tableEntry IEEE i).
Proof.
  intros Hi. apply iter_shift1_uint32; [apply IEEE_uint32 | now apply byte_uint32].
Qed.

Lemma update1_uint32 c v :
  is_uint32 c -> is_byte v -> is_uint32 (update1 IEEETable c v).
Proof.
  intros Hc Hv. unfold update1.
  assert (Hi : is_byte (Z.lxor (Z.land c 0xFF) v)).
  { apply byte_lxor; [apply byte_land; apply Hc | exact Hv]. }
  rewrite index_IEEETable by exact Hi.
  apply uint32_lxor; [now apply tableEntry_uint32 | apply uint32_shiftr; [lia | exact Hc]].
Qed.

(** The register update is linear over exclusive-or, jointly in the
    register and the byte. *)
Lemma update1_lxor c d v w :
  is_uint32 c -> is_uint32 d -> is_byte v -> is_byte w ->
  update1 IEEETable (Z.lxor c d) (Z.lxor v w)
  = Z.lxor (update1 IEEETable c v) (update1 IEEETable d w).
Proof.
  intros Hc Hd Hv Hw. unfold update1.
  assert (Hcd : is_uint32 (Z.lxor c d)) by now apply uint32_lxor.
  rewrite !index_IEEETable
    by (repeat apply byte_lxor; try apply byte_land; try assumption;
        apply Hc || apply Hd || apply Hcd).
  rewrite land_lxor_distr, Z.shiftr_lxor.
  replace (Z.lxor (Z.lxor (Z.land c 255) (Z.land d 255)) (Z.lxor v w))
    with (Z.lxor (Z.lxor (Z.land c 255) v) (Z.lxor (Z.land d 255) w)).
  2:{ rewrite !Z.lxor_assoc. f_equal.
      rewrite <- !Z.lxor_assoc. f_equal. apply Z.lxor_comm. }
  unfold tableEntry. rewrite iter_shift1_lxor.
  rewrite !Z.lxor_assoc. f_equal.
  rewrite <- !Z.lxor_assoc. f_equal. apply Z.lxor_comm.
Qed.

(** Feeding a zero byte is eight rounds on the whole register. *)
Lemma update1_zero_byte d :
  is_uint32 d -> update1 IEEETable d 0 = Nat.iter 8 (shift1 IEEE) d.
Proof.
  intros Hd. unfold update1. rewrite Z.lxor_0_r.
  rewrite index_IEEETable by (apply byte_land; apply Hd).
  unfold tableEntry.
  assert (Hs : 0 <= Z.shiftr d 8) by (apply Z.shiftr_nonneg; apply Hd).
  rewrite <- (iter_shift1_shiftl IEEE 8 (Z.shiftr d 8)) at 1 by exact Hs.
  rewrite <- iter_shift1_lxor. f_equal.
  change (Z.of_nat 8) with 8.
  apply Z.bits_inj'. intros i Hi.
  rewrite Z.lxor_spec, Z.land_spec.
  change 255 with (Z.ones 8).
  destruct (Z.ltb_spec i 8).
  - rewrite Z.shiftl_spec_low by lia.
    rewrite Z.ones_spec_low by lia. now rewrite andb_true_r, xorb_false_r.
  - rewrite Z.shiftl_spec_high, Z.shiftr_spec by lia.
    rewrite Z.ones_spec_high by lia. rewrite andb_false_r. cbn.
    f_equal. lia.
Qed.

Lemma update1_zero_byte_nonzero d :
  is_uint32 d -> d <> 0 -> update1 IEEETable d 0 <> 0.
Proof.
  intros Hd Hne H. apply Hne. rewrite update1_zero_byte in H by exact Hd.
  eapply iter_shift1_zero; [apply IEEE_uint32 | apply IEEE_top_bit | exact Hd | exact H].
Qed.

Lemma update1_zero_register_nonzero e :
  is_byte e -> e <> 0 -> update1 IEEETable 0 e <> 0.
Proof.
  intros He Hne H. apply Hne. unfold update1 in H.
  rewrite Z.land_0_l, Z.lxor_0_l, Z.shiftr_0_l, Z.lxor_0_r in H.
  rewrite index_IEEETable in H by exact He.
  eapply iter_shift1_zero; [apply IEEE_uint32 | apply IEEE_top_bit | now apply byte_uint32 | exact H].
Qed.

(** Two distinct registers stay distinct over a common byte. *)
Lemma update1_inj_register c c' v :
  is_uint32 c -> is_uint32 c' -> is_byte v -> c <> c' ->
  update1 IEEETable c v <> update1 IEEETable c' v.
Proof.
  intros Hc Hc' Hv Hne H.
  assert (Hd : is_uint32 (Z.lxor c c')) by now apply uint32_lxor.
  apply (update1_zero_byte_nonzero (Z.lxor c c') Hd).
  - intros E. apply Z.lxor_eq in E. contradiction.
  - pose proof (update1_lxor c c' v v Hc Hc' Hv Hv) as E.
    rewrite (Z.lxor_nilpotent v) in E. rewrite E, H. apply Z.lxor_nilpotent.
Qed.

(** Two distinct bytes send one register to distinct registers. *)
Lemma update1_inj_byte c v v' :
  is_uint32 c -> is_byte v -> is_byte v' -> v <> v' ->
  update1 IEEETable c v <> update1 IEEETable c v'.
Proof.
  intros Hc Hv Hv' Hne H.
  apply (update1_zero_register_nonzero (Z.lxor v v')).
  - now apply byte_lxor.
  - intros E. apply Z.lxor_eq in E. contradiction.
  - pose proof (update1_lxor c c v v' Hc Hc Hv Hv') as E.
    rewrite (Z.lxor_nilpotent c) in E. rewrite E, H. apply Z.lxor_nilpotent.
Qed.

Lemma fold_update1_uint32 p c :
  Forall is_byte p -> is_uint32 c ->
  is_uint32 (fold_left (update1 IEEETable) p c).
Proof.
  intros Hp. revert c. induction Hp as [|v p Hv Hp IH]; intros c Hc; [exact Hc|].
  cbn. apply IH. now apply update1_uint32.
Qed.

Lemma fold_update1_inj p c c' :
  Forall is_byte p -> is_uint32 c -> is_uint32 c' -> c <> c' ->
  fold_left (update1 IEEETable) p c <> fold_left (update1 IEEETable) p c'.
Proof.
  intros Hp. revert c c'.
  induction Hp as [|v p Hv Hp IH]; intros c c' Hc Hc' Hne; [exact Hne|].
  cbn. apply IH; try now apply update1_uint32.
  now apply update1_inj_register.
Qed.

End crc32_table.

Module crc32_flip.
Import crc32 crc32_rounds crc32_table.

Lemma not32_uint32 c : is_uint32 c -> is_uint32 (not32 c).
Proof. intros Hc. apply uint32_lxor; [exact Hc | unfold is_uint32, uint32_max; lia]. Qed.

Lemma flipped_byte v (i : nat) :
  is_byte v -> (i < 8)%nat -> is_byte (Z.lxor v (2 ^ Z.of_nat i)).
Proof.
  intros Hv Hi. apply byte_lxor; [exact Hv|].
  unfold is_byte. split; [lia|].
  change 256 with (2 ^ 8). apply Z.pow_lt_mono_r; lia.
Qed.

Lemma flipBit_bytes b i : Forall is_byte b -> Forall is_byte (flipBit b i).
Proof.
  intros Hb. revert i.
  induction Hb as [|v b Hv Hb IH]; intros i; cbn [flipBit]; [constructor|].
  destruct (Nat.ltb_spec i 8).
  - constructor; [now apply flipped_byte | exact Hb].
  - constructor; [exact Hv | apply IH].
Qed.

Lemma flipBit_length b i : length (flipBit b i) = length b.
Proof.
  revert i. induction b as [|v b IH]; intros i; cbn [flipBit]; [reflexivity|].
  destruct (i <? 8)%nat; cbn [length]; [reflexivity | now rewrite IH].
Qed.

Lemma flipped_byte_differs v (i : nat) : Z.lxor v (2 ^ Z.of_nat i) <> v.
Proof.
  intros H.
  assert (E : Z.lxor (Z.lxor v (2 ^ Z.of_nat i)) v = 0) by (rewrite H; apply Z.lxor_nilpotent).
  rewrite Z.lxor_comm, <- Z.lxor_assoc, Z.lxor_nilpotent, Z.lxor_0_l in E.
  pose proof (Z.pow_pos_nonneg 2 (Z.of_nat i)). lia.
Qed.

(** A single flipped bit leaves the register different, whatever
    follows. *)
Lemma fold_update1_flipBit b i c :
  Forall is_byte b -> is_uint32 c -> (i < 8 * length b)%nat ->
  fold_left (update1 IEEETable) (flipBit b i) c
  <> fold_left (update1 IEEETable) b c.
Proof.
  intros Hb. revert i c.
  induction Hb as [|v b Hv Hb IH]; intros i c Hc Hi; cbn [length] in Hi; [lia|].
  cbn [flipBit]. destruct (Nat.ltb_spec i 8) as [Hlt|Hge]; cbn [fold_left].
  - assert (Hv' : is_byte (Z.lxor v (2 ^ Z.of_nat i))) by now apply flipped_byte.
    apply fold_update1_inj;
      [exact Hb | now apply update1_uint32 | now apply update1_uint32 |].
    apply update1_inj_byte; try assumption. apply flipped_byte_differs.
  - apply IH; [now apply update1_uint32 | lia].
Qed.

Lemma ChecksumIEEE_flipBit b i :
  Forall is_byte b -> (i < 8 * length b)%nat ->
  ChecksumIEEE (flipBit b i) <> ChecksumIEEE b.
Proof.
  intros Hb Hi H. unfold ChecksumIEEE, simpleUpdate, not32 in H.
  apply lxor_cancel_r in H. revert H.
  apply fold_update1_flipBit; [exact Hb | | exact Hi].
  apply (not32_uint32 0). unfold is_uint32. lia.
Qed.

Lemma ChecksumIEEE_uint32 b : Forall is_byte b -> is_uint32 (ChecksumIEEE b).
Proof.
  intros Hb. apply not32_uint32, fold_update1_uint32; [exact Hb|].
  apply (not32_uint32 0). unfold is_uint32. lia.
Qed.

End crc32_flip.

(** ** [verify-tsm]: the loops *)

Module utf8_proofs.
Import tsm1 verify_tsm tsm_facts.

Lemma readable_readerAt d p r :
  content d !! p = Some (Readable r) -> readerAt d p = r.
Proof. intros H. unfold readerAt. now rewrite H. Qed.

Lemma tsmReader_readable d fls p r :
  content d !! p = Some (Readable r) ->
  tsmReader d {| files := fls; f := p |}
  = (openedOk r (closeFileAndReader p), [CallOpenFile p; CallNewTSMReader p]).
Proof. intros H. unfold tsmReader. cbn [f]. now rewrite H. Qed.

Lemma tsmReader_failure d fls p c e :
  openFailure d p = Some (c, e) ->
  tsmReader d {| files := fls; f := p |} = (openedErr c e, openTrace d p).
Proof.
  unfold tsmReader, openFailure, openTrace. cbn [f].
  destruct (content d !! p) as [[e'|e'|r]|]; intros H; inversion H; reflexivity.
Qed.

Lemma openFailure_not_readable d p :
  ~ readable d p <-> exists c e, openFailure d p = Some (c, e).
Proof.
  unfold readable, openFailure.
  destruct (content d !! p) as [[e'|e'|r]|]; split;
    try (intros _; eauto; fail);
    try (intros _ (r' & H); discriminate).
  - intros H. exfalso. apply H. eauto.
  - intros (c & e & H). discriminate.
Qed.

Lemma readable_dec d p : readable d p \/ ~ readable d p.
Proof.
  unfold readable.
  destruct (content d !! p) as [[e'|e'|r]|]; eauto;
    right; intros (r' & H); discriminate.
Qed.

(** A list of paths is readable throughout, or has a first path that is
    not. *)
Lemma first_unreadable d fl :
  Forall (readable d) fl
  \/ exists pre p post,
       fl = pre ++ p :: post /\ Forall (readable d) pre /\ ~ readable d p.
Proof.
  induction fl as [|a fl IH]; [left; constructor|].
  destruct (readable_dec d a) as [Ha|Ha].
  - destruct IH as [IH|(pre & p & post & -> & Hpre & Hp)].
    + left. now constructor.
    + right. exists (a :: pre), p, post. repeat split; [now constructor | exact Hp].
  - right. exists [], a, fl. repeat split; [constructor | exact Ha].
Qed.

Lemma checkKey_eq verbose r v fe i :
  checkKey verbose r (v, fe) i
  = (if keyInvalid r i
     then ({| utf8_verifyTSM := utf8_verifyTSM v;
              utf8_totalErrors := int_incr (utf8_totalErrors v);
              utf8_total := utf8_total v |}, int_incr fe)
     else (v, fe),
     keyTrace verbose (f (utf8_verifyTSM v)) r i).
Proof.
  unfold checkKey, keyTrace, keyInvalid.
  destruct (KeyAt r i) as [key t]. cbn [fst].
  destruct (utf8.Valid key), verbose; reflexivity.
Qed.

Lemma forEach_checkKey verbose r b te tot fe l :
  is_int te -> is_int fe ->
  forEach (checkKey verbose r)
    ({| utf8_verifyTSM := b; utf8_totalErrors := te; utf8_total := tot |}, fe) l
  = (({| utf8_verifyTSM := b;
         utf8_totalErrors := wrap64 (te + countIf (keyInvalid r) l);
         utf8_total := tot |},
      wrap64 (fe + countIf (keyInvalid r) l)),
     flat_map (keyTrace verbose (f b) r) l).
Proof.
  revert te fe. induction l as [|i l IH]; intros te fe Hte Hfe.
  - rewrite countIf_nil, !Z.add_0_r, !wrap64_id by assumption. reflexivity.
  - cbn [forEach flat_map]. rewrite checkKey_eq, countIf_cons.
    cbn [utf8_verifyTSM utf8_totalErrors utf8_total].
    unfold emit_bind. destruct (keyInvalid r i).
    + rewrite IH by apply int_incr_is_int.
      rewrite !wrap64_incr_add. reflexivity.
    + rewrite IH by assumption. rewrite !Z.add_0_l. reflexivity.
Qed.

Lemma checkKeys_eq verbose r b te tot :
  is_int te ->
  checkKeys verbose r
    {| utf8_verifyTSM := b; utf8_totalErrors := te; utf8_total := tot |}
  = ({| utf8_verifyTSM := b;
        utf8_totalErrors := wrap64 (te + invalidKeys r);
        utf8_total := int_add tot (KeyCount r) |},
     [CallKeyCount (f b)]
     ++ flat_map (keyTrace verbose (f b) r) (seqZ 0 (KeyCount r))
     ++ (if (wrap64 (invalidKeys r) =? 0) && verbose
         then [PrintHealthy (f b)] else [])).
Proof.
  intros Hte. unfold checkKeys, tell, emit_ret, emit_bind.
  cbn [utf8_verifyTSM utf8_totalErrors utf8_total].
  rewrite forEach_checkKey by (assumption || apply is_int_0).
  cbn [utf8_verifyTSM f]. rewrite Z.add_0_l, app_nil_r. reflexivity.
Qed.

(** The loop over files that all open: the counters, the closers and the
    trace. *)
Lemma utf8Loop_readable d verbose fl v :
  Forall (readable d) fl ->
  is_int (utf8_totalErrors v) -> is_int (utf8_total v) ->
  exists b,
    utf8Loop d verbose fl v
    = (({| utf8_verifyTSM := b;
           utf8_totalErrors := wrap64 (utf8_totalErrors v + totalInvalidKeys d fl);
           utf8_total := wrap64 (utf8_total v + totalKeys d fl) |},
        map closeFileAndReader fl, None),
       utf8Trace d verbose fl).
Proof.
  intros Hfl. revert v.
  induction Hfl as [|p fl [r Hp] Hfl IH]; intros [b te tot] Hte Htot;
    cbn [utf8_totalErrors utf8_total] in *.
  - exists b. cbn. rewrite !Z.add_0_r, !wrap64_id by assumption. reflexivity.
  - cbn [utf8Loop utf8_verifyTSM utf8_totalErrors utf8_total].
    rewrite (tsmReader_readable _ _ _ _ Hp).
    unfold emit_bind at 1. rewrite checkKeys_eq by assumption.
    unfold emit_bind at 1.
    destruct (IH {| utf8_verifyTSM := {| files := fl; f := p |};
                    utf8_totalErrors := wrap64 (te + invalidKeys r);
                    utf8_total := int_add tot (KeyCount r) |}
                (wrap64_is_int _) (int_add_is_int _ _)) as [b' ->].
    exists b'. cbn [utf8_totalErrors utf8_total f].
    unfold emit_bind, emit_ret.
    cbn [totalInvalidKeys totalKeys utf8Trace foldr flat_map map].
    rewrite (readable_readerAt _ _ _ Hp).
    unfold int_add. rewrite !wrap64_add_l, !Z.add_assoc.
    unfold utf8FileTrace. rewrite app_nil_r, <- !app_assoc. reflexivity.
Qed.

(** The loop stops at the first file that does not open. *)
Lemma utf8Loop_abort d verbose pre p post c e v :
  Forall (readable d) pre -> openFailure d p = Some (c, e) ->
  is_int (utf8_totalErrors v) ->
  exists v',
    utf8Loop d verbose (pre ++ p :: post) v
    = ((v', map closeFileAndReader pre ++ deferCloser c, Some e),
       utf8Trace d verbose pre ++ openTrace d p).
Proof.
  intros Hpre Hp. revert v.
  induction Hpre as [|q pre [r Hq] Hpre IH]; intros [b te tot] Hte;
    cbn [utf8_totalErrors utf8_total] in *.
  - cbn [app utf8Loop utf8_verifyTSM utf8_totalErrors utf8_total].
    rewrite (tsmReader_failure _ _ _ _ _ Hp).
    unfold emit_bind, emit_ret. rewrite app_nil_r. eauto.
  - cbn [app utf8Loop utf8_verifyTSM utf8_totalErrors utf8_total].
    rewrite (tsmReader_readable _ _ _ _ Hq).
    unfold emit_bind at 1. rewrite checkKeys_eq by assumption.
    unfold emit_bind at 1.
    destruct (IH {| utf8_verifyTSM := {| files := pre ++ p :: post; f := q |};
                    utf8_totalErrors := wrap64 (te + invalidKeys r);
                    utf8_total := int_add tot (KeyCount r) |}
                (wrap64_is_int _)) as [v' ->].
    exists v'. unfold emit_bind, emit_ret. cbn [f utf8Trace flat_map map].
    rewrite (readable_readerAt _ _ _ Hq).
    unfold utf8FileTrace. rewrite app_nil_r, <- !app_assoc. reflexivity.
Qed.

End utf8_proofs.

Section Lists.
Context {A B : Type}.

Lemma Forall_flat_map_intro (P : B -> Prop) (g : A -> list B) l :
  (forall a, Forall P (g a)) -> Forall P (flat_map g l).
Proof.
  intros H. induction l as [|a l IH]; cbn; [constructor|].
  apply Forall_app; split; [apply H | exact IH].
Qed.

Lemma filter_none (p : A -> bool) l :
  Forall (fun a => p a = false) l -> List.filter p l = [].
Proof.
  induction 1 as [|a l Ha Hl IH]; cbn; [reflexivity|]. now rewrite Ha.
Qed.

Lemma filter_flat_map (p : B -> bool) (g : A -> list B) l :
  List.filter p (flat_map g l) = flat_map (fun a => List.filter p (g a)) l.
Proof.
  induction l as [|a l IH]; cbn; [reflexivity|].
  now rewrite List.filter_app, IH.
Qed.

Lemma flat_map_singleton (g : A -> B) l :
  flat_map (fun a => [g a]) l = map g l.
Proof. induction l as [|a l IH]; cbn; [reflexivity | now rewrite IH]. Qed.
End Lists.

Section Walks.

Lemma cleanWalk_dec visits : cleanWalk visits \/ ~ cleanWalk visits.
Proof.
  unfold cleanWalk. induction visits as [|[p [e|]] visits IH].
  - left. constructor.
  - right. intros H. inversion H. discriminate.
  - destruct IH as [IH|IH]; [left; now constructor|].
    right. intros H. inversion H. contradiction.
Qed.

Lemma tsm_walk_clean fls visits :
  cleanWalk visits ->
  filepath.walk verify_tsm.loadFilesFn fls visits
  = (fls ++ tsm_facts.tsmPaths visits, None).
Proof.
  unfold cleanWalk, tsm_facts.tsmPaths. intros H. revert fls.
  induction H as [|[p e] visits Hp H IH]; intros fls;
    cbn [filepath.walk verify_tsm.loadFilesFn List.filter map fst snd] in *.
  - now rewrite app_nil_r.
  - subst e. unfold verify_tsm.loadFilesFn at 1.
    destruct (String.eqb (filepath.Ext p) ("." +:+ tsm1.TSMFileExtension)).
    + rewrite IH, <- app_assoc. reflexivity.
    + apply IH.
Qed.

Lemma tsm_walk_dirty fls visits :
  ~ cleanWalk visits ->
  exists fls' e, filepath.walk verify_tsm.loadFilesFn fls visits = (fls', Some e).
Proof.
  unfold cleanWalk. revert fls.
  induction visits as [|[p [e|]] visits IH]; intros fls H;
    cbn [filepath.walk]; try unfold verify_tsm.loadFilesFn at 1.
  - exfalso. apply H. constructor.
  - eauto.
  - destruct (String.eqb (filepath.Ext p) ("." +:+ tsm1.TSMFileExtension));
      apply IH; intros H'; apply H; now constructor.
Qed.

End Walks.

Module utf8_run.
Import tsm1 verify_tsm tsm_facts utf8_proofs.

Lemma loadFiles_clean d dir :
  cleanWalk (tree d dir) ->
  loadFiles d dir {| files := []; f := "" |}
  = ({| files := tsmPaths (tree d dir); f := "" |}, None).
Proof.
  intros H. unfold loadFiles, filepath.WalkDir. cbn [files f].
  now rewrite tsm_walk_clean.
Qed.

Lemma loadFiles_dirty d dir :
  ~ cleanWalk (tree d dir) ->
  exists b e, loadFiles d dir {| files := []; f := "" |}
    = (b, Some (fmt_Errorf_w
         "could not load storage files (use -dir for custom storage root): %w" e)).
Proof.
  intros H. unfold loadFiles, filepath.WalkDir. cbn [files f].
  destruct (tsm_walk_dirty [] _ H) as (fls & e & ->). eauto.
Qed.

Lemma RunE_utf8_dirty d dir verbose :
  ~ cleanWalk (tree d dir) ->
  exists e, RunE d dir true verbose = (Some e, []).
Proof.
  intros H. unfold RunE, verifyUTF8_run, newVerifyUTF8. cbn [utf8_verifyTSM].
  destruct (loadFiles_dirty d dir H) as (b & e & ->). cbn. eauto.
Qed.

Lemma RunE_utf8_readable d dir verbose :
  cleanWalk (tree d dir) ->
  Forall (readable d) (tsmPaths (tree d dir)) ->
  RunE d dir true verbose
  = ((if wrap64 (totalInvalidKeys d (tsmPaths (tree d dir))) >? 0
      then Some (errors_New "check-utf8: failed") else None),
     utf8Trace d verbose (tsmPaths (tree d dir))
     ++ PrintInvalidKeys (wrap64 (totalInvalidKeys d (tsmPaths (tree d dir))))
                         (wrap64 (totalKeys d (tsmPaths (tree d dir))))
        :: runDeferred (map closeFileAndReader (tsmPaths (tree d dir)))).
Proof.
  intros Hw Hr. unfold RunE, verifyUTF8_run, newVerifyUTF8.
  cbn [utf8_verifyTSM utf8_totalErrors utf8_total].
  rewrite (loadFiles_clean d dir Hw). cbn [files].
  destruct (utf8Loop_readable d verbose _
              {| utf8_verifyTSM := {| files := tsmPaths (tree d dir); f := "" |};
                 utf8_totalErrors := 0; utf8_total := 0 |}
              Hr is_int_0 is_int_0) as [b ->].
  cbn [utf8_totalErrors utf8_total]. rewrite !Z.add_0_l.
  unfold emit_bind, emit_ret, tell. cbn [utf8_totalErrors utf8_total].
  destruct (wrap64 (totalInvalidKeys d (tsmPaths (tree d dir))) >? 0);
    cbn; now rewrite !app_nil_r.
Qed.

Lemma RunE_utf8_abort d dir verbose pre p post c e :
  cleanWalk (tree d dir) ->
  tsmPaths (tree d dir) = pre ++ p :: post ->
  Forall (readable d) pre -> openFailure d p = Some (c, e) ->
  RunE d dir true verbose
  = (Some e,
     utf8Trace d verbose pre ++ openTrace d p
     ++ runDeferred (map closeFileAndReader pre ++ deferCloser c)).
Proof.
  intros Hw Hfl Hpre Hp. unfold RunE, verifyUTF8_run, newVerifyUTF8.
  cbn [utf8_verifyTSM utf8_totalErrors utf8_total].
  rewrite (loadFiles_clean d dir Hw). cbn [files]. rewrite Hfl.
  destruct (utf8Loop_abort d verbose pre p post c e
              {| utf8_verifyTSM := {| files := pre ++ p :: post; f := "" |};
                 utf8_totalErrors := 0; utf8_total := 0 |}
              Hpre Hp is_int_0) as [v' ->].
  unfold emit_bind, emit_ret, tell. cbn.
  now rewrite !app_nil_r, <- app_assoc.
Qed.

End utf8_run.

Module sum_proofs.
Import tsm1 verify_tsm tsm_facts utf8_proofs utf8_run.

Lemma checkBlock_eq verbose b te tot fe cnt rd :
  checkBlock verbose
    ({| sum_verifyTSM := b; sum_totalErrors := te; sum_total := tot |}, fe, cnt) rd
  = (({| sum_verifyTSM := b;
         sum_totalErrors := if blockBad rd then int_incr te else te;
         sum_total := int_incr tot |},
      (if blockBad rd then int_incr fe else fe),
      int_incr cnt),
     blockTrace verbose (f b) cnt rd).
Proof.
  unfold checkBlock, blockTrace, blockBad, tell, emit_bind, emit_ret.
  cbn [sum_verifyTSM sum_totalErrors sum_total].
  destruct rd as [blk|err].
  - destruct (checksum blk =? crc32.ChecksumIEEE (buf blk)), verbose; reflexivity.
  - destruct verbose; reflexivity.
Qed.

Lemma forEach_checkBlock verbose b te tot fe cnt l :
  is_int te -> is_int tot -> is_int fe -> is_int cnt ->
  forEach (checkBlock verbose)
    ({| sum_verifyTSM := b; sum_totalErrors := te; sum_total := tot |}, fe, cnt) l
  = (({| sum_verifyTSM := b;
         sum_totalErrors := wrap64 (te + countIf blockBad l);
         sum_total := wrap64 (tot + Z.of_nat (length l)) |},
      wrap64 (fe + countIf blockBad l),
      wrap64 (cnt + Z.of_nat (length l))),
     blocksTrace verbose (f b) cnt l).
Proof.
  revert te tot fe cnt.
  induction l as [|rd l IH]; intros te tot fe cnt Hte Htot Hfe Hcnt.
  - rewrite countIf_nil. cbn [length forEach blocksTrace].
    change (Z.of_nat 0) with 0.
    rewrite !Z.add_0_r, !wrap64_id by assumption. reflexivity.
  - cbn [forEach blocksTrace length]. rewrite checkBlock_eq, countIf_cons.
    unfold emit_bind.
    rewrite IH; try apply int_incr_is_int;
      try (destruct (blockBad rd); [apply int_incr_is_int | assumption]).
    rewrite Nat2Z.inj_succ, <- Z.add_1_l.
    destruct (blockBad rd); rewrite !wrap64_incr_add, ?Z.add_0_l; reflexivity.
Qed.

Lemma checkBlocks_eq verbose r b te tot :
  is_int te -> is_int tot ->
  checkBlocks verbose r
    {| sum_verifyTSM := b; sum_totalErrors := te; sum_total := tot |}
  = ({| sum_verifyTSM := b;
        sum_totalErrors := wrap64 (te + countIf blockBad (blocks r));
        sum_total := wrap64 (tot + Z.of_nat (length (blocks r))) |},
     [CallBlockIterator (f b)]
     ++ blocksTrace verbose (f b) 0 (blocks r)
     ++ [CallNext (f b)]
     ++ (if (wrap64 (countIf blockBad (blocks r)) =? 0) && verbose
         then [PrintHealthy (f b)] else [])).
Proof.
  intros Hte Htot. unfold checkBlocks, tell, emit_ret, emit_bind.
  cbn [sum_verifyTSM].
  rewrite forEach_checkBlock by (assumption || apply is_int_0).
  rewrite Z.add_0_l, app_nil_r. reflexivity.
Qed.

Lemma allBlocks_cons d p fl :
  allBlocks d (p :: fl) = blocks (readerAt d p) ++ allBlocks d fl.
Proof. reflexivity. Qed.

Lemma sumLoop_readable d verbose fl v :
  Forall (readable d) fl ->
  is_int (sum_totalErrors v) -> is_int (sum_total v) ->
  exists b,
    sumLoop d verbose fl v
    = (({| sum_verifyTSM := b;
           sum_totalErrors :=
             wrap64 (sum_totalErrors v + countIf blockBad (allBlocks d fl));
           sum_total :=
             wrap64 (sum_total v + Z.of_nat (length (allBlocks d fl))) |},
        map closeFileAndReader fl, None),
       sumTrace d verbose fl).
Proof.
  intros Hfl. revert v.
  induction Hfl as [|p fl [r Hp] Hfl IH]; intros [b te tot] Hte Htot;
    cbn [sum_totalErrors sum_total] in *.
  - exists b. cbn [sumLoop allBlocks flat_map sumTrace map length].
    rewrite countIf_nil. change (Z.of_nat 0) with 0.
    rewrite !Z.add_0_r, !wrap64_id by assumption. reflexivity.
  - cbn [sumLoop sum_verifyTSM sum_totalErrors sum_total].
    rewrite (tsmReader_readable _ _ _ _ Hp).
    unfold emit_bind at 1. rewrite checkBlocks_eq by assumption.
    unfold emit_bind at 1.
    destruct (IH {| sum_verifyTSM := {| files := fl; f := p |};
                    sum_totalErrors := wrap64 (te + countIf blockBad (blocks r));
                    sum_total := wrap64 (tot + Z.of_nat (length (blocks r))) |}
                (wrap64_is_int _) (wrap64_is_int _)) as [b' ->].
    exists b'. cbn [sum_totalErrors sum_total f].
    unfold emit_bind, emit_ret.
    rewrite allBlocks_cons, countIf_app, length_app, Nat2Z.inj_add.
    cbn [sumTrace flat_map map].
    rewrite (readable_readerAt _ _ _ Hp).
    rewrite !wrap64_add_l, !Z.add_assoc.
    unfold sumFileTrace. rewrite app_nil_r, <- !app_assoc. reflexivity.
Qed.

Lemma sumLoop_abort d verbose pre p post c e v :
  Forall (readable d) pre -> openFailure d p = Some (c, e) ->
  is_int (sum_totalErrors v) -> is_int (sum_total v) ->
  exists v',
    sumLoop d verbose (pre ++ p :: post) v
    = ((v', map closeFileAndReader pre ++ deferCloser c, Some e),
       sumTrace d verbose pre ++ openTrace d p).
Proof.
  intros Hpre Hp. revert v.
  induction Hpre as [|q pre [r Hq] Hpre IH]; intros [b te tot] Hte Htot;
    cbn [sum_totalErrors sum_total] in *.
  - cbn [app sumLoop sum_verifyTSM sum_totalErrors sum_total].
    rewrite (tsmReader_failure _ _ _ _ _ Hp).
    unfold emit_bind, emit_ret. rewrite app_nil_r. eauto.
  - cbn [app sumLoop sum_verifyTSM sum_totalErrors sum_total].
    rewrite (tsmReader_readable _ _ _ _ Hq).
    unfold emit_bind at 1. rewrite checkBlocks_eq by assumption.
    unfold emit_bind at 1.
    destruct (IH {| sum_verifyTSM := {| files := pre ++ p :: post; f := q |};
                    sum_totalErrors := wrap64 (te + countIf blockBad (blocks r));
                    sum_total := wrap64 (tot + Z.of_nat (length (blocks r))) |}
                (wrap64_is_int _) (wrap64_is_int _)) as [v' ->].
    exists v'. unfold emit_bind, emit_ret. cbn [f sumTrace flat_map map].
    rewrite (readable_readerAt _ _ _ Hq).
    unfold sumFileTrace. rewrite app_nil_r, <- !app_assoc. reflexivity.
Qed.

Lemma RunE_sum_dirty d dir verbose :
  ~ cleanWalk (tree d dir) ->
  exists e, RunE d dir false verbose = (Some e, []).
Proof.
  intros H. unfold RunE, verifyChecksums_run, newVerifyChecksums.
  cbn [sum_verifyTSM].
  destruct (loadFiles_dirty d dir H) as (b & e & ->). cbn. eauto.
Qed.

Lemma RunE_sum_readable d dir verbose :
  cleanWalk (tree d dir) ->
  Forall (readable d) (tsmPaths (tree d dir)) ->
  RunE d dir false verbose
  = (None,
     sumTrace d verbose (tsmPaths (tree d dir))
     ++ PrintBrokenBlocks
          (wrap64 (countIf blockBad (allBlocks d (tsmPaths (tree d dir)))))
          (wrap64 (Z.of_nat (length (allBlocks d (tsmPaths (tree d dir))))))
        :: runDeferred (map closeFileAndReader (tsmPaths (tree d dir)))).
Proof.
  intros Hw Hr. unfold RunE, verifyChecksums_run, newVerifyChecksums.
  cbn [sum_verifyTSM sum_totalErrors sum_total].
  rewrite (loadFiles_clean d dir Hw). cbn [files].
  destruct (sumLoop_readable d verbose _
              {| sum_verifyTSM := {| files := tsmPaths (tree d dir); f := "" |};
                 sum_totalErrors := 0; sum_total := 0 |}
              Hr is_int_0 is_int_0) as [b ->].
  cbn [sum_totalErrors sum_total]. rewrite !Z.add_0_l.
  unfold emit_bind, emit_ret, tell. cbn [sum_totalErrors sum_total].
  cbn. now rewrite !app_nil_r.
Qed.

Lemma RunE_sum_abort d dir verbose pre p post c e :
  cleanWalk (tree d dir) ->
  tsmPaths (tree d dir) = pre ++ p :: post ->
  Forall (readable d) pre -> openFailure d p = Some (c, e) ->
  RunE d dir false verbose
  = (Some e,
     sumTrace d verbose pre ++ openTrace d p
     ++ runDeferred (map closeFileAndReader pre ++ deferCloser c)).
Proof.
  intros Hw Hfl Hpre Hp. unfold RunE, verifyChecksums_run, newVerifyChecksums.
  cbn [sum_verifyTSM sum_totalErrors sum_total].
  rewrite (loadFiles_clean d dir Hw). cbn [files]. rewrite Hfl.
  destruct (sumLoop_abort d verbose pre p post c e
              {| sum_verifyTSM := {| files := pre ++ p :: post; f := "" |};
                 sum_totalErrors := 0; sum_total := 0 |}
              Hpre Hp is_int_0 is_int_0) as [v' ->].
  unfold emit_bind, emit_ret, tell. cbn.
  now rewrite !app_nil_r, <- app_assoc.
Qed.

End sum_proofs.

Module loops_are_next.
Import tsm1.

(** The bodies of the loops leave [v.files] and [v.f] alone, so the
    recursion on the pending files is the loop over [next]. *)
Lemma forEach_checkKey_base verbose r l v fe :
  verify_tsm.utf8_verifyTSM
    (forEach (verify_tsm.checkKey verbose r) (v, fe) l).1.1
  = verify_tsm.utf8_verifyTSM v.
Proof.
  revert v fe. induction l as [|i l IH]; intros v fe; [reflexivity|].
  cbn [forEach]. unfold emit_bind.
  destruct (verify_tsm.checkKey verbose r (v, fe) i) as [[v1 fe1] ev1] eqn:E.
  specialize (IH v1 fe1).
  destruct (forEach (verify_tsm.checkKey verbose r) (v1, fe1) l) as [[v2 fe2] ev2].
  cbn [fst] in *. rewrite IH.
  unfold verify_tsm.checkKey in E. destruct (KeyAt r i) as [key t].
  destruct (negb (utf8.Valid key)); inversion E; reflexivity.
Qed.

Lemma checkKeys_base verbose r v :
  verify_tsm.utf8_verifyTSM (verify_tsm.checkKeys verbose r v).1
  = verify_tsm.utf8_verifyTSM v.
Proof.
  unfold verify_tsm.checkKeys, tell, emit_bind, emit_ret.
  pose proof (forEach_checkKey_base verbose r (seqZ 0 (KeyCount r))
                {| verify_tsm.utf8_verifyTSM := verify_tsm.utf8_verifyTSM v;
                   verify_tsm.utf8_totalErrors := verify_tsm.utf8_totalErrors v;
                   verify_tsm.utf8_total :=
                     int_add (verify_tsm.utf8_total v) (KeyCount r) |} 0) as H.
  destruct (forEach _ _ _) as [[v2 fe2] ev2]. exact H.
Qed.

Lemma utf8Loop_next d verbose v :
  verify_tsm.utf8Loop d verbose (verify_tsm.files (verify_tsm.utf8_verifyTSM v)) v
  = match verify_tsm.next (verify_tsm.utf8_verifyTSM v) with
    | (_, false) => emit_ret (v, [], None)
    | (b, true) =>
      let v0 := {| verify_tsm.utf8_verifyTSM := b;
                   verify_tsm.utf8_totalErrors := verify_tsm.utf8_totalErrors v;
                   verify_tsm.utf8_total := verify_tsm.utf8_total v |} in
      let* o := verify_tsm.tsmReader d b in
      match o with
      | verify_tsm.openedErr c err =>
        emit_ret (v0, verify_tsm.deferCloser c, Some err)
      | verify_tsm.openedOk reader c =>
        let* v1 := verify_tsm.checkKeys verbose reader v0 in
        let* (v2, deferred, err)
          := verify_tsm.utf8Loop d verbose
               (verify_tsm.files (verify_tsm.utf8_verifyTSM v1)) v1 in
        emit_ret (v2, c :: deferred, err)
      end
    end.
Proof.
  unfold verify_tsm.next.
  destruct (verify_tsm.files (verify_tsm.utf8_verifyTSM v)) as [|f0 rest];
    [reflexivity|].
  cbn [verify_tsm.utf8Loop verify_tsm.utf8_verifyTSM].
  unfold emit_bind. cbv beta zeta.
  destruct (verify_tsm.tsmReader d _) as [[r c|c err] ev]; [|reflexivity].
  pose proof (checkKeys_base verbose r
                {| verify_tsm.utf8_verifyTSM :=
                     {| verify_tsm.files := rest; verify_tsm.f := f0 |};
                   verify_tsm.utf8_totalErrors := verify_tsm.utf8_totalErrors v;
                   verify_tsm.utf8_total := verify_tsm.utf8_total v |}) as B.
  destruct (verify_tsm.checkKeys verbose r _) as [v1 ev1].
  cbn [fst verify_tsm.utf8_verifyTSM] in B.
  rewrite B. reflexivity.
Qed.

Lemma forEach_checkBlock_base verbose l v fe cnt :
  verify_tsm.sum_verifyTSM
    (forEach (verify_tsm.checkBlock verbose) (v, fe, cnt) l).1.1.1
  = verify_tsm.sum_verifyTSM v.
Proof.
  revert v fe cnt. induction l as [|rd l IH]; intros v fe cnt; [reflexivity|].
  cbn [forEach]. unfold emit_bind.
  destruct (verify_tsm.checkBlock verbose (v, fe, cnt) rd)
    as [[[v1 fe1] cnt1] ev1] eqn:E.
  specialize (IH v1 fe1 cnt1).
  destruct (forEach (verify_tsm.checkBlock verbose) (v1, fe1, cnt1) l)
    as [[[v2 fe2] cnt2] ev2].
  cbn [fst] in *. rewrite IH. destruct v as [b te tot].
  rewrite sum_proofs.checkBlock_eq in E. inversion E. reflexivity.
Qed.

Lemma checkBlocks_base verbose r v :
  verify_tsm.sum_verifyTSM (verify_tsm.checkBlocks verbose r v).1
  = verify_tsm.sum_verifyTSM v.
Proof.
  unfold verify_tsm.checkBlocks, tell, emit_bind, emit_ret.
  pose proof (forEach_checkBlock_base verbose (blocks r) v 0 0) as H.
  destruct (forEach _ _ _) as [[[v2 fe2] cnt2] ev2]. exact H.
Qed.

Lemma sumLoop_next d verbose v :
  verify_tsm.sumLoop d verbose (verify_tsm.files (verify_tsm.sum_verifyTSM v)) v
  = match verify_tsm.next (verify_tsm.sum_verifyTSM v) with
    | (_, false) => emit_ret (v, [], None)
    | (b, true) =>
      let v0 := {| verify_tsm.sum_verifyTSM := b;
                   verify_tsm.sum_totalErrors := verify_tsm.sum_totalErrors v;
                   verify_tsm.sum_total := verify_tsm.sum_total v |} in
      let* o := verify_tsm.tsmReader d b in
      match o with
      | verify_tsm.openedErr c err =>
        emit_ret (v0, verify_tsm.deferCloser c, Some err)
      | verify_tsm.openedOk reader c =>
        let* v1 := verify_tsm.checkBlocks verbose reader v0 in
        let* (v2, deferred, err)
          := verify_tsm.sumLoop d verbose
               (verify_tsm.files (verify_tsm.sum_verifyTSM v1)) v1 in
        emit_ret (v2, c :: deferred, err)
      end
    end.
Proof.
  unfold verify_tsm.next.
  destruct (verify_tsm.files (verify_tsm.sum_verifyTSM v)) as [|f0 rest];
    [reflexivity|].
  cbn [verify_tsm.sumLoop verify_tsm.sum_verifyTSM].
  unfold emit_bind. cbv beta zeta.
  destruct (verify_tsm.tsmReader d _) as [[r c|c err] ev]; [|reflexivity].
  pose proof (checkBlocks_base verbose r
                {| verify_tsm.sum_verifyTSM :=
                     {| verify_tsm.files := rest; verify_tsm.f := f0 |};
                   verify_tsm.sum_totalErrors := verify_tsm.sum_totalErrors v;
                   verify_tsm.sum_total := verify_tsm.sum_total v |}) as B.
  destruct (verify_tsm.checkBlocks verbose r _) as [v1 ev1].
  cbn [fst verify_tsm.sum_verifyTSM] in B.
  rewrite B. reflexivity.
Qed.

Lemma tombstone_loop_next d v failed found :
  verify_tombstone.loop d (verify_tombstone.files v) v failed found
  = match verify_tombstone.next v with
    | (_, false) => emit_ret (v, failed, found)
    | (v0, true) =>
      let* failed1 := verify_tombstone.verifyFile d v0 failed in
      verify_tombstone.loop d (verify_tombstone.files v0) v0 failed1 true
    end.
Proof.
  unfold verify_tombstone.next.
  destruct (verify_tombstone.files v) as [|f0 rest]; reflexivity.
Qed.

End loops_are_next.

(** ** [verify-tsm]: the traces *)

Module trace_proofs.
Import tsm1 verify_tsm tsm_facts utf8_proofs utf8_run sum_proofs.

Ltac split_trace :=
  repeat first
    [ apply Forall_nil_2
    | apply Forall_cons_2; [try reflexivity|]
    | apply Forall_app_2
    | apply Forall_flat_map_intro; intro
    | match goal with
      | |- Forall _ (if ?c then _ else _) => destruct c
      end ].

Lemma keyTrace_events verbose p r i :
  Forall (utf8Event p) (keyTrace verbose p r i).
Proof. unfold keyTrace. split_trace. Qed.

Lemma utf8FileTrace_events verbose p r :
  Forall (utf8Event p) (utf8FileTrace verbose p r).
Proof.
  unfold utf8FileTrace. split_trace.
Qed.

Lemma blocksTrace_events verbose p cnt l :
  Forall (sumEvent p) (blocksTrace verbose p cnt l).
Proof.
  revert cnt. induction l as [|rd l IH]; intros cnt; cbn [blocksTrace];
    split_trace; [|apply IH].
  unfold blockTrace. split_trace. destruct rd as [b|e]; split_trace.
Qed.

Lemma sumFileTrace_events verbose p r :
  Forall (sumEvent p) (sumFileTrace verbose p r).
Proof.
  unfold sumFileTrace.
  repeat (apply Forall_cons_2; [reflexivity|]). cbn [app].
  repeat (apply Forall_cons_2; [reflexivity|]).
  apply Forall_app_2; [apply blocksTrace_events | split_trace].
Qed.

Lemma openTrace_events d p :
  Forall (fun e => utf8Event p e /\ sumEvent p e) (openTrace d p).
Proof.
  unfold openTrace.
  destruct (content d !! p) as [[e|e|r]|]; split_trace; now split.
Qed.

Lemma Forall_over_files {A} (P : string -> A -> Prop) (g : string -> list A) fl :
  (forall p, Forall (P p) (g p)) ->
  Forall (fun e => exists p, In p fl /\ P p e) (flat_map g fl).
Proof.
  intros H. induction fl as [|q fl IH]; cbn [flat_map]; [constructor|].
  apply Forall_app_2.
  - eapply Forall_impl; [apply H|]. intros e He. exists q. split; [now left | exact He].
  - eapply Forall_impl; [apply IH|]. intros e (p & Hp & He).
    exists p. split; [now right | exact He].
Qed.

Lemma utf8Trace_events d verbose fl :
  Forall (fun e => exists p, In p fl /\ utf8Event p e) (utf8Trace d verbose fl).
Proof.
  unfold utf8Trace.
  apply (Forall_over_files utf8Event (fun p => utf8FileTrace verbose p (readerAt d p))).
  intros p. apply utf8FileTrace_events.
Qed.

Lemma sumTrace_events d verbose fl :
  Forall (fun e => exists p, In p fl /\ sumEvent p e) (sumTrace d verbose fl).
Proof.
  unfold sumTrace.
  apply (Forall_over_files sumEvent (fun p => sumFileTrace verbose p (readerAt d p))).
  intros p. apply sumFileTrace_events.
Qed.

Lemma runDeferred_events cs :
  Forall (fun e => exists p, In p (map closerFile cs) /\ closeEvent p e)
         (runDeferred cs).
Proof.
  unfold runDeferred.
  assert (H : forall l, Forall (fun e => exists p, In p (map closerFile l) /\ closeEvent p e)
                          (flat_map runCloser l)).
  { induction l as [|c l IH]; cbn [flat_map map]; [constructor|].
    apply Forall_app_2.
    - destruct c as [q|q]; split_trace; exists q; (split; [now left | reflexivity]).
    - eapply Forall_impl; [apply IH|]. intros e (p & Hp & He).
      exists p. split; [now right | exact He]. }
  eapply Forall_impl; [apply H|]. intros e (p & Hp & He). exists p. split; [|exact He].
  rewrite map_rev in Hp. now apply in_rev in Hp.
Qed.

(** What the kinds of events exclude. *)
Lemma utf8Event_kind p e :
  utf8Event p e ->
  isSummary e = false /\ isBlockCall e = false /\ isBlockReport e = false
  /\ eventFile e = Some p.
Proof. destruct e; cbn; intros H; try contradiction; subst; auto. Qed.

Lemma sumEvent_kind p e :
  sumEvent p e ->
  isSummary e = false /\ isIndexCall e = false /\ isKeyAt e = false
  /\ eventFile e = Some p.
Proof. destruct e; cbn; intros H; try contradiction; subst; auto. Qed.

Lemma closeEvent_kind p e :
  closeEvent p e ->
  isSummary e = false /\ isBlockCall e = false /\ isIndexCall e = false
  /\ isKeyAt e = false /\ isBlockReport e = false /\ eventFile e = Some p.
Proof. destruct e; cbn; intros H; try contradiction; subst; auto 10. Qed.

Lemma closers_of_readable fl :
  map closerFile (map closeFileAndReader fl) = fl.
Proof. induction fl as [|p fl IH]; cbn; [reflexivity | now rewrite IH]. Qed.

End trace_proofs.

(** ** [verify-tsm]: the properties *)

Module tsm_props.
Import tsm1 verify_tsm tsm_facts utf8_proofs utf8_run sum_proofs trace_proofs.

Lemma no_summary_in_sumTrace d verbose fl :
  List.filter isSummary (sumTrace d verbose fl) = [].
Proof.
  apply filter_none. eapply Forall_impl; [apply sumTrace_events|].
  intros e (p & _ & He). now apply sumEvent_kind in He.
Qed.

Lemma no_summary_in_utf8Trace d verbose fl :
  List.filter isSummary (utf8Trace d verbose fl) = [].
Proof.
  apply filter_none. eapply Forall_impl; [apply utf8Trace_events|].
  intros e (p & _ & He). now apply utf8Event_kind in He.
Qed.

Lemma no_summary_in_runDeferred cs :
  List.filter isSummary (runDeferred cs) = [].
Proof.
  apply filter_none. eapply Forall_impl; [apply runDeferred_events|].
  intros e (p & _ & He). now apply closeEvent_kind in He.
Qed.

Lemma no_summary_in_openTrace d p :
  List.filter isSummary (openTrace d p) = [].
Proof.
  apply filter_none. eapply Forall_impl; [apply openTrace_events|].
  intros e [He _]. now apply utf8Event_kind in He.
Qed.

Lemma countIf_blockBad_small l :
  Z.of_nat (length l) < 2 ^ 63 ->
  wrap64 (countIf blockBad l) = countIf blockBad l
  /\ wrap64 (Z.of_nat (length l)) = Z.of_nat (length l).
Proof.
  intros H. pose proof (countIf_bounds blockBad l).
  split; apply wrap64_small; lia.
Qed.

Lemma sum_summary d dir verbose :
  cleanWalk (tree d dir) ->
  Forall (readable d) (tsmPaths (tree d dir)) ->
  Z.of_nat (length (allBlocks d (tsmPaths (tree d dir)))) < 2 ^ 63 ->
  List.filter isSummary (RunE d dir false verbose).2
  = [PrintBrokenBlocks
       (countIf blockBad (allBlocks d (tsmPaths (tree d dir))))
       (Z.of_nat (length (allBlocks d (tsmPaths (tree d dir)))))].
Proof.
  intros Hw Hr Hn. rewrite (RunE_sum_readable d dir verbose Hw Hr). cbn [snd].
  destruct (countIf_blockBad_small _ Hn) as [-> ->].
  rewrite List.filter_app, no_summary_in_sumTrace. cbn [List.filter isSummary app].
  now rewrite no_summary_in_runDeferred.
Qed.

(** C2. In the default mode, when the directory is walked and every TSM
    file found opens, the one summary line printed reports as total the
    number of blocks the block iterators of all files yield and as bad
    the number of those blocks whose read fails or whose checksum,
    recomputed by [crc32.ChecksumIEEE] over the raw bytes, differs from
    the stored one; the run never enumerates the index and touches the
    payload through [Next] and [Read] only. *)
Theorem broken_blocks_counts d dir verbose :
  cleanWalk (tree d dir) ->
  Forall (readable d) (tsmPaths (tree d dir)) ->
  Z.of_nat (length (allBlocks d (tsmPaths (tree d dir)))) < 2 ^ 63 ->
  List.filter isSummary (RunE d dir false verbose).2
  = [PrintBrokenBlocks
       (countIf blockBad (allBlocks d (tsmPaths (tree d dir))))
       (Z.of_nat (length (allBlocks d (tsmPaths (tree d dir)))))]
  /\ Forall (fun e => isIndexCall e = false) (RunE d dir false verbose).2.
Proof.
  intros Hw Hr Hn. split; [now apply sum_summary|].
  rewrite (RunE_sum_readable d dir verbose Hw Hr). cbn [snd].
  apply Forall_app_2; [|apply Forall_cons_2; [reflexivity|]].
  - eapply Forall_impl; [apply sumTrace_events|].
    intros e (p & _ & He). now apply sumEvent_kind in He.
  - eapply Forall_impl; [apply runDeferred_events|].
    intros e (p & _ & He). now apply closeEvent_kind in He.
Qed.

Lemma broken_blocks_counts_witness :
  List.filter isSummary (RunE samples.flippedDisk "/data" false true).2
  = [PrintBrokenBlocks 1 7]
  /\ Forall (fun e => isIndexCall e = false)
       (RunE samples.flippedDisk "/data" false true).2.
Proof.
  apply (broken_blocks_counts samples.flippedDisk "/data" true).
  - repeat constructor.
  - repeat constructor; eexists; reflexivity.
  - vm_compute. reflexivity.
Defined.

(** C1, at the failing input. On a directory with one TSM file whose
    only block has a corrupted stored checksum, the default mode counts
    the block as broken, prints "Broken Blocks: 1 / 1", and returns a nil
    error: the exit status is zero. *)
Theorem corrupt_block_exits_zero :
  countIf blockBad (allBlocks samples.corruptDisk
                      (tsmPaths (tree samples.corruptDisk "/data"))) = 1
  /\ In (PrintBrokenBlocks 1 1) (RunE samples.corruptDisk "/data" false false).2
  /\ (RunE samples.corruptDisk "/data" false false).1 = None
  /\ exitStatus (RunE samples.corruptDisk "/data" false false).1 = 0.
Proof.
  repeat split; try (vm_compute; reflexivity).
  vm_compute. tauto.
Qed.

(** The default mode returns a nil error whatever number of blocks is
    broken, as long as the files open. *)
Lemma checksums_exit_zero d dir verbose :
  cleanWalk (tree d dir) ->
  Forall (readable d) (tsmPaths (tree d dir)) ->
  (RunE d dir false verbose).1 = None.
Proof. intros Hw Hr. now rewrite (RunE_sum_readable d dir verbose Hw Hr). Qed.


Lemma files_of_trace_prefix pre p l :
  Forall (fun e => exists q, In q pre /\ eventFile e = Some q) l ->
  Forall (fun e => exists q, In q (pre ++ [p]) /\ eventFile e = Some q) l.
Proof.
  intros H. eapply Forall_impl; [exact H|].
  intros e (q & Hq & He). exists q. split; [|exact He].
  apply in_or_app. now left.
Qed.

Lemma deferCloser_file d p c e :
  openFailure d p = Some (c, e) ->
  forall q, In q (map closerFile (deferCloser c)) -> q = p.
Proof.
  unfold openFailure.
  destruct (content d !! p) as [[e'|e'|r]|]; intros H; inversion H; subst;
    cbn; intros q; tauto || (intros [<-|[]]; reflexivity).
Qed.

(** C10. In both modes, when the file at [p] is the first of the TSM
    files found that cannot be opened or parsed, the run returns that
    error at once: what it did is verifying the files before [p], trying
    to open [p], and running the deferred closers; every event is about
    one of these files, none about a file found after [p]; and no summary
    line is printed. The blocks of the files before [p] are all read and
    their checksum errors only counted. *)
Theorem unreadable_file_aborts d dir checkUTF8 verbose pre p post c e :
  cleanWalk (tree d dir) ->
  tsmPaths (tree d dir) = pre ++ p :: post ->
  Forall (readable d) pre ->
  openFailure d p = Some (c, e) ->
  (RunE d dir checkUTF8 verbose).1 = Some e
  /\ (RunE d dir checkUTF8 verbose).2
     = (if checkUTF8 then utf8Trace d verbose pre else sumTrace d verbose pre)
       ++ openTrace d p
       ++ runDeferred (map closeFileAndReader pre ++ deferCloser c)
  /\ List.filter isSummary (RunE d dir checkUTF8 verbose).2 = []
  /\ Forall (fun ev => exists q, In q (pre ++ [p]) /\ eventFile ev = Some q)
       (RunE d dir checkUTF8 verbose).2.
Proof.
  intros Hw Hfl Hpre Hp.
  assert (Hclose : Forall (fun ev => exists q, In q (pre ++ [p]) /\ eventFile ev = Some q)
                     (runDeferred (map closeFileAndReader pre ++ deferCloser c))).
  { eapply Forall_impl; [apply runDeferred_events|].
    intros ev (q & Hq & He). exists q. split; [|now apply closeEvent_kind in He].
    rewrite map_app, closers_of_readable in Hq.
    apply in_app_or in Hq as [Hq|Hq]; apply in_or_app; [now left | right].
    left. symmetry. eapply deferCloser_file; eassumption. }
  assert (Hopen : Forall (fun ev => exists q, In q (pre ++ [p]) /\ eventFile ev = Some q)
                    (openTrace d p)).
  { eapply Forall_impl; [apply openTrace_events|].
    intros ev [He _]. exists p. split; [|now apply utf8Event_kind in He].
    apply in_or_app. right. now left. }
  destruct checkUTF8.
  - rewrite (RunE_utf8_abort d dir verbose pre p post c e Hw Hfl Hpre Hp).
    cbn [fst snd]. repeat split.
    + rewrite !List.filter_app, no_summary_in_utf8Trace,
        no_summary_in_openTrace, no_summary_in_runDeferred. reflexivity.
    + repeat apply Forall_app_2; [|exact Hopen|exact Hclose].
      apply files_of_trace_prefix.
      eapply Forall_impl; [apply utf8Trace_events|].
      intros ev (q & Hq & He). exists q. split; [exact Hq|].
      now apply utf8Event_kind in He.
  - rewrite (RunE_sum_abort d dir verbose pre p post c e Hw Hfl Hpre Hp).
    cbn [fst snd]. repeat split.
    + rewrite !List.filter_app, no_summary_in_sumTrace,
        no_summary_in_openTrace, no_summary_in_runDeferred. reflexivity.
    + repeat apply Forall_app_2; [|exact Hopen|exact Hclose].
      apply files_of_trace_prefix.
      eapply Forall_impl; [apply sumTrace_events|].
      intros ev (q & Hq & He). exists q. split; [exact Hq|].
      now apply sumEvent_kind in He.
Qed.

Lemma unreadable_file_aborts_witness :
  (RunE samples.mixedDisk "/data" false true).1
  = Some (errors_New "init: error reading magic number of file")
  /\ (RunE samples.mixedDisk "/data" false true).2
     = sumTrace samples.mixedDisk true ["/data/a.tsm"]
       ++ openTrace samples.mixedDisk "/data/b.tsm"
       ++ runDeferred (map closeFileAndReader ["/data/a.tsm"]
                       ++ deferCloser (Some (closeFile "/data/b.tsm")))
  /\ List.filter isSummary (RunE samples.mixedDisk "/data" false true).2 = []
  /\ Forall (fun ev => exists q, In q (["/data/a.tsm"] ++ ["/data/b.tsm"])
                                /\ eventFile ev = Some q)
       (RunE samples.mixedDisk "/data" false true).2.
Proof.
  apply (unreadable_file_aborts samples.mixedDisk "/data" false true
           ["/data/a.tsm"] "/data/b.tsm" ["/data/c.tsm"]).
  - repeat constructor.
  - vm_compute. reflexivity.
  - repeat constructor. eexists. reflexivity.
  - vm_compute. reflexivity.
Defined.

End tsm_props.

Module utf8_props.
Import tsm1 verify_tsm tsm_facts utf8_proofs utf8_run sum_proofs trace_proofs tsm_props.

Lemma KeyCount_nonneg r : 0 <= KeyCount r.
Proof. unfold KeyCount. lia. Qed.

Lemma invalidKeys_bounds r : 0 <= invalidKeys r <= KeyCount r.
Proof.
  unfold invalidKeys.
  pose proof (countIf_bounds (keyInvalid r) (seqZ 0 (KeyCount r))) as B.
  rewrite length_seqZ in B. pose proof (KeyCount_nonneg r). lia.
Qed.

Lemma totalInvalidKeys_bounds d fl :
  0 <= totalInvalidKeys d fl <= totalKeys d fl.
Proof.
  induction fl as [|p fl IH]; cbn [totalInvalidKeys totalKeys foldr]; [lia|].
  pose proof (invalidKeys_bounds (readerAt d p)).
  unfold totalInvalidKeys, totalKeys in IH. lia.
Qed.

Lemma invalidKeys_pos r :
  0 < invalidKeys r
  <-> exists i, 0 <= i < KeyCount r /\ keyInvalid r i = true.
Proof.
  unfold invalidKeys. rewrite countIf_pos. split.
  - intros (i & Hi & Hk). exists i. split; [|exact Hk].
    apply list_elem_of_In, elem_of_seqZ in Hi. lia.
  - intros (i & Hi & Hk). exists i. split; [|exact Hk].
    apply list_elem_of_In, elem_of_seqZ. lia.
Qed.

Lemma totalInvalidKeys_pos d fl :
  0 < totalInvalidKeys d fl <-> someKeyInvalid d fl.
Proof.
  unfold someKeyInvalid.
  induction fl as [|p fl IH]; cbn [totalInvalidKeys foldr].
  - split; [lia | intros (p & i & [] & _)].
  - pose proof (invalidKeys_bounds (readerAt d p)) as B.
    pose proof (totalInvalidKeys_bounds d fl) as B'.
    unfold totalInvalidKeys in IH, B'. split.
    + intros H.
      destruct (Z.eq_dec (invalidKeys (readerAt d p)) 0) as [E|E].
      * assert (H' : 0 < foldr (fun p acc => invalidKeys (readerAt d p) + acc) 0 fl) by lia.
        apply IH in H' as (q & i & Hq & Hi). exists q, i. split; [now right | exact Hi].
      * assert (H' : 0 < invalidKeys (readerAt d p)) by lia.
        apply invalidKeys_pos in H' as (i & Hi). exists p, i. split; [now left | exact Hi].
    + intros (q & i & [<-|Hq] & Hi).
      * assert (0 < invalidKeys (readerAt d p)) by (apply invalidKeys_pos; eauto). lia.
      * assert (0 < foldr (fun p acc => invalidKeys (readerAt d p) + acc) 0 fl)
          by (apply IH; eauto). lia.
Qed.

Lemma keyAt_calls_of_file verbose p r :
  List.filter isKeyAt (utf8FileTrace verbose p r)
  = map (CallKeyAt p) (seqZ 0 (KeyCount r)).
Proof.
  unfold utf8FileTrace. cbn [app List.filter isKeyAt].
  rewrite List.filter_app, filter_flat_map.
  replace (List.filter isKeyAt
             (if (wrap64 (invalidKeys r) =? 0) && verbose
              then [PrintHealthy p] else [])) with (@nil Event)
    by (destruct ((wrap64 (invalidKeys r) =? 0) && verbose); reflexivity).
  rewrite app_nil_r, <- flat_map_singleton.
  apply flat_map_ext. intros i. unfold keyTrace.
  destruct (keyInvalid r i && verbose); reflexivity.
Qed.

Lemma keyAt_calls d verbose fl :
  List.filter isKeyAt (utf8Trace d verbose fl)
  = flat_map (fun p => map (CallKeyAt p) (seqZ 0 (KeyCount (readerAt d p)))) fl.
Proof.
  unfold utf8Trace. rewrite filter_flat_map.
  apply flat_map_ext. intros p. apply keyAt_calls_of_file.
Qed.

(** C4. In [--check-utf8] mode, when the directory is walked and every
    TSM file found opens, [KeyAt] is called exactly once for each index
    from 0 to [KeyCount - 1] of each file, in order; the one summary line
    reports as total the sum of [KeyCount] over the files and as bad the
    number of (file, index) pairs whose key is not valid UTF-8; and no
    block iterator is created or advanced and no block is read. *)
Theorem keys_enumerated_once d dir verbose :
  cleanWalk (tree d dir) ->
  Forall (readable d) (tsmPaths (tree d dir)) ->
  totalKeys d (tsmPaths (tree d dir)) < 2 ^ 63 ->
  List.filter isKeyAt (RunE d dir true verbose).2
  = flat_map (fun p => map (CallKeyAt p) (seqZ 0 (KeyCount (readerAt d p))))
             (tsmPaths (tree d dir))
  /\ List.filter isSummary (RunE d dir true verbose).2
     = [PrintInvalidKeys (totalInvalidKeys d (tsmPaths (tree d dir)))
                         (totalKeys d (tsmPaths (tree d dir)))]
  /\ Forall (fun e => isBlockCall e = false) (RunE d dir true verbose).2.
Proof.
  intros Hw Hr Hn. rewrite (RunE_utf8_readable d dir verbose Hw Hr). cbn [snd].
  pose proof (totalInvalidKeys_bounds d (tsmPaths (tree d dir))) as B.
  rewrite !wrap64_small by lia. repeat split.
  - rewrite List.filter_app, keyAt_calls. cbn [List.filter isKeyAt].
    rewrite (filter_none isKeyAt (runDeferred _)); [apply app_nil_r|].
    eapply Forall_impl; [apply runDeferred_events|].
    intros e (p & _ & He). now apply closeEvent_kind in He.
  - rewrite List.filter_app, no_summary_in_utf8Trace.
    cbn [List.filter isSummary app]. now rewrite no_summary_in_runDeferred.
  - apply Forall_app_2; [|apply Forall_cons_2; [reflexivity|]].
    + eapply Forall_impl; [apply utf8Trace_events|].
      intros e (p & _ & He). now apply utf8Event_kind in He.
    + eapply Forall_impl; [apply runDeferred_events|].
      intros e (p & _ & He). now apply closeEvent_kind in He.
Qed.

Lemma keys_enumerated_once_witness :
  List.filter isKeyAt (RunE samples.keysDisk "/data" true true).2
  = flat_map (fun p => map (CallKeyAt p)
                         (seqZ 0 (KeyCount (readerAt samples.keysDisk p))))
             (tsmPaths (tree samples.keysDisk "/data"))
  /\ List.filter isSummary (RunE samples.keysDisk "/data" true true).2
     = [PrintInvalidKeys
          (totalInvalidKeys samples.keysDisk (tsmPaths (tree samples.keysDisk "/data")))
          (totalKeys samples.keysDisk (tsmPaths (tree samples.keysDisk "/data")))]
  /\ Forall (fun e => isBlockCall e = false)
       (RunE samples.keysDisk "/data" true true).2.
Proof.
  apply (keys_enumerated_once samples.keysDisk "/data" true).
  - repeat constructor.
  - repeat constructor; eexists; reflexivity.
  - vm_compute. reflexivity.
Defined.

Example keys_enumerated_once_example :
  List.filter isKeyAt (RunE samples.keysDisk "/data" true true).2
  = [CallKeyAt "/data/a.tsm" 0; CallKeyAt "/data/b.tsm" 0; CallKeyAt "/data/b.tsm" 1]
  /\ List.filter isSummary (RunE samples.keysDisk "/data" true true).2
     = [PrintInvalidKeys 1 3].
Proof. split; vm_compute; reflexivity. Qed.

(** C3 as stated fails: a TSM file that does not parse makes
    [--check-utf8] return an error although no key is invalid. *)
Lemma utf8_exit_not_by_keys_alone :
  ~ utf8ExitByKeysAlone samples.garbageDisk "/data" false.
Proof.
  unfold utf8ExitByKeysAlone. intros [H _].
  destruct H as (p & i & Hp & Hi & _); [vm_compute; discriminate|].
  vm_compute in Hp. destruct Hp as [<-|[]].
  vm_compute in Hi. destruct Hi as [H0 H1].
  destruct i; cbn in H0, H1; congruence.
Qed.

(** C3, amended. Provided the keys do not outnumber an [int],
    [--check-utf8] returns an error exactly when the walk of the
    directory fails, or one of the TSM files found does not open or
    parse, or some key of these files is not valid UTF-8. In particular,
    when the walk succeeds and every file opens, it exits zero exactly
    when every key is valid UTF-8. *)
Theorem check_utf8_exit d dir verbose :
  totalKeys d (tsmPaths (tree d dir)) < 2 ^ 63 ->
  (RunE d dir true verbose).1 <> None
  <-> (~ cleanWalk (tree d dir)
       \/ (exists p, In p (tsmPaths (tree d dir)) /\ ~ readable d p)
       \/ someKeyInvalid d (tsmPaths (tree d dir))).
Proof.
  intros Hn.
  pose proof (totalInvalidKeys_bounds d (tsmPaths (tree d dir))) as B.
  destruct (cleanWalk_dec (tree d dir)) as [Hw|Hw].
  2:{ destruct (RunE_utf8_dirty d dir verbose Hw) as [e ->]. cbn [fst].
      split; [intros _; now left | discriminate]. }
  destruct (first_unreadable d (tsmPaths (tree d dir)))
    as [Hr|(pre & p & post & Hfl & Hpre & Hp)].
  - rewrite (RunE_utf8_readable d dir verbose Hw Hr). cbn [fst].
    rewrite wrap64_small by lia. rewrite <- totalInvalidKeys_pos.
    destruct (Z.gtb_spec (totalInvalidKeys d (tsmPaths (tree d dir))) 0) as [Hpos|Hpos].
    + split; [intros _; right; right; lia | discriminate].
    + split; [congruence|].
      intros [H|[(p & Hp & Hnr)|H]]; [contradiction | | lia].
      exfalso. apply Hnr. rewrite List.Forall_forall in Hr. now apply Hr.
  - pose proof Hp as Hp'. apply openFailure_not_readable in Hp' as (c & e & Hf).
    rewrite (RunE_utf8_abort d dir verbose pre p post c e Hw Hfl Hpre Hf). cbn [fst].
    split; [|discriminate]. intros _. right. left. exists p. split; [|exact Hp].
    rewrite Hfl. apply in_or_app. right. now left.
Qed.

Lemma check_utf8_exit_witness :
  (RunE samples.keysDisk "/data" true false).1 <> None
  <-> (~ cleanWalk (tree samples.keysDisk "/data")
       \/ (exists p, In p (tsmPaths (tree samples.keysDisk "/data"))
                     /\ ~ readable samples.keysDisk p)
       \/ someKeyInvalid samples.keysDisk (tsmPaths (tree samples.keysDisk "/data"))).
Proof.
  apply (check_utf8_exit samples.keysDisk "/data" false).
  vm_compute. reflexivity.
Defined.

End utf8_props.

Module crc_props.
Import tsm1 verify_tsm tsm_facts utf8_proofs utf8_run sum_proofs trace_proofs tsm_props.
Import crc32_flip.

Lemma blocksTrace_app verbose p cnt l1 l2 :
  is_int cnt ->
  blocksTrace verbose p cnt (l1 ++ l2)
  = blocksTrace verbose p cnt l1
    ++ blocksTrace verbose p (wrap64 (cnt + Z.of_nat (length l1))) l2.
Proof.
  revert cnt. induction l1 as [|rd l1 IH]; intros cnt Hc.
  - cbn [app blocksTrace length]. change (Z.of_nat 0) with 0.
    now rewrite Z.add_0_r, wrap64_id.
  - cbn [app blocksTrace length]. rewrite IH by apply int_incr_is_int.
    rewrite Nat2Z.inj_succ, <- Z.add_1_l, wrap64_incr_add, <- app_assoc.
    reflexivity.
Qed.

Lemma healthy_blocks_no_report verbose p cnt l :
  Forall (fun rd => blockBad rd = false) l ->
  List.filter isBlockReport (blocksTrace verbose p cnt l) = [].
Proof.
  intros H. revert cnt.
  induction H as [|rd l Hrd H IH]; intros cnt; cbn [blocksTrace]; [reflexivity|].
  rewrite List.filter_app, IH, app_nil_r. unfold blockTrace.
  destruct rd as [b|e]; [|discriminate]. now rewrite Hrd.
Qed.

Lemma reports_of_file verbose p r :
  List.filter isBlockReport (sumFileTrace verbose p r)
  = List.filter isBlockReport (blocksTrace verbose p 0 (blocks r)).
Proof.
  unfold sumFileTrace. cbn [app List.filter isBlockReport].
  rewrite List.filter_app.
  replace (List.filter isBlockReport
             (CallNext p :: (if (wrap64 (countIf blockBad (blocks r)) =? 0) && verbose
                             then [PrintHealthy p] else []))) with (@nil Event)
    by (destruct ((wrap64 (countIf blockBad (blocks r)) =? 0) && verbose); reflexivity).
  apply app_nil_r.
Qed.

Lemma healthy_files_no_report d verbose fl :
  Forall (fun rd => blockBad rd = false) (allBlocks d fl) ->
  List.filter isBlockReport (sumTrace d verbose fl) = [].
Proof.
  induction fl as [|p fl IH]; [reflexivity|].
  rewrite allBlocks_cons, Forall_app. intros [Hp Hfl].
  cbn [sumTrace flat_map]. rewrite List.filter_app, reports_of_file.
  rewrite (healthy_blocks_no_report _ _ _ _ Hp).
  apply IH, Hfl.
Qed.

Lemma sumTrace_app d verbose l1 l2 :
  sumTrace d verbose (l1 ++ l2) = sumTrace d verbose l1 ++ sumTrace d verbose l2.
Proof. unfold sumTrace. apply flat_map_app. Qed.

Lemma flipped_block_bad blk i :
  Forall is_byte (buf blk) -> (i < 8 * length (buf blk))%nat ->
  checksum blk = crc32.ChecksumIEEE (buf blk) ->
  blockBad (ReadOk (flipBlock blk i)) = true.
Proof.
  intros Hb Hi Hc. unfold blockBad, flipBlock. cbn [checksum buf].
  apply negb_true_iff, Z.eqb_neq. rewrite Hc. intros E.
  now apply (ChecksumIEEE_flipBit (buf blk) i Hb Hi).
Qed.

Lemma allBlocks_app d l1 l2 :
  allBlocks d (l1 ++ l2) = allBlocks d l1 ++ allBlocks d l2.
Proof. unfold allBlocks. apply flat_map_app. Qed.

Lemma countIf_healthy (l : list BlockRead) :
  Forall (fun rd => blockBad rd = false) l -> countIf blockBad l = 0.
Proof. apply countIf_zero. Qed.

(** C9. Flipping any single bit of any byte sequence changes its
    CRC-32. Hence, when a block whose stored checksum is the CRC-32 of
    its bytes has one bit of these bytes flipped on disk, and every
    other block under the directory is sound, the default mode of
    [verify-tsm] reports a mismatch for that block and for no other:
    the summary counts one broken block, and the one report printed in
    verbose mode names the file, the stored and the recomputed checksum,
    the key and the index of the block in its file. *)
Theorem checksum_detects_bit_flip :
  (forall (b : bytes) (i : nat),
      Forall is_byte b -> (i < 8 * length b)%nat ->
      crc32.ChecksumIEEE (flipBit b i) <> crc32.ChecksumIEEE b)
  /\ (forall d dir pre p post idx before blk after (i : nat),
         cleanWalk (tree d dir) ->
         tsmPaths (tree d dir) = pre ++ p :: post ->
         Forall (readable d) (pre ++ p :: post) ->
         content d !! p
         = Some (Readable {| index := idx;
                             blocks := before ++ ReadOk (flipBlock blk i) :: after |}) ->
         Forall is_byte (buf blk) -> (i < 8 * length (buf blk))%nat ->
         checksum blk = crc32.ChecksumIEEE (buf blk) ->
         Forall (fun rd => blockBad rd = false)
                (allBlocks d pre ++ before ++ after ++ allBlocks d post) ->
         Z.of_nat (length (allBlocks d (pre ++ p :: post))) < 2 ^ 63 ->
         blockBad (ReadOk blk) = false
         /\ blockBad (ReadOk (flipBlock blk i)) = true
         /\ (forall verbose,
                List.filter isSummary (RunE d dir false verbose).2
                = [PrintBrokenBlocks 1
                     (Z.of_nat (length (allBlocks d (pre ++ p :: post))))])
         /\ List.filter isBlockReport (RunE d dir false true).2
            = [PrintMismatch p (checksum blk)
                 (crc32.ChecksumIEEE (flipBit (buf blk) i))
                 (blockKey blk) (Z.of_nat (length before))]).
Proof.
  split; [exact ChecksumIEEE_flipBit|].
  intros d dir pre p post idx before blk after i Hw Hfl Hr Hp Hb Hi Hc Hs Hn.
  rewrite !Forall_app in Hs. destruct Hs as (Hpre & Hbefore & Hafter & Hpost).
  pose proof (flipped_block_bad blk i Hb Hi Hc) as Hbad.
  assert (Hall : allBlocks d (pre ++ p :: post)
                 = allBlocks d pre
                   ++ (before ++ ReadOk (flipBlock blk i) :: after)
                   ++ allBlocks d post).
  { rewrite allBlocks_app, allBlocks_cons, (readable_readerAt _ _ _ Hp).
    reflexivity. }
  assert (Hlen : Z.of_nat (length before) < 2 ^ 63).
  { rewrite Hall, !length_app in Hn. lia. }
  rewrite <- Hfl in Hr. split; [|split; [exact Hbad|split]].
  - unfold blockBad. rewrite Hc, Z.eqb_refl. reflexivity.
  - intros verbose. rewrite <- Hfl in Hn.
    rewrite (sum_summary d dir verbose Hw Hr Hn), Hfl, Hall.
    rewrite !countIf_app, countIf_cons, Hbad.
    rewrite (countIf_healthy _ Hpre), (countIf_healthy _ Hbefore),
      (countIf_healthy _ Hafter), (countIf_healthy _ Hpost).
    reflexivity.
  - rewrite (RunE_sum_readable d dir true Hw Hr). cbn [snd].
    rewrite Hfl, List.filter_app. cbn [List.filter isBlockReport].
    rewrite (filter_none isBlockReport (runDeferred _)), app_nil_r.
    2:{ eapply Forall_impl; [apply runDeferred_events|].
        intros e (q & _ & He). now apply closeEvent_kind in He. }
    rewrite sumTrace_app, List.filter_app, (healthy_files_no_report _ _ _ Hpre).
    cbn [sumTrace flat_map app]. rewrite List.filter_app.
    fold (sumTrace d true post).
    rewrite (healthy_files_no_report _ _ _ Hpost), app_nil_r.
    rewrite reports_of_file, (readable_readerAt _ _ _ Hp). cbn [blocks].
    rewrite blocksTrace_app by apply is_int_0.
    rewrite List.filter_app, (healthy_blocks_no_report _ _ _ _ Hbefore).
    cbn [blocksTrace app]. rewrite List.filter_app.
    rewrite (healthy_blocks_no_report _ _ _ _ Hafter), app_nil_r.
    unfold blockTrace. rewrite Hbad.
    rewrite Z.add_0_l, wrap64_small by lia. reflexivity.
Qed.

Lemma checksum_detects_bit_flip_witness :
  crc32.ChecksumIEEE (flipBit samples.payload 10)
  <> crc32.ChecksumIEEE samples.payload
  /\ blockBad (ReadOk samples.soundBlock) = false
  /\ blockBad (ReadOk (flipBlock samples.soundBlock 10)) = true
  /\ (forall verbose,
         List.filter isSummary (RunE samples.flippedDisk "/data" false verbose).2
         = [PrintBrokenBlocks 1
              (Z.of_nat (length (allBlocks samples.flippedDisk
                 (["/data/a.tsm"] ++ "/data/b.tsm" :: ["/data/c.tsm"]))))])
  /\ List.filter isBlockReport (RunE samples.flippedDisk "/data" false true).2
     = [PrintMismatch "/data/b.tsm" (checksum samples.soundBlock)
          (crc32.ChecksumIEEE (flipBit (buf samples.soundBlock) 10))
          (blockKey samples.soundBlock)
          (Z.of_nat (length [ReadOk samples.soundBlock]))].
Proof.
  split.
  - apply (proj1 checksum_detects_bit_flip samples.payload 10%nat).
    + repeat constructor; vm_compute; congruence.
    + vm_compute. lia.
  - apply (proj2 checksum_detects_bit_flip samples.flippedDisk "/data"
             ["/data/a.tsm"] "/data/b.tsm" ["/data/c.tsm"]
             [(samples.cpuKey, 0)] [ReadOk samples.soundBlock]
             samples.soundBlock [ReadOk samples.soundBlock] 10%nat).
    + repeat constructor.
    + vm_compute. reflexivity.
    + repeat constructor; eexists; reflexivity.
    + vm_compute. reflexivity.
    + repeat constructor; vm_compute; congruence.
    + vm_compute. lia.
    + vm_compute. reflexivity.
    + repeat constructor.
    + vm_compute. reflexivity.
Defined.

Example flipped_bit_reported_once :
  List.filter isBlockReport (RunE samples.flippedDisk "/data" false true).2
  = [PrintMismatch "/data/b.tsm" 3057449933 2973061905 samples.cpuKey 1]
  /\ List.filter isSummary (RunE samples.flippedDisk "/data" false false).2
     = [PrintBrokenBlocks 1 7].
Proof. split; vm_compute; reflexivity. Qed.

End crc_props.

(** ** [verify-tombstone] *)

Module tombstone_proofs.
Import tsm1 verify_tombstone tombstone_facts.

Lemma tombstone_walk_clean fls visits :
  cleanWalk visits ->
  filepath.walk loadFilesFn fls visits = (fls ++ tombstonePaths visits, None).
Proof.
  unfold cleanWalk, tombstonePaths. intros H. revert fls.
  induction H as [|[p e] visits Hp H IH]; intros fls;
    cbn [filepath.walk List.filter map fst snd] in *.
  - now rewrite app_nil_r.
  - subst e. unfold loadFilesFn at 1.
    destruct (String.eqb (filepath.Ext p) ("." +:+ TombstoneFileExtension)).
    + rewrite IH, <- app_assoc. reflexivity.
    + apply IH.
Qed.

Lemma tombstone_walk_dirty fls visits :
  ~ cleanWalk visits ->
  exists fls' e, filepath.walk loadFilesFn fls visits = (fls', Some e).
Proof.
  unfold cleanWalk. revert fls.
  induction visits as [|[p [e|]] visits IH]; intros fls H;
    cbn [filepath.walk]; try unfold loadFilesFn at 1.
  - exfalso. apply H. constructor.
  - eauto.
  - destruct (String.eqb (filepath.Ext p) ("." +:+ TombstoneFileExtension));
      apply IH; intros H'; apply H; now constructor.
Qed.

Lemma walkEntries_visit v n l :
  is_int n ->
  exists ev,
    walkEntries (visit v) n l = ((wrap64 (n + Z.of_nat (length l)), None), ev).
Proof.
  revert n. induction l as [|t l IH]; intros n Hn.
  - exists []. cbn [walkEntries length]. change (Z.of_nat 0) with 0.
    now rewrite Z.add_0_r, wrap64_id.
  - cbn [walkEntries length]. unfold visit at 1, tell, emit_bind, emit_ret.
    destruct (IH (int_incr n) (int_incr_is_int n)) as [ev ->].
    rewrite Nat2Z.inj_succ, <- Z.add_1_l, wrap64_incr_add.
    eexists. reflexivity.
Qed.

(** The visitor of [run] never fails, so a walk fails only by itself,
    and then after it counted every entry it delivered. *)
Lemma Walk_visit v t :
  exists ev,
    Walk t (visit v) 0
    = ((wrap64 (Z.of_nat (length (entries t))), walkErr t), ev).
Proof.
  unfold Walk. destruct (walkEntries_visit v 0 (entries t) is_int_0) as [ev ->].
  unfold emit_bind, emit_ret. rewrite Z.add_0_l.
  destruct (walkErr t); eexists; reflexivity.
Qed.

Lemma verifyFile_result d v failed :
  (verifyFile d v failed).1 = failed || walkFails d (f v).
Proof.
  unfold verifyFile, walkFails, tell, emit_bind, emit_ret.
  destruct (HasTombstones (NewTombstoner d (f v))); cbn [negb andb].
  - destruct (Walk_visit v (NewTombstoner d (f v))) as [ev ->].
    destruct (walkErr (NewTombstoner d (f v))) as [e|]; cbn.
    + now rewrite orb_true_r.
    + now rewrite orb_false_r.
  - cbn. now rewrite orb_false_r.
Qed.

Lemma verifyFile_trace d v failed :
  (verifyFile d v failed).2 = fileTrace d (verbosity v) (f v).
Proof.
  unfold fileTrace, verifyFile, tell, emit_bind, emit_ret.
  cbn [verbosity f].
  destruct (HasTombstones (NewTombstoner d (f v))); cbn [negb].
  - unfold Walk.
    assert (E : forall l n,
               walkEntries (visit v) n l
               = walkEntries (visit {| path := ""; verbosity := verbosity v;
                                       files := []; f := f v |}) n l).
    { induction l as [|t l IH]; intros n; [reflexivity|].
      cbn [walkEntries]. unfold visit at 1 3. cbn [verbosity].
      unfold emit_bind. cbn. now rewrite IH. }
    rewrite E.
    destruct (walkEntries _ 0 (entries (NewTombstoner d (f v)))) as [[n [e|]] ev];
      unfold emit_bind, emit_ret; cbn;
      destruct (walkErr (NewTombstoner d (f v))); reflexivity.
  - reflexivity.
Qed.

Lemma loop_eq d pending v failed found :
  exists v',
    loop d pending v failed found
    = ((v', failed || existsb (walkFails d) pending,
        found || negb (bool_decide (pending = []))),
       flat_map (fileTrace d (verbosity v)) pending).
Proof.
  revert v failed found.
  induction pending as [|p pending IH]; intros v failed found.
  - exists v. cbn. now rewrite !orb_false_r.
  - cbn [loop existsb flat_map]. unfold emit_bind.
    pose proof (verifyFile_result d {| path := path v; verbosity := verbosity v;
                                       files := pending; f := p |} failed) as R.
    pose proof (verifyFile_trace d {| path := path v; verbosity := verbosity v;
                                      files := pending; f := p |} failed) as T.
    destruct (verifyFile d _ failed) as [failed1 ev]. cbn [fst snd verbosity f] in R, T.
    subst failed1 ev.
    destruct (IH {| path := path v; verbosity := verbosity v;
                    files := pending; f := p |}
                (failed || walkFails d p) true) as [v' ->].
    exists v'. cbn [verbosity]. rewrite orb_assoc, orb_true_r. reflexivity.
Qed.

Lemma tombstone_loadFiles_clean d v :
  cleanWalk (tree d (path v)) ->
  loadFiles d v
  = ({| path := path v; verbosity := verbosity v;
        files := files v ++ tombstonePaths (tree d (path v)); f := f v |}, None).
Proof.
  intros H. unfold loadFiles, filepath.WalkDir.
  now rewrite tombstone_walk_clean.
Qed.

Lemma tombstone_loadFiles_dirty d v :
  ~ cleanWalk (tree d (path v)) ->
  exists v' e, loadFiles d v = (v', Some e).
Proof.
  intros H. unfold loadFiles, filepath.WalkDir.
  destruct (tombstone_walk_dirty (files v) _ H) as (fls & e & ->). eauto.
Qed.

Lemma RunE_dirty d dir v vv :
  ~ cleanWalk (tree d dir) -> exists e, RunE d dir v vv = (Some e, []).
Proof.
  intros H. unfold RunE, run.
  destruct (tombstone_loadFiles_dirty d {| path := dir;
                                 verbosity := if vv then veryVerbose
                                              else if v then verbose else quiet;
                                 files := []; f := "" |} H) as (v' & e & ->).
  cbn. eauto.
Qed.

Lemma RunE_clean d dir v vv :
  cleanWalk (tree d dir) ->
  RunE d dir v vv
  = (if existsb (walkFails d) (tombstonePaths (tree d dir))
     then (Some (errors_New "failed tombstone verification"),
           flat_map (fileTrace d (verbosityOf v vv)) (tombstonePaths (tree d dir)))
     else (None,
           flat_map (fileTrace d (verbosityOf v vv)) (tombstonePaths (tree d dir))
           ++ (if bool_decide (tombstonePaths (tree d dir) = [])
               then [PrintNoFiles] else []))).
Proof.
  intros H. unfold RunE, run. rewrite tombstone_loadFiles_clean by exact H.
  cbn [files path verbosity f app].
  destruct (loop_eq d (tombstonePaths (tree d dir))
              {| path := dir; verbosity := verbosityOf v vv;
                 files := tombstonePaths (tree d dir); f := "" |} false false)
    as [v' E].
  unfold verbosityOf in *. rewrite E. cbn [orb verbosity].
  unfold emit_bind, emit_ret, tell.
  destruct (existsb (walkFails d) (tombstonePaths (tree d dir))).
  - now rewrite !app_nil_r.
  - destruct (bool_decide (tombstonePaths (tree d dir) = [])); cbn [negb];
      now rewrite !app_nil_r.
Qed.

Lemma existsb_walkFails d fl :
  existsb (walkFails d) fl = true <-> someWalkFails d fl.
Proof. unfold someWalkFails. apply existsb_exists. Qed.

End tombstone_proofs.

Module tombstone_props.
Import tsm1 verify_tombstone tombstone_facts tombstone_proofs.

(** One round of the loop, spelled out. *)
Lemma fileTrace_eq d vb p :
  exists ev,
    fileTrace d vb p
    = (if vb >? quiet then [PrintVerifying p] else [])
      ++ CallNewTombstoner p :: CallHasTombstones p
      :: (if HasTombstones (NewTombstoner d p)
          then CallWalk p :: ev
               ++ [match walkErr (NewTombstoner d p) with
                   | Some e =>
                     PrintWalkFailed p e
                       (wrap64 (Z.of_nat (length (entries (NewTombstoner d p)))))
                   | None =>
                     PrintCompleted p
                       (wrap64 (Z.of_nat (length (entries (NewTombstoner d p)))))
                   end]
          else [PrintNoEntries p]).
Proof.
  unfold fileTrace, verifyFile, tell, emit_bind, emit_ret. cbn [verbosity f].
  destruct (HasTombstones (NewTombstoner d p)); cbn [negb].
  - destruct (Walk_visit {| path := ""; verbosity := vb; files := []; f := p |}
                (NewTombstoner d p)) as [ev ->].
    exists ev. destruct (walkErr (NewTombstoner d p)) as [e|]; cbn [snd];
      now rewrite !app_nil_r.
  - exists []. cbn [snd]. now rewrite !app_nil_r.
Qed.

Lemma fileTrace_examined d vb p : In (CallHasTombstones p) (fileTrace d vb p).
Proof.
  destruct (fileTrace_eq d vb p) as [ev ->].
  apply in_or_app. right. right. now left.
Qed.

Lemma fileTrace_no_tombstones d vb p :
  HasTombstones (NewTombstoner d p) = false ->
  In (PrintNoEntries p) (fileTrace d vb p).
Proof.
  intros H. destruct (fileTrace_eq d vb p) as [ev ->]. rewrite H.
  apply in_or_app. right. right. right. now left.
Qed.

Lemma fileTrace_walked d vb p :
  HasTombstones (NewTombstoner d p) = true ->
  In (CallWalk p) (fileTrace d vb p)
  /\ In (match walkErr (NewTombstoner d p) with
         | Some e =>
           PrintWalkFailed p e
             (wrap64 (Z.of_nat (length (entries (NewTombstoner d p)))))
         | None =>
           PrintCompleted p
             (wrap64 (Z.of_nat (length (entries (NewTombstoner d p)))))
         end) (fileTrace d vb p).
Proof.
  intros H. destruct (fileTrace_eq d vb p) as [ev ->]. rewrite H. split.
  - apply in_or_app. right. right. right. now left.
  - apply in_or_app. right. right. right. right.
    apply in_or_app. right. now left.
Qed.

Lemma events_of_file d dir v vv p e :
  cleanWalk (tree d dir) ->
  In p (tombstonePaths (tree d dir)) ->
  In e (fileTrace d (verbosityOf v vv) p) ->
  In e (RunE d dir v vv).2.
Proof.
  intros Hw Hp He. rewrite (RunE_clean d dir v vv Hw).
  assert (H : In e (flat_map (fileTrace d (verbosityOf v vv))
                      (tombstonePaths (tree d dir))))
    by (apply in_flat_map; eauto).
  destruct (existsb (walkFails d) (tombstonePaths (tree d dir))); cbn [snd];
    [exact H | apply in_or_app; now left].
Qed.

Lemma RunE_exit d dir v vv :
  (RunE d dir v vv).1 <> None
  <-> (~ cleanWalk (tree d dir)
       \/ someWalkFails d (tombstonePaths (tree d dir))).
Proof.
  destruct (cleanWalk_dec (tree d dir)) as [Hw|Hw].
  - rewrite (RunE_clean d dir v vv Hw), <- existsb_walkFails.
    destruct (existsb (walkFails d) (tombstonePaths (tree d dir))); cbn [fst].
    + split; [intros _; now right | discriminate].
    + split; [congruence | intros [H|H]; [contradiction | discriminate]].
  - destruct (RunE_dirty d dir v vv Hw) as [e ->]. cbn [fst].
    split; [intros _; now left | discriminate].
Qed.

(** C5 as stated fails: when the engine path cannot be walked,
    [verify-tombstone] returns an error although no tombstone file's
    walk has failed. *)
Lemma tombstone_exit_not_by_walks_alone :
  ~ exitByWalksAlone samples.emptyDisk "/nowhere" false false.
Proof.
  unfold exitByWalksAlone. intros [H _].
  destruct H as (p & Hp & _); [vm_compute; discriminate|].
  vm_compute in Hp. exact Hp.
Qed.

(** C5, amended. [verify-tombstone] returns an error exactly when the
    traversal of the engine path fails or the walk of at least one
    tombstone file found fails before completion. When the traversal
    succeeds, every [.tombstone] file found is examined, every one that
    has tombstones is walked, and for every one whose walk completes the
    number of its entries is printed. *)
Theorem verify_tombstone_exit d dir v vv :
  ((RunE d dir v vv).1 <> None
   <-> (~ cleanWalk (tree d dir)
        \/ someWalkFails d (tombstonePaths (tree d dir))))
  /\ (cleanWalk (tree d dir) ->
      forall p, In p (tombstonePaths (tree d dir)) ->
        In (CallHasTombstones p) (RunE d dir v vv).2
        /\ (HasTombstones (NewTombstoner d p) = true ->
            In (CallWalk p) (RunE d dir v vv).2
            /\ (walkErr (NewTombstoner d p) = None ->
                Z.of_nat (length (entries (NewTombstoner d p))) < 2 ^ 63 ->
                In (PrintCompleted p
                      (Z.of_nat (length (entries (NewTombstoner d p)))))
                   (RunE d dir v vv).2))).
Proof.
  split; [apply RunE_exit|].
  intros Hw p Hp. split.
  - eapply events_of_file; [exact Hw | exact Hp | apply fileTrace_examined].
  - intros Hh.
    destruct (fileTrace_walked d (verbosityOf v vv) p Hh) as [Hc Hr]. split.
    + eapply events_of_file; eassumption.
    + intros He Hn. rewrite He, wrap64_small in Hr by lia.
      eapply events_of_file; eassumption.
Qed.

Lemma verify_tombstone_exit_witness :
  (RunE samples.tombstoneDisk "/data" true false).1 <> None
  /\ In (PrintCompleted "/data/a.tombstone" 3)
        (RunE samples.tombstoneDisk "/data" true false).2.
Proof.
  pose proof (verify_tombstone_exit samples.tombstoneDisk "/data" true false)
    as [Hexit Hfiles].
  split.
  - apply Hexit. right. exists "/data/b.tombstone".
    split; [vm_compute; tauto | vm_compute; reflexivity].
  - apply (Hfiles ltac:(repeat constructor) "/data/a.tombstone").
    + vm_compute. tauto.
    + vm_compute. reflexivity.
    + vm_compute. reflexivity.
    + vm_compute. reflexivity.
Defined.

(** C6. When the walk of a tombstone file fails, [Walk] hands the error
    to its caller after the visitor has counted every entry delivered
    before the failure; [verify-tombstone] prints the file, that error
    and that count as the last okay entry, and returns an error. *)
Theorem walk_failure_reports_count d dir v vv p e :
  cleanWalk (tree d dir) ->
  In p (tombstonePaths (tree d dir)) ->
  HasTombstones (NewTombstoner d p) = true ->
  walkErr (NewTombstoner d p) = Some e ->
  Z.of_nat (length (entries (NewTombstoner d p))) < 2 ^ 63 ->
  (forall vr, (Walk (NewTombstoner d p) (visit vr) 0).1
              = (Z.of_nat (length (entries (NewTombstoner d p))), Some e))
  /\ In (PrintWalkFailed p e (Z.of_nat (length (entries (NewTombstoner d p)))))
        (RunE d dir v vv).2
  /\ (RunE d dir v vv).1 = Some (errors_New "failed tombstone verification").
Proof.
  intros Hw Hp Hh He Hn. repeat split.
  - intros vr. destruct (Walk_visit vr (NewTombstoner d p)) as [ev ->].
    cbn [fst]. now rewrite He, wrap64_small by lia.
  - destruct (fileTrace_walked d (verbosityOf v vv) p Hh) as [_ Hr].
    rewrite He, wrap64_small in Hr by lia.
    eapply events_of_file; eassumption.
  - rewrite (RunE_clean d dir v vv Hw).
    assert (E : existsb (walkFails d) (tombstonePaths (tree d dir)) = true).
    { apply existsb_walkFails. exists p. split; [exact Hp|].
      unfold walkFails. rewrite Hh, He. reflexivity. }
    now rewrite E.
Qed.

Lemma walk_failure_reports_count_witness :
  (forall vr, (Walk (NewTombstoner samples.tombstoneDisk "/data/b.tombstone")
                 (visit vr) 0).1
              = (Z.of_nat (length (entries
                   (NewTombstoner samples.tombstoneDisk "/data/b.tombstone"))),
                 Some (errors_New "unexpected EOF")))
  /\ In (PrintWalkFailed "/data/b.tombstone" (errors_New "unexpected EOF")
          (Z.of_nat (length (entries
             (NewTombstoner samples.tombstoneDisk "/data/b.tombstone")))))
        (RunE samples.tombstoneDisk "/data" false false).2
  /\ (RunE samples.tombstoneDisk "/data" false false).1
     = Some (errors_New "failed tombstone verification").
Proof.
  apply (walk_failure_reports_count samples.tombstoneDisk "/data" false false
           "/data/b.tombstone" (errors_New "unexpected EOF")).
  - repeat constructor.
  - vm_compute. tauto.
  - vm_compute. reflexivity.
  - vm_compute. reflexivity.
  - vm_compute. reflexivity.
Defined.

(** C7. When the engine path is walked and no walk of a tombstone file
    fails, [verify-tombstone] returns a nil error, so that the exit
    status is zero; if no tombstone file was found, all it does is print
    "No tombstone files found"; and for every tombstone file found that
    has no tombstones it prints that the file has no tombstone
    entries. *)
Theorem neutral_outcomes_exit_zero d dir v vv :
  cleanWalk (tree d dir) ->
  ~ someWalkFails d (tombstonePaths (tree d dir)) ->
  (RunE d dir v vv).1 = None
  /\ exitStatus (RunE d dir v vv).1 = 0
  /\ (tombstonePaths (tree d dir) = [] -> (RunE d dir v vv).2 = [PrintNoFiles])
  /\ (forall p, In p (tombstonePaths (tree d dir)) ->
        HasTombstones (NewTombstoner d p) = false ->
        In (PrintNoEntries p) (RunE d dir v vv).2).
Proof.
  intros Hw Hf.
  assert (E : existsb (walkFails d) (tombstonePaths (tree d dir)) = false).
  { destruct (existsb _ _) eqn:E; [|reflexivity].
    exfalso. apply Hf, existsb_walkFails, E. }
  assert (R : (RunE d dir v vv).1 = None)
    by now rewrite (RunE_clean d dir v vv Hw), E.
  split; [exact R|]. split; [now rewrite R|]. split.
  - intros Hnil. rewrite (RunE_clean d dir v vv Hw), E, Hnil. reflexivity.
  - intros p Hp Hh. eapply events_of_file; [exact Hw | exact Hp |].
    now apply fileTrace_no_tombstones.
Qed.

Lemma neutral_outcomes_exit_zero_witness :
  (RunE samples.quietDisk "/data" false false).1 = None
  /\ exitStatus (RunE samples.quietDisk "/data" false false).1 = 0
  /\ (tombstonePaths (tree samples.quietDisk "/data") = [] ->
      (RunE samples.quietDisk "/data" false false).2 = [PrintNoFiles])
  /\ (forall p, In p (tombstonePaths (tree samples.quietDisk "/data")) ->
        HasTombstones (NewTombstoner samples.quietDisk p) = false ->
        In (PrintNoEntries p) (RunE samples.quietDisk "/data" false false).2).
Proof.
  apply (neutral_outcomes_exit_zero samples.quietDisk "/data" false false).
  - repeat constructor.
  - intros (p & Hp & Hf). vm_compute in Hp.
    destruct Hp as [<-|[<-|[]]]; vm_compute in Hf; discriminate.
Defined.

Example no_tombstone_files_found :
  verify_tombstone.RunE samples.emptyDisk "/data" false false
  = (None, [PrintNoFiles]).
Proof. vm_compute. reflexivity. Qed.

Example no_tombstone_entries :
  In (PrintNoEntries "/data/c.tombstone")
     (verify_tombstone.RunE samples.quietDisk "/data" false false).2
  /\ (verify_tombstone.RunE samples.quietDisk "/data" false false).1 = None.
Proof. vm_compute. tauto. Qed.

End tombstone_props.

(** ** The engine configuration *)

Module storage_props.

(** C8. The default write timeout of the engine is exactly 10 seconds,
    that is 10,000,000,000 nanoseconds of a [time.Duration], and
    [NewConfig] returns a [Config] whose [WriteTimeout] is
    [DefaultWriteTimeout]. *)
Theorem default_write_timeout :
  storage.DefaultWriteTimeout = 10 * time.Second
  /\ storage.DefaultWriteTimeout = 10000000000
  /\ is_int storage.DefaultWriteTimeout
  /\ forall (tsdb_Config retention_Config precreator_Config : Type)
            (data : tsdb_Config) (retention : retention_Config)
            (precreator : precreator_Config),
       storage.WriteTimeout (storage.NewConfig data retention precreator)
       = storage.DefaultWriteTimeout.
Proof.
  repeat split; try reflexivity;
    unfold is_int, int_min, int_max, storage.DefaultWriteTimeout,
      time.Second, time.Millisecond, time.Microsecond, time.Nanosecond; lia.
Qed.

End storage_props.

(** * Further properties *)

(** ** The traversal and the selection of files *)

Module walk_props.

Lemma firstError_clean visits : firstError visits = None <-> cleanWalk visits.
Proof.
  unfold cleanWalk. induction visits as [|[p [e|]] visits IH]; cbn [firstError].
  - split; [constructor | reflexivity].
  - split; [discriminate | intros H; inversion H; discriminate].
  - rewrite IH. split; [now constructor | intros H; now inversion H].
Qed.

Lemma beforeError_clean visits : cleanWalk visits -> beforeError visits = visits.
Proof.
  unfold cleanWalk. induction 1 as [|[p e] visits Hp H IH]; [reflexivity|].
  cbn in Hp. subst e. cbn [beforeError]. now rewrite IH.
Qed.

Lemma tsm_walk_eq fls visits :
  filepath.walk verify_tsm.loadFilesFn fls visits
  = (fls ++ tsm_facts.tsmPaths (beforeError visits), firstError visits).
Proof.
  unfold tsm_facts.tsmPaths. revert fls.
  induction visits as [|[p [e|]] visits IH]; intros fls;
    cbn [filepath.walk beforeError firstError List.filter map fst].
  - now rewrite app_nil_r.
  - unfold verify_tsm.loadFilesFn. now rewrite app_nil_r.
  - unfold verify_tsm.loadFilesFn at 1.
    destruct (String.eqb (filepath.Ext p) ("." +:+ tsm1.TSMFileExtension)).
    + rewrite IH, <- app_assoc. reflexivity.
    + apply IH.
Qed.

Lemma tombstone_walk_eq fls visits :
  filepath.walk verify_tombstone.loadFilesFn fls visits
  = (fls ++ tombstone_facts.tombstonePaths (beforeError visits),
     firstError visits).
Proof.
  unfold tombstone_facts.tombstonePaths. revert fls.
  induction visits as [|[p [e|]] visits IH]; intros fls;
    cbn [filepath.walk beforeError firstError List.filter map fst].
  - now rewrite app_nil_r.
  - unfold verify_tombstone.loadFilesFn. now rewrite app_nil_r.
  - unfold verify_tombstone.loadFilesFn at 1.
    destruct (String.eqb (filepath.Ext p) ("." +:+ tsm1.TombstoneFileExtension)).
    + rewrite IH, <- app_assoc. reflexivity.
    + apply IH.
Qed.

Lemma tsm_loadFiles_eq d dataPath v :
  verify_tsm.loadFiles d dataPath v
  = ({| verify_tsm.files :=
          verify_tsm.files v
          ++ tsm_facts.tsmPaths (beforeError (verify_tsm.tree d dataPath));
        verify_tsm.f := verify_tsm.f v |},
     match firstError (verify_tsm.tree d dataPath) with
     | Some e =>
       Some (fmt_Errorf_w
         "could not load storage files (use -dir for custom storage root): %w" e)
     | None => None
     end).
Proof.
  unfold verify_tsm.loadFiles, filepath.WalkDir. rewrite tsm_walk_eq.
  destruct (firstError (verify_tsm.tree d dataPath)); reflexivity.
Qed.

Lemma tombstone_loadFiles_eq d v :
  verify_tombstone.loadFiles d v
  = ({| verify_tombstone.path := verify_tombstone.path v;
        verify_tombstone.verbosity := verify_tombstone.verbosity v;
        verify_tombstone.files :=
          verify_tombstone.files v
          ++ tombstone_facts.tombstonePaths
               (beforeError (verify_tombstone.tree d (verify_tombstone.path v)));
        verify_tombstone.f := verify_tombstone.f v |},
     firstError (verify_tombstone.tree d (verify_tombstone.path v))).
Proof.
  unfold verify_tombstone.loadFiles, filepath.WalkDir.
  now rewrite tombstone_walk_eq.
Qed.

(** X1. [verifyTSM.loadFiles] appends to [v.files], in the order of the
    traversal, the paths with extension [.tsm] that are visited before the
    traversal meets an error, and leaves [v.f] alone; it returns nil when
    the traversal meets no error, and otherwise the first error met,
    wrapped by [fmt.Errorf] with [%w]. *)
Theorem tsm_loadFiles_collects d dataPath v :
  verify_tsm.loadFiles d dataPath v
  = ({| verify_tsm.files :=
          verify_tsm.files v
          ++ tsm_facts.tsmPaths (beforeError (verify_tsm.tree d dataPath));
        verify_tsm.f := verify_tsm.f v |},
     match firstError (verify_tsm.tree d dataPath) with
     | Some e =>
       Some (fmt_Errorf_w
         "could not load storage files (use -dir for custom storage root): %w" e)
     | None => None
     end).
Proof.
  unfold verify_tsm.loadFiles, filepath.WalkDir.
  rewrite tsm_walk_eq.
  destruct (firstError (verify_tsm.tree d dataPath)) as [e|].
  - reflexivity.
  - reflexivity.
Qed.

(** X2. [verifier.loadFiles] of [verify-tombstone] appends to [v.files],
    in the order of the traversal, the paths with extension [.tombstone]
    visited before the traversal meets an error, changes nothing else of
    [v], and returns the first error met as it is, not wrapped. *)
Theorem tombstone_loadFiles_collects d v :
  verify_tombstone.loadFiles d v
  = ({| verify_tombstone.path := verify_tombstone.path v;
        verify_tombstone.verbosity := verify_tombstone.verbosity v;
        verify_tombstone.files :=
          verify_tombstone.files v
          ++ tombstone_facts.tombstonePaths
               (beforeError (verify_tombstone.tree d (verify_tombstone.path v)));
        verify_tombstone.f := verify_tombstone.f v |},
     firstError (verify_tombstone.tree d (verify_tombstone.path v))).
Proof.
  unfold verify_tombstone.loadFiles, filepath.WalkDir.
  rewrite tombstone_walk_eq.
  reflexivity.
Qed.

(** The extension is a suffix of the path. *)
Lemma Ext_suffix path : endsIn (filepath.Ext path) path.
Proof.
  unfold endsIn. induction path as [|c rest [pre IH]]; [now exists ""|].
  cbn [filepath.Ext]. destruct (filepath.Ext rest) as [|c' ext] eqn:E.
  - destruct (filepath.hasSeparator rest);
      [exists (String c pre); exact (f_equal (String c) IH)|].
    destruct (Ascii.eqb c "."); [now exists "" |].
    exists (String c pre). exact (f_equal (String c) IH).
  - exists (String c pre). exact (f_equal (String c) IH).
Qed.

Lemma Ext_of_suffix ext pre :
  ext <> "" -> filepath.Ext ext = ext -> filepath.Ext (pre +:+ ext) = ext.
Proof.
  intros Hne Hext. induction pre as [|c pre IH]; [exact Hext|].
  change (String c pre +:+ ext) with (String c (pre +:+ ext)).
  cbn [filepath.Ext]. rewrite IH.
  destruct ext; [contradiction | reflexivity].
Qed.

Lemma Ext_endsIn ext path :
  ext <> "" -> filepath.Ext ext = ext ->
  filepath.Ext path = ext <-> endsIn ext path.
Proof.
  intros Hne Hext. split.
  - intros <-. apply Ext_suffix.
  - intros [pre ->]. now apply Ext_of_suffix.
Qed.

(** X3. Of the paths the traversal visits without error, [verify-tsm]
    collects exactly those that end in [.tsm] and [verify-tombstone]
    exactly those that end in [.tombstone], whether they name a file or a
    directory; no path is collected by both. *)
Theorem files_selected_by_suffix path fls :
  (endsIn ".tsm" path ->
   verify_tsm.loadFilesFn path None fls = (fls ++ [path], None))
  /\ (~ endsIn ".tsm" path ->
      verify_tsm.loadFilesFn path None fls = (fls, None))
  /\ (endsIn ".tombstone" path ->
      verify_tombstone.loadFilesFn path None fls = (fls ++ [path], None))
  /\ (~ endsIn ".tombstone" path ->
      verify_tombstone.loadFilesFn path None fls = (fls, None))
  /\ ~ (endsIn ".tsm" path /\ endsIn ".tombstone" path).
Proof.
  assert (Htsm : filepath.Ext path = ".tsm" <-> endsIn ".tsm" path)
    by (apply Ext_endsIn; [discriminate | reflexivity]).
  assert (Htomb : filepath.Ext path = ".tombstone" <-> endsIn ".tombstone" path)
    by (apply Ext_endsIn; [discriminate | reflexivity]).
  unfold verify_tsm.loadFilesFn, verify_tombstone.loadFilesFn.
  change ("." +:+ tsm1.TSMFileExtension) with ".tsm".
  change ("." +:+ tsm1.TombstoneFileExtension) with ".tombstone".
  destruct (String.eqb_spec (filepath.Ext path) ".tsm") as [E|E];
    destruct (String.eqb_spec (filepath.Ext path) ".tombstone") as [E'|E'];
    repeat split; try reflexivity; try congruence; try tauto.
  all: try (intros H; exfalso; tauto).
  all: intros [H1 H2]; apply Htsm in H1; apply Htomb in H2; congruence.
Qed.

Lemma files_selected_by_suffix_witness :
  verify_tsm.loadFilesFn "/data/000000001-000000001.tsm" None ["/data/a.tsm"]
  = (["/data/a.tsm"] ++ ["/data/000000001-000000001.tsm"], None)
  /\ verify_tombstone.loadFilesFn "/data/000000001-000000001.tsm" None []
     = ([], None).
Proof.
  pose proof (files_selected_by_suffix "/data/000000001-000000001.tsm"
                ["/data/a.tsm"]) as (H1 & _).
  pose proof (files_selected_by_suffix "/data/000000001-000000001.tsm" [])
    as (Hin & _ & _ & H4 & Hboth).
  assert (E : endsIn ".tsm" "/data/000000001-000000001.tsm")
    by (exists "/data/000000001-000000001"; reflexivity).
  split; [exact (H1 E)|].
  apply H4. intros E'. apply Hboth. split; assumption.
Defined.

End walk_props.

(** ** The iteration over the files *)

Module next_props.

Lemma tsm_nexts_drain n v :
  (length (verify_tsm.files v) <= n)%nat ->
  (tsm_more.nexts n v).1 = verify_tsm.files v
  /\ verify_tsm.files (tsm_more.nexts n v).2 = []
  /\ verify_tsm.next (tsm_more.nexts n v).2 = ((tsm_more.nexts n v).2, false).
Proof.
  revert v. induction n as [|n IH]; intros [fls f0]; cbn [verify_tsm.files].
  - intros H. destruct fls; [|cbn in H; lia]. repeat split.
  - intros H. cbn [tsm_more.nexts]. destruct fls as [|p rest].
    + change (verify_tsm.next {| verify_tsm.files := []; verify_tsm.f := f0 |})
        with ({| verify_tsm.files := []; verify_tsm.f := f0 |}, false).
      repeat split.
    + change (verify_tsm.next {| verify_tsm.files := p :: rest; verify_tsm.f := f0 |})
        with ({| verify_tsm.files := rest; verify_tsm.f := p |}, true).
      cbv iota beta. cbn [length] in H.
      destruct (IH {| verify_tsm.files := rest; verify_tsm.f := p |})
        as (H1 & H2 & H3); [cbn; lia|].
      destruct (tsm_more.nexts n _) as [fs v2]. cbn [fst snd verify_tsm.f] in *.
      subst fs. split; [reflexivity | split; assumption].
Qed.

Lemma tombstone_nexts_drain n v :
  (length (verify_tombstone.files v) <= n)%nat ->
  (tombstone_more.nexts n v).1 = verify_tombstone.files v
  /\ verify_tombstone.files (tombstone_more.nexts n v).2 = []
  /\ verify_tombstone.next (tombstone_more.nexts n v).2
     = ((tombstone_more.nexts n v).2, false).
Proof.
  revert v. induction n as [|n IH]; intros [pth vb fls f0];
    cbn [verify_tombstone.files].
  - intros H. destruct fls; [|cbn in H; lia]. repeat split.
  - intros H. cbn [tombstone_more.nexts]. destruct fls as [|p rest].
    + change (verify_tombstone.next
                {| verify_tombstone.path := pth; verify_tombstone.verbosity := vb;
                   verify_tombstone.files := []; verify_tombstone.f := f0 |})
        with ({| verify_tombstone.path := pth; verify_tombstone.verbosity := vb;
                 verify_tombstone.files := []; verify_tombstone.f := f0 |}, false).
      repeat split.
    + change (verify_tombstone.next
                {| verify_tombstone.path := pth; verify_tombstone.verbosity := vb;
                   verify_tombstone.files := p :: rest; verify_tombstone.f := f0 |})
        with ({| verify_tombstone.path := pth; verify_tombstone.verbosity := vb;
                 verify_tombstone.files := rest; verify_tombstone.f := p |}, true).
      cbv iota beta. cbn [length] in H.
      destruct (IH {| verify_tombstone.path := pth;
                      verify_tombstone.verbosity := vb;
                      verify_tombstone.files := rest;
                      verify_tombstone.f := p |}) as (H1 & H2 & H3); [cbn; lia|].
      destruct (tombstone_more.nexts n _) as [fs v2].
      cbn [fst snd verify_tombstone.f] in *.
      subst fs. split; [reflexivity | split; assumption].
Qed.

(** X4. Called again and again, [next] of either tool sets [v.f] to each
    of the collected files exactly once, in the order in which they were
    collected; once the files are used up [v.files] is empty and every
    further call returns false and changes nothing. *)
Theorem next_hands_out_each_file_once n :
  (forall v, (length (verify_tsm.files v) <= n)%nat ->
     (tsm_more.nexts n v).1 = verify_tsm.files v
     /\ verify_tsm.files (tsm_more.nexts n v).2 = []
     /\ verify_tsm.next (tsm_more.nexts n v).2 = ((tsm_more.nexts n v).2, false))
  /\ (forall v, (length (verify_tombstone.files v) <= n)%nat ->
        (tombstone_more.nexts n v).1 = verify_tombstone.files v
        /\ verify_tombstone.files (tombstone_more.nexts n v).2 = []
        /\ verify_tombstone.next (tombstone_more.nexts n v).2
           = ((tombstone_more.nexts n v).2, false)).
Proof.
  split; intros v; [apply tsm_nexts_drain | apply tombstone_nexts_drain].
Qed.

Lemma next_hands_out_each_file_once_witness :
  (tsm_more.nexts 5 {| verify_tsm.files := ["a.tsm"; "b.tsm"; "c.tsm"];
                       verify_tsm.f := "" |}).1
  = ["a.tsm"; "b.tsm"; "c.tsm"]
  /\ verify_tsm.files
       (tsm_more.nexts 5 {| verify_tsm.files := ["a.tsm"; "b.tsm"; "c.tsm"];
                            verify_tsm.f := "" |}).2 = []
  /\ verify_tsm.next
       (tsm_more.nexts 5 {| verify_tsm.files := ["a.tsm"; "b.tsm"; "c.tsm"];
                            verify_tsm.f := "" |}).2
     = ((tsm_more.nexts 5 {| verify_tsm.files := ["a.tsm"; "b.tsm"; "c.tsm"];
                             verify_tsm.f := "" |}).2, false).
Proof.
  apply (proj1 (next_hands_out_each_file_once 5)). cbn. lia.
Defined.

End next_props.

(** ** Runs that find nothing to verify *)

Module early_props.

Import tsm1 verify_tsm tsm_facts.

(** X5. When the traversal of the engine path meets an error,
    [verify-tsm] in either mode returns that first error wrapped by
    [fmt.Errorf], opens no file and prints nothing, not even a summary:
    the TSM files visited before the error are never verified. *)
Theorem tsm_traversal_error_stops_run d dir checkUTF8 verbose e :
  firstError (tree d dir) = Some e ->
  RunE d dir checkUTF8 verbose
  = (Some (fmt_Errorf_w
       "could not load storage files (use -dir for custom storage root): %w" e),
     []).
Proof.
  intros H. unfold RunE, verifyUTF8_run, verifyChecksums_run,
              newVerifyUTF8, newVerifyChecksums.
  cbn [utf8_verifyTSM sum_verifyTSM].
  rewrite walk_props.tsm_loadFiles_eq, H.
  destruct checkUTF8; reflexivity.
Qed.

Lemma tsm_traversal_error_stops_run_witness :
  RunE samples.flippedDisk "/nowhere" false true
  = (Some (fmt_Errorf_w
       "could not load storage files (use -dir for custom storage root): %w"
       samples.ENOENT),
     []).
Proof.
  apply (tsm_traversal_error_stops_run samples.flippedDisk "/nowhere" false true).
  reflexivity.
Defined.

(** X6. When the traversal of the engine path meets an error,
    [verify-tombstone] returns that very error, not wrapped and not
    replaced by "failed tombstone verification", examines no tombstone
    file and prints nothing, not even "No tombstone files found". *)
Theorem tombstone_traversal_error_stops_run d dir v vv e :
  firstError (verify_tombstone.tree d dir) = Some e ->
  verify_tombstone.RunE d dir v vv = (Some e, []).
Proof.
  intros H. unfold verify_tombstone.RunE, verify_tombstone.run.
  rewrite walk_props.tombstone_loadFiles_eq. cbn [verify_tombstone.path].
  rewrite H. reflexivity.
Qed.

Lemma tombstone_traversal_error_stops_run_witness :
  verify_tombstone.RunE samples.tombstoneDisk "/nowhere" true true
  = (Some samples.ENOENT, []).
Proof.
  apply (tombstone_traversal_error_stops_run samples.tombstoneDisk "/nowhere").
  reflexivity.
Defined.

(** X7. On an engine path that is traversed without error and holds no
    path ending in [.tsm], [verify-tsm] opens nothing, prints the summary
    with both counts zero ("Invalid Keys: 0 / 0", "Broken Blocks: 0 / 0")
    and returns a nil error. *)
Theorem no_tsm_files_zero_summary d dir verbose :
  cleanWalk (tree d dir) ->
  tsmPaths (tree d dir) = [] ->
  RunE d dir true verbose = (None, [PrintInvalidKeys 0 0])
  /\ RunE d dir false verbose = (None, [PrintBrokenBlocks 0 0]).
Proof.
  intros Hw Hfl.
  assert (Hr : Forall (readable d) (tsmPaths (tree d dir)))
    by (rewrite Hfl; constructor).
  rewrite (utf8_run.RunE_utf8_readable d dir verbose Hw Hr),
    (sum_proofs.RunE_sum_readable d dir verbose Hw Hr), Hfl.
  split; reflexivity.
Qed.

Lemma no_tsm_files_zero_summary_witness :
  RunE {| tree := samples.dataTree ["a.tombstone"; "notes.txt"]; content := ∅ |}
       "/data" true true
  = (None, [PrintInvalidKeys 0 0])
  /\ RunE {| tree := samples.dataTree ["a.tombstone"; "notes.txt"]; content := ∅ |}
          "/data" false true
     = (None, [PrintBrokenBlocks 0 0]).
Proof.
  apply (no_tsm_files_zero_summary
           {| tree := samples.dataTree ["a.tombstone"; "notes.txt"]; content := ∅ |}
           "/data" true).
  - repeat constructor.
  - reflexivity.
Defined.

End early_props.

(** ** What [verify-tsm] closes and prints *)

Module output_props.

Import tsm1 verify_tsm tsm_facts tsm_more.
Import utf8_proofs utf8_run sum_proofs trace_proofs.

Lemma deferredClosers_readable d fl :
  Forall (readable d) fl -> deferredClosers d fl = map closeFileAndReader fl.
Proof.
  induction 1 as [|p fl [r Hp] Hfl IH]; [reflexivity|].
  cbn [deferredClosers map]. now rewrite Hp, IH.
Qed.

Lemma deferredClosers_abort d pre p post c e :
  Forall (readable d) pre -> openFailure d p = Some (c, e) ->
  deferredClosers d (pre ++ p :: post)
  = map closeFileAndReader pre ++ deferCloser c.
Proof.
  intros Hpre Hp. induction Hpre as [|q pre [r Hq] Hpre IH].
  - cbn [app deferredClosers map]. unfold openFailure in Hp.
    destruct (content d !! p) as [[e'|e'|r]|]; inversion Hp; reflexivity.
  - cbn [app deferredClosers map]. now rewrite Hq, IH.
Qed.

Lemma utf8Event_open p e : utf8Event p e -> isClose e = false.
Proof. destruct e; cbn; intros H; try contradiction; reflexivity. Qed.

Lemma sumEvent_open p e : sumEvent p e -> isClose e = false.
Proof. destruct e; cbn; intros H; try contradiction; reflexivity. Qed.

Lemma utf8Trace_open d verbose fl :
  Forall (fun e => isClose e = false) (utf8Trace d verbose fl).
Proof.
  eapply Forall_impl; [apply utf8Trace_events|].
  intros e (p & _ & He). now apply utf8Event_open in He.
Qed.

Lemma sumTrace_open d verbose fl :
  Forall (fun e => isClose e = false) (sumTrace d verbose fl).
Proof.
  eapply Forall_impl; [apply sumTrace_events|].
  intros e (p & _ & He). now apply sumEvent_open in He.
Qed.

Lemma openTrace_open d p : Forall (fun e => isClose e = false) (openTrace d p).
Proof.
  eapply Forall_impl; [apply openTrace_events|].
  intros e [He _]. now apply utf8Event_open in He.
Qed.

(** X8. In both modes of [verify-tsm], once the engine path is
    traversed, no file is closed before the run returns: the deferred
    closers run after everything else, the summary included, last opened
    first. They close the file and the reader of every file that was
    verified, only the file of a file that failed to parse, and nothing
    for a file that failed to open. *)
Theorem files_closed_at_return d dir checkUTF8 verbose :
  cleanWalk (tree d dir) ->
  exists body,
    (RunE d dir checkUTF8 verbose).2
    = body
      ++ flat_map runCloser (rev (deferredClosers d (tsmPaths (tree d dir))))
    /\ Forall (fun e => isClose e = false) body.
Proof.
  intros Hw. fold (runDeferred (deferredClosers d (tsmPaths (tree d dir)))).
  destruct (first_unreadable d (tsmPaths (tree d dir)))
    as [Hr|(pre & p & post & Hfl & Hpre & Hp)].
  - rewrite (deferredClosers_readable d _ Hr). destruct checkUTF8.
    + rewrite (RunE_utf8_readable d dir verbose Hw Hr). cbn [snd].
      eexists (_ ++ [_]). rewrite <- app_assoc. split; [reflexivity|].
      apply Forall_app_2; [apply utf8Trace_open | now repeat constructor].
    + rewrite (RunE_sum_readable d dir verbose Hw Hr). cbn [snd].
      eexists (_ ++ [_]). rewrite <- app_assoc. split; [reflexivity|].
      apply Forall_app_2; [apply sumTrace_open | now repeat constructor].
  - apply openFailure_not_readable in Hp as (c & e & Hf).
    rewrite Hfl. rewrite (deferredClosers_abort d pre p post c e Hpre Hf).
    destruct checkUTF8.
    + rewrite (RunE_utf8_abort d dir verbose pre p post c e Hw Hfl Hpre Hf).
      cbn [snd]. eexists (_ ++ _). rewrite <- app_assoc. split; [reflexivity|].
      apply Forall_app_2; [apply utf8Trace_open | apply openTrace_open].
    + rewrite (RunE_sum_abort d dir verbose pre p post c e Hw Hfl Hpre Hf).
      cbn [snd]. eexists (_ ++ _). rewrite <- app_assoc. split; [reflexivity|].
      apply Forall_app_2; [apply sumTrace_open | apply openTrace_open].
Qed.

Lemma files_closed_at_return_witness :
  exists body,
    (RunE samples.mixedDisk "/data" false true).2
    = body
      ++ flat_map runCloser
           (rev (deferredClosers samples.mixedDisk
                   (tsmPaths (tree samples.mixedDisk "/data"))))
    /\ Forall (fun e => isClose e = false) body.
Proof.
  apply (files_closed_at_return samples.mixedDisk "/data" false true).
  repeat constructor.
Defined.

Example files_closed_at_return_example :
  flat_map runCloser
    (rev (deferredClosers samples.mixedDisk
            (tsmPaths (tree samples.mixedDisk "/data"))))
  = [CallFileClose "/data/b.tsm"; CallFileClose "/data/a.tsm";
     CallReaderClose "/data/a.tsm"].
Proof. reflexivity. Qed.

(** *** Without [-v] *)

Lemma keyTrace_silent p r i : keyTrace false p r i = [CallKeyAt p i].
Proof. unfold keyTrace. now rewrite andb_false_r. Qed.

Lemma utf8Trace_silent d fl :
  Forall (fun e => isPrint e = false) (utf8Trace d false fl).
Proof.
  unfold utf8Trace. apply Forall_flat_map_intro. intros p.
  unfold utf8FileTrace. rewrite andb_false_r, app_nil_r.
  repeat (apply Forall_cons_2; [reflexivity|]). cbn [app].
  repeat (apply Forall_cons_2; [reflexivity|]).
  apply Forall_flat_map_intro. intros i. rewrite keyTrace_silent.
  now repeat constructor.
Qed.

Lemma blocksTrace_silent p cnt l :
  Forall (fun e => isPrint e = false) (blocksTrace false p cnt l).
Proof.
  revert cnt. induction l as [|rd l IH]; intros cnt; cbn [blocksTrace];
    [constructor|].
  apply Forall_app_2; [|apply IH]. unfold blockTrace.
  destruct rd as [b|e]; rewrite ?andb_false_r; now repeat constructor.
Qed.

Lemma sumTrace_silent d fl :
  Forall (fun e => isPrint e = false) (sumTrace d false fl).
Proof.
  unfold sumTrace. apply Forall_flat_map_intro. intros p.
  unfold sumFileTrace. rewrite andb_false_r, app_nil_r.
  repeat (apply Forall_cons_2; [reflexivity|]). cbn [app].
  repeat (apply Forall_cons_2; [reflexivity|]).
  apply Forall_app_2; [apply blocksTrace_silent | now repeat constructor].
Qed.

Lemma calls_silent (l : list Event) :
  Forall (fun e => isPrint e = false) l ->
  Forall (fun e => isPrint e = true -> isSummary e = true) l.
Proof.
  intros H. eapply Forall_impl; [exact H|]. intros e He. rewrite He. discriminate.
Qed.

Lemma openTrace_silent d p : Forall (fun e => isPrint e = false) (openTrace d p).
Proof.
  unfold openTrace.
  destruct (content d !! p) as [[e|e|r]|]; now repeat constructor.
Qed.

Lemma runDeferred_silent cs : Forall (fun e => isPrint e = false) (runDeferred cs).
Proof.
  unfold runDeferred. apply Forall_flat_map_intro.
  intros [p|p]; now repeat constructor.
Qed.

(** X9. Without [-v], the only lines [verify-tsm] ever prints, in either
    mode and whatever the disk holds, are summary lines: no file is
    reported healthy and no invalid key or broken block is reported by
    itself. *)
Theorem quiet_prints_only_summary d dir checkUTF8 :
  Forall (fun e => isPrint e = true -> isSummary e = true)
         (RunE d dir checkUTF8 false).2.
Proof.
  destruct (cleanWalk_dec (tree d dir)) as [Hw|Hw].
  2:{ destruct checkUTF8;
        [destruct (RunE_utf8_dirty d dir false Hw) as [e ->]
        |destruct (RunE_sum_dirty d dir false Hw) as [e ->]]; constructor. }
  destruct (first_unreadable d (tsmPaths (tree d dir)))
    as [Hr|(pre & p & post & Hfl & Hpre & Hp)].
  - destruct checkUTF8.
    + rewrite (RunE_utf8_readable d dir false Hw Hr). cbn [snd].
      apply Forall_app_2; [apply calls_silent, utf8Trace_silent|].
      apply Forall_cons_2; [reflexivity | apply calls_silent, runDeferred_silent].
    + rewrite (RunE_sum_readable d dir false Hw Hr). cbn [snd].
      apply Forall_app_2; [apply calls_silent, sumTrace_silent|].
      apply Forall_cons_2; [reflexivity | apply calls_silent, runDeferred_silent].
  - apply openFailure_not_readable in Hp as (c & e & Hf). destruct checkUTF8.
    + rewrite (RunE_utf8_abort d dir false pre p post c e Hw Hfl Hpre Hf).
      cbn [snd]. apply calls_silent.
      repeat apply Forall_app_2;
        [apply utf8Trace_silent | apply openTrace_silent | apply runDeferred_silent].
    + rewrite (RunE_sum_abort d dir false pre p post c e Hw Hfl Hpre Hf).
      cbn [snd]. apply calls_silent.
      repeat apply Forall_app_2;
        [apply sumTrace_silent | apply openTrace_silent | apply runDeferred_silent].
Qed.

End output_props.

(** ** What [verify-tsm -v] reports *)

Module verbose_props.

Import tsm1 verify_tsm tsm_facts tsm_more.
Import utf8_proofs utf8_run sum_proofs trace_proofs.

Lemma countIf_none {A} (p : A -> bool) l :
  Forall (fun a => p a = false) l -> countIf p l = 0.
Proof. apply countIf_zero. Qed.

Lemma keyTrace_reports verbose p r i :
  countIf isNotUTF8 (keyTrace verbose p r i)
  = if verbose then (if keyInvalid r i then 1 else 0) else 0.
Proof. unfold keyTrace. destruct (keyInvalid r i), verbose; reflexivity. Qed.

Lemma keysTrace_reports verbose p r l :
  countIf isNotUTF8 (flat_map (keyTrace verbose p r) l)
  = if verbose then countIf (keyInvalid r) l else 0.
Proof.
  induction l as [|i l IH]; [now destruct verbose|].
  cbn [flat_map]. rewrite countIf_app, IH, keyTrace_reports, countIf_cons.
  destruct verbose; reflexivity.
Qed.

Lemma utf8FileTrace_reports verbose p r :
  countIf isNotUTF8 (utf8FileTrace verbose p r)
  = if verbose then invalidKeys r else 0.
Proof.
  unfold utf8FileTrace, invalidKeys.
  rewrite !countIf_app, keysTrace_reports.
  replace (countIf isNotUTF8
             (if (wrap64 (countIf (keyInvalid r) (seqZ 0 (KeyCount r))) =? 0) && verbose
              then [PrintHealthy p] else [])) with 0
    by (destruct ((wrap64 _ =? 0) && verbose); reflexivity).
  change (countIf isNotUTF8 [CallOpenFile p; CallNewTSMReader p; CallKeyCount p])
    with 0.
  destruct verbose; lia.
Qed.

Lemma utf8Trace_reports d verbose fl :
  countIf isNotUTF8 (utf8Trace d verbose fl)
  = if verbose then totalInvalidKeys d fl else 0.
Proof.
  induction fl as [|p fl IH]; [now destruct verbose|].
  cbn [utf8Trace flat_map totalInvalidKeys foldr].
  fold (utf8Trace d verbose fl). fold (totalInvalidKeys d fl).
  rewrite countIf_app, IH, utf8FileTrace_reports. destruct verbose; reflexivity.
Qed.

Lemma blocksTrace_reports verbose p cnt l :
  countIf isBlockReport (blocksTrace verbose p cnt l)
  = if verbose then countIf blockBad l else 0.
Proof.
  revert cnt. induction l as [|rd l IH]; intros cnt; [now destruct verbose|].
  cbn [blocksTrace]. rewrite countIf_app, IH, countIf_cons. unfold blockTrace.
  destruct rd as [b|e]; cbn [blockBad];
    [destruct (negb (checksum b =? crc32.ChecksumIEEE (buf b)))|];
    destruct verbose; reflexivity.
Qed.

Lemma sumFileTrace_reports verbose p r :
  countIf isBlockReport (sumFileTrace verbose p r)
  = if verbose then countIf blockBad (blocks r) else 0.
Proof.
  unfold sumFileTrace. rewrite !countIf_app, blocksTrace_reports.
  replace (countIf isBlockReport
             (if (wrap64 (countIf blockBad (blocks r)) =? 0) && verbose
              then [PrintHealthy p] else [])) with 0
    by (destruct ((wrap64 _ =? 0) && verbose); reflexivity).
  change (countIf isBlockReport
            [CallOpenFile p; CallNewTSMReader p; CallBlockIterator p]) with 0.
  change (countIf isBlockReport [CallNext p]) with 0.
  destruct verbose; lia.
Qed.

Lemma sumTrace_reports d verbose fl :
  countIf isBlockReport (sumTrace d verbose fl)
  = if verbose then countIf blockBad (allBlocks d fl) else 0.
Proof.
  induction fl as [|p fl IH]; [now destruct verbose|].
  rewrite allBlocks_cons, countIf_app. cbn [sumTrace flat_map].
  fold (sumTrace d verbose fl).
  rewrite countIf_app, IH, sumFileTrace_reports. destruct verbose; reflexivity.
Qed.

Lemma runDeferred_no_reports cs :
  countIf isNotUTF8 (runDeferred cs) = 0
  /\ countIf isBlockReport (runDeferred cs) = 0.
Proof.
  split; apply countIf_none; unfold runDeferred; apply Forall_flat_map_intro;
    intros [p|p]; now repeat constructor.
Qed.

(** X10. When the engine path is traversed and every TSM file opens,
    [verify-tsm -v] prints one "not valid UTF-8" line for each (file, key
    index) with an invalid key in [--check-utf8] mode, and one line for
    each block that is broken (read error or checksum mismatch) in the
    default mode: as many lines as the summary counts, whatever the
    number of keys or blocks. Without [-v] it prints none of them. *)
Theorem one_report_per_defect d dir verbose :
  cleanWalk (tree d dir) ->
  Forall (readable d) (tsmPaths (tree d dir)) ->
  countIf isNotUTF8 (RunE d dir true verbose).2
  = (if verbose then totalInvalidKeys d (tsmPaths (tree d dir)) else 0)
  /\ countIf isBlockReport (RunE d dir false verbose).2
     = (if verbose
        then countIf blockBad (allBlocks d (tsmPaths (tree d dir))) else 0).
Proof.
  intros Hw Hr.
  rewrite (RunE_utf8_readable d dir verbose Hw Hr),
    (RunE_sum_readable d dir verbose Hw Hr). cbn [snd].
  rewrite !countIf_app, !countIf_cons, utf8Trace_reports, sumTrace_reports.
  pose proof (runDeferred_no_reports
                (map closeFileAndReader (tsmPaths (tree d dir)))) as [-> ->].
  cbn [isNotUTF8 isBlockReport]. destruct verbose; split; lia.
Qed.

Lemma one_report_per_defect_witness :
  countIf isNotUTF8 (RunE samples.keysDisk "/data" true true).2
  = (if true then totalInvalidKeys samples.keysDisk
                    (tsmPaths (tree samples.keysDisk "/data")) else 0)
  /\ countIf isBlockReport (RunE samples.keysDisk "/data" false true).2
     = (if true
        then countIf blockBad
               (allBlocks samples.keysDisk
                  (tsmPaths (tree samples.keysDisk "/data"))) else 0).
Proof.
  apply (one_report_per_defect samples.keysDisk "/data" true).
  - repeat constructor.
  - repeat constructor; eexists; reflexivity.
Defined.

(** *** Healthy files *)

Lemma keysTrace_no_healthy verbose p q r l :
  ~ In (PrintHealthy q) (flat_map (keyTrace verbose p r) l).
Proof.
  intros H. apply in_flat_map in H as (i & _ & H). unfold keyTrace in H.
  destruct (keyInvalid r i && verbose); cbn in H; intuition discriminate.
Qed.

Lemma blocksTrace_no_healthy verbose p q cnt l :
  ~ In (PrintHealthy q) (blocksTrace verbose p cnt l).
Proof.
  revert cnt. induction l as [|rd l IH]; intros cnt H; [exact H|].
  cbn [blocksTrace] in H. apply in_app_or in H as [H|H]; [|now apply IH in H].
  unfold blockTrace in H. destruct rd as [b|e];
    [destruct (blockBad (ReadOk b) && verbose) | destruct verbose];
    cbn in H; intuition discriminate.
Qed.

Lemma healthy_in_utf8FileTrace p q r :
  In (PrintHealthy q) (utf8FileTrace true p r)
  <-> q = p /\ wrap64 (invalidKeys r) = 0.
Proof.
  unfold utf8FileTrace. rewrite andb_true_r. split.
  - intros H. apply in_app_or in H as [H|H];
      [cbn in H; intuition discriminate|].
    apply in_app_or in H as [H|H]; [now apply keysTrace_no_healthy in H|].
    destruct (Z.eqb_spec (wrap64 (invalidKeys r)) 0) as [E|E]; [|destruct H].
    destruct H as [H|[]]. inversion H. auto.
  - intros [-> E]. rewrite E. apply in_or_app. right. apply in_or_app. right.
    now left.
Qed.

Lemma healthy_in_sumFileTrace p q r :
  In (PrintHealthy q) (sumFileTrace true p r)
  <-> q = p /\ wrap64 (countIf blockBad (blocks r)) = 0.
Proof.
  unfold sumFileTrace. rewrite andb_true_r. split.
  - intros H. apply in_app_or in H as [H|H];
      [cbn in H; intuition discriminate|].
    apply in_app_or in H as [H|H]; [now apply blocksTrace_no_healthy in H|].
    apply in_app_or in H as [H|H]; [cbn in H; intuition discriminate|].
    destruct (Z.eqb_spec (wrap64 (countIf blockBad (blocks r))) 0) as [E|E];
      [|destruct H].
    destruct H as [H|[]]. inversion H. auto.
  - intros [-> E]. rewrite E. do 3 (apply in_or_app; right). now left.
Qed.

Lemma runDeferred_no_healthy q cs : ~ In (PrintHealthy q) (runDeferred cs).
Proof.
  unfold runDeferred. intros H. apply in_flat_map in H as (c & _ & H).
  destruct c; cbn in H; intuition discriminate.
Qed.

Lemma invalidKeys_le_total d fl p :
  In p fl -> invalidKeys (readerAt d p) <= totalInvalidKeys d fl.
Proof.
  induction fl as [|q fl IH]; [intros []|].
  cbn [totalInvalidKeys foldr]. fold (totalInvalidKeys d fl).
  pose proof (utf8_props.invalidKeys_bounds (readerAt d q)) as B1.
  pose proof (utf8_props.totalInvalidKeys_bounds d fl) as B2.
  intros [->|H]; [lia | apply IH in H; lia].
Qed.

Lemma blocks_le_total d fl p :
  In p fl ->
  Z.of_nat (length (blocks (readerAt d p)))
  <= Z.of_nat (length (allBlocks d fl)).
Proof.
  induction fl as [|q fl IH]; [intros []|].
  rewrite allBlocks_cons, length_app.
  intros [->|H]; [lia | apply IH in H; lia].
Qed.

(** X11. When the engine path is traversed and every TSM file opens,
    [verify-tsm -v] prints "healthy" for exactly the files found that
    have no invalid key in [--check-utf8] mode, and for exactly the files
    found that have no broken block in the default mode (the keys and
    blocks numbering fewer than 2^63). *)
Theorem healthy_means_no_defect d dir q :
  cleanWalk (tree d dir) ->
  Forall (readable d) (tsmPaths (tree d dir)) ->
  totalKeys d (tsmPaths (tree d dir)) < 2 ^ 63 ->
  Z.of_nat (length (allBlocks d (tsmPaths (tree d dir)))) < 2 ^ 63 ->
  (In (PrintHealthy q) (RunE d dir true true).2
   <-> In q (tsmPaths (tree d dir)) /\ invalidKeys (readerAt d q) = 0)
  /\ (In (PrintHealthy q) (RunE d dir false true).2
      <-> In q (tsmPaths (tree d dir))
          /\ countIf blockBad (blocks (readerAt d q)) = 0).
Proof.
  intros Hw Hr Hk Hb.
  rewrite (RunE_utf8_readable d dir true Hw Hr),
    (RunE_sum_readable d dir true Hw Hr). cbn [snd].
  pose proof (utf8_props.totalInvalidKeys_bounds d (tsmPaths (tree d dir))) as Bt.
  split.
  - rewrite in_app_iff. cbn [In]. split.
    + intros [H|[H|H]]; [|discriminate | now apply runDeferred_no_healthy in H].
      apply in_flat_map in H as (p & Hp & H).
      apply healthy_in_utf8FileTrace in H as [-> E]. split; [exact Hp|].
      pose proof (utf8_props.invalidKeys_bounds (readerAt d p)).
      pose proof (invalidKeys_le_total d _ p Hp).
      rewrite wrap64_small in E by lia. exact E.
    + intros [Hq E]. left. apply in_flat_map. exists q. split; [exact Hq|].
      apply healthy_in_utf8FileTrace. split; [reflexivity|]. now rewrite E.
  - rewrite in_app_iff. cbn [In]. split.
    + intros [H|[H|H]]; [|discriminate | now apply runDeferred_no_healthy in H].
      apply in_flat_map in H as (p & Hp & H).
      apply healthy_in_sumFileTrace in H as [-> E]. split; [exact Hp|].
      pose proof (countIf_bounds blockBad (blocks (readerAt d p))).
      pose proof (blocks_le_total d _ p Hp).
      rewrite wrap64_small in E by lia. exact E.
    + intros [Hq E]. left. apply in_flat_map. exists q. split; [exact Hq|].
      apply healthy_in_sumFileTrace. split; [reflexivity|]. now rewrite E.
Qed.

Lemma healthy_means_no_defect_witness :
  (In (PrintHealthy "/data/b.tsm") (RunE samples.flippedDisk "/data" true true).2
   <-> In "/data/b.tsm" (tsmPaths (tree samples.flippedDisk "/data"))
       /\ invalidKeys (readerAt samples.flippedDisk "/data/b.tsm") = 0)
  /\ (In (PrintHealthy "/data/b.tsm") (RunE samples.flippedDisk "/data" false true).2
      <-> In "/data/b.tsm" (tsmPaths (tree samples.flippedDisk "/data"))
          /\ countIf blockBad (blocks (readerAt samples.flippedDisk "/data/b.tsm")) = 0).
Proof.
  apply (healthy_means_no_defect samples.flippedDisk "/data" "/data/b.tsm").
  - repeat constructor.
  - repeat constructor; eexists; reflexivity.
  - vm_compute. reflexivity.
  - vm_compute. reflexivity.
Defined.

End verbose_props.

(** ** What each mode of [verify-tsm] looks at *)

Module mode_props.

Import tsm1 verify_tsm tsm_facts tsm_more.
Import utf8_proofs utf8_run sum_proofs trace_proofs.




Example corrupt_block_unseen_by_check_utf8 :
  RunE samples.corruptDisk "/data" true true
  = (None,
     [CallOpenFile "/data/000000001-000000001.tsm";
      CallNewTSMReader "/data/000000001-000000001.tsm";
      CallKeyCount "/data/000000001-000000001.tsm";
      CallKeyAt "/data/000000001-000000001.tsm" 0;
      PrintHealthy "/data/000000001-000000001.tsm";
      PrintInvalidKeys 0 1;
      CallFileClose "/data/000000001-000000001.tsm";
      CallReaderClose "/data/000000001-000000001.tsm"]).
Proof. vm_compute. reflexivity. Qed.

(** *** The summary *)

Lemma summary_of_list (e : Event) l :
  In e l -> isSummary e = true -> In e (List.filter isSummary l).
Proof. intros H E. apply filter_In. now split. Qed.

Lemma no_summary (e : Event) l :
  List.filter isSummary l = [] -> isSummary e = true -> ~ In e l.
Proof. intros H E Hin. pose proof (summary_of_list e l Hin E) as F. now rewrite H in F. Qed.

(** X13. Whenever [verify-tsm] prints a summary line, in either mode,
    the files were all opened and the count of defects it shows lies
    between zero and the total it shows: "Invalid Keys: a / b" and
    "Broken Blocks: a / b" have [0 <= a <= b] (the keys and blocks
    numbering fewer than 2^63). *)
Theorem summary_counts_ordered d dir checkUTF8 verbose a b :
  totalKeys d (tsmPaths (tree d dir)) < 2 ^ 63 ->
  Z.of_nat (length (allBlocks d (tsmPaths (tree d dir)))) < 2 ^ 63 ->
  In (PrintInvalidKeys a b) (RunE d dir checkUTF8 verbose).2
  \/ In (PrintBrokenBlocks a b) (RunE d dir checkUTF8 verbose).2 ->
  Forall (readable d) (tsmPaths (tree d dir)) /\ 0 <= a <= b.
Proof.
  intros Hk Hb Hin.
  assert (S : exists e, isSummary e = true
                        /\ (e = PrintInvalidKeys a b \/ e = PrintBrokenBlocks a b)
                        /\ In e (RunE d dir checkUTF8 verbose).2)
    by (destruct Hin as [H|H]; eexists; (split; [|split; [|exact H]]);
        [reflexivity | now left | reflexivity | now right]).
  clear Hin. destruct S as (e & Es & Ee & Hin).
  destruct (cleanWalk_dec (tree d dir)) as [Hw|Hw].
  2:{ exfalso. destruct checkUTF8;
        [destruct (RunE_utf8_dirty d dir verbose Hw) as [e' E]
        |destruct (RunE_sum_dirty d dir verbose Hw) as [e' E]];
        rewrite E in Hin; exact Hin. }
  destruct (first_unreadable d (tsmPaths (tree d dir)))
    as [Hr|(pre & p & post & Hfl & Hpre & Hp)].
  - split; [exact Hr|]. apply (summary_of_list e _ Hin) in Es.
    destruct checkUTF8.
    + rewrite (RunE_utf8_readable d dir verbose Hw Hr) in Es. cbn [snd] in Es.
      rewrite List.filter_app, tsm_props.no_summary_in_utf8Trace in Es.
      cbn [List.filter isSummary app] in Es.
      rewrite tsm_props.no_summary_in_runDeferred in Es.
      pose proof (utf8_props.totalInvalidKeys_bounds d (tsmPaths (tree d dir))) as B.
      rewrite !wrap64_small in Es by lia.
      destruct Es as [<-|[]]. destruct Ee as [E|E]; inversion E; subst; lia.
    + rewrite (tsm_props.sum_summary d dir verbose Hw Hr Hb) in Es.
      pose proof (countIf_bounds blockBad (allBlocks d (tsmPaths (tree d dir)))) as B.
      destruct Es as [<-|[]]. destruct Ee as [E|E]; inversion E; subst; lia.
  - exfalso. apply openFailure_not_readable in Hp as (c & e' & Hf).
    revert Hin. apply no_summary; [|exact Es]. destruct checkUTF8.
    + rewrite (RunE_utf8_abort d dir verbose pre p post c e' Hw Hfl Hpre Hf).
      cbn [snd]. rewrite !List.filter_app, tsm_props.no_summary_in_utf8Trace,
                   tsm_props.no_summary_in_openTrace,
                   tsm_props.no_summary_in_runDeferred. reflexivity.
    + rewrite (RunE_sum_abort d dir verbose pre p post c e' Hw Hfl Hpre Hf).
      cbn [snd]. rewrite !List.filter_app, tsm_props.no_summary_in_sumTrace,
                   tsm_props.no_summary_in_openTrace,
                   tsm_props.no_summary_in_runDeferred. reflexivity.
Qed.

Lemma summary_counts_ordered_witness :
  Forall (readable samples.flippedDisk)
         (tsmPaths (tree samples.flippedDisk "/data"))
  /\ 0 <= 1 <= 7.
Proof.
  apply (summary_counts_ordered samples.flippedDisk "/data" false true 1 7).
  - vm_compute. reflexivity.
  - vm_compute. reflexivity.
  - right. vm_compute. tauto.
Defined.

End mode_props.

(** ** What [verify-tombstone] prints *)

Module tombstone_output_props.

Import tsm1 verify_tombstone tombstone_facts tombstone_more tombstone_proofs.

(** One round of the loop, with the lines of the walk spelled out. *)
Lemma fileTrace_walk d vb p :
  fileTrace d vb p
  = (if vb >? quiet then [PrintVerifying p] else [])
    ++ CallNewTombstoner p :: CallHasTombstones p
    :: (if HasTombstones (NewTombstoner d p)
        then CallWalk p
             :: (walkEntries (visit (verifierAt vb p)) 0
                   (entries (NewTombstoner d p))).2
             ++ [match walkErr (NewTombstoner d p) with
                 | Some e =>
                   PrintWalkFailed p e
                     (wrap64 (Z.of_nat (length (entries (NewTombstoner d p)))))
                 | None =>
                   PrintCompleted p
                     (wrap64 (Z.of_nat (length (entries (NewTombstoner d p)))))
                 end]
        else [PrintNoEntries p]).
Proof.
  unfold fileTrace, verifyFile, tell, emit_bind, emit_ret. cbn [verbosity f].
  fold (verifierAt vb p).
  destruct (HasTombstones (NewTombstoner d p)); cbn [negb].
  - unfold Walk.
    destruct (walkEntries_visit (verifierAt vb p) 0 (entries (NewTombstoner d p))
                is_int_0) as [ev E].
    rewrite E. rewrite Z.add_0_l. unfold emit_bind, emit_ret. cbn [snd].
    destruct (walkErr (NewTombstoner d p)) as [e|]; cbn [snd];
      now rewrite !app_nil_r.
  - cbn [snd]. now rewrite !app_nil_r.
Qed.

Lemma visit_lines v n t :
  Forall (fun e => isWalkLine e = true
                   /\ (verbosity v <= veryVerbose -> usesUnixTime e = false)
                   /\ (verbosity v <= verbose -> isEntryLine e = false))
         (visit v n t).2
  /\ (verbosity v <= quiet -> (visit v n t).2 = [])
  /\ (visit v n t).1 = (int_incr n, None).
Proof.
  unfold visit, tell, emit_bind, emit_ret, quiet, verbose, veryVerbose.
  cbn [fst snd]. rewrite app_nil_r. repeat split.
  - destruct ((verbosity v >? 0) && (Z.rem (int_incr n) 10000000 =? 0)).
    + repeat constructor.
    + destruct (Z.gtb_spec (verbosity v) 1); [|constructor].
      destruct (Z.gtb_spec (verbosity v) 2); repeat constructor; cbn; lia.
  - intros H. destruct (Z.gtb_spec (verbosity v) 0); [lia|]. cbn [andb].
    destruct (Z.gtb_spec (verbosity v) 1); [lia | reflexivity].
Qed.

Lemma walkEntries_cons v n t l :
  (walkEntries (visit v) n (t :: l)).2
  = (visit v n t).2 ++ (walkEntries (visit v) (int_incr n) l).2.
Proof.
  cbn [walkEntries]. unfold emit_bind.
  pose proof (visit_lines v n t) as (_ & _ & E).
  destruct (visit v n t) as [[n1 err] ev1]. cbn [fst snd] in *.
  inversion E; subst.
  destruct (walkEntries (visit v) (int_incr n) l) as [r ev2]. reflexivity.
Qed.

Lemma walkEntries_lines v n l :
  Forall (fun e => isWalkLine e = true
                   /\ (verbosity v <= veryVerbose -> usesUnixTime e = false)
                   /\ (verbosity v <= verbose -> isEntryLine e = false))
         (walkEntries (visit v) n l).2.
Proof.
  revert n. induction l as [|t l IH]; intros n; [constructor|].
  rewrite walkEntries_cons. apply Forall_app_2; [|apply IH].
  apply (visit_lines v n t).
Qed.

Lemma walkEntries_quiet v n l :
  verbosity v <= quiet -> (walkEntries (visit v) n l).2 = [].
Proof.
  intros H. revert n. induction l as [|t l IH]; intros n; [reflexivity|].
  rewrite walkEntries_cons, IH.
  pose proof (visit_lines v n t) as (_ & Hq & _). now rewrite Hq.
Qed.

(** With [--vv], below ten million entries, every entry gets its line. *)
Lemma walkEntries_very_verbose v n l :
  verbosity v = veryVerbose ->
  0 <= n -> n + Z.of_nat (length l) < 10000000 ->
  (walkEntries (visit v) n l).2 = map entryLine l.
Proof.
  intros Hv. revert n. induction l as [|t l IH]; intros n H0 Hn; [reflexivity|].
  cbn [length] in Hn. rewrite walkEntries_cons, IH.
  - cbn [map]. unfold visit, tell, emit_bind, emit_ret, int_incr, int_add.
    cbn [snd]. rewrite Hv, wrap64_small by lia.
    rewrite Z.rem_small by lia.
    destruct (Z.eqb_spec (n + 1) 0) as [E|E]; [lia|].
    unfold veryVerbose, verbose, quiet. cbn. reflexivity.
  - unfold int_incr, int_add. rewrite wrap64_small by lia. lia.
  - unfold int_incr, int_add. rewrite wrap64_small by lia. lia.
Qed.

Lemma fileTrace_kinds d vb p :
  ~ In PrintNoFiles (fileTrace d vb p)
  /\ countIf isOutcome (fileTrace d vb p) = 1
  /\ (vb <= veryVerbose ->
      Forall (fun e => usesUnixTime e = false) (fileTrace d vb p))
  /\ (vb <= verbose ->
      Forall (fun e => isEntryLine e = false) (fileTrace d vb p))
  /\ (vb <= quiet -> Forall (fun e => isChatter e = false) (fileTrace d vb p)).
Proof.
  rewrite fileTrace_walk.
  pose proof (walkEntries_lines (verifierAt vb p) 0 (entries (NewTombstoner d p)))
    as L.
  pose proof (walkEntries_quiet (verifierAt vb p) 0 (entries (NewTombstoner d p)))
    as Q.
  cbn [verifierAt verbosity] in L, Q.
  set (lines := (walkEntries (visit (verifierAt vb p)) 0
                   (entries (NewTombstoner d p))).2) in *.
  assert (C : countIf isOutcome lines = 0).
  { apply countIf_zero. eapply Forall_impl; [exact L|].
    intros e (He & _). destruct e; cbn in *; congruence. }
  repeat split.
  - intros H. apply in_app_or in H as [H|H].
    + destruct (vb >? quiet); cbn in H; intuition discriminate.
    + destruct H as [H|[H|H]]; try discriminate.
      destruct (HasTombstones (NewTombstoner d p)).
      * destruct H as [H|H]; [discriminate|].
        apply in_app_or in H as [H|H].
        -- rewrite List.Forall_forall in L. apply L in H as (H & _). discriminate.
        -- destruct (walkErr (NewTombstoner d p)); cbn in H; intuition discriminate.
      * cbn in H. intuition discriminate.
  - rewrite countIf_app, !countIf_cons.
    replace (countIf isOutcome (if vb >? quiet then [PrintVerifying p] else []))
      with 0 by (destruct (vb >? quiet); reflexivity).
    cbn [isOutcome]. destruct (HasTombstones (NewTombstoner d p)).
    + rewrite countIf_cons, countIf_app, C. cbn [isOutcome].
      destruct (walkErr (NewTombstoner d p)); reflexivity.
    + reflexivity.
  - intros Hv. apply Forall_app_2; [destruct (vb >? quiet); now repeat constructor|].
    repeat (apply Forall_cons_2; [reflexivity|]).
    destruct (HasTombstones (NewTombstoner d p)); [|now repeat constructor].
    apply Forall_cons_2; [reflexivity|]. apply Forall_app_2.
    + eapply Forall_impl; [exact L|]. intros e (_ & He & _). now apply He.
    + destruct (walkErr (NewTombstoner d p)); now repeat constructor.
  - intros Hv. apply Forall_app_2; [destruct (vb >? quiet); now repeat constructor|].
    repeat (apply Forall_cons_2; [reflexivity|]).
    destruct (HasTombstones (NewTombstoner d p)); [|now repeat constructor].
    apply Forall_cons_2; [reflexivity|]. apply Forall_app_2.
    + eapply Forall_impl; [exact L|]. intros e (_ & _ & He). now apply He.
    + destruct (walkErr (NewTombstoner d p)); now repeat constructor.
  - intros Hv. rewrite (Q Hv).
    destruct (Z.gtb_spec vb quiet) as [G|G]; [lia|]. cbn [app].
    repeat (apply Forall_cons_2; [reflexivity|]).
    destruct (HasTombstones (NewTombstoner d p)); [|now repeat constructor].
    destruct (walkErr (NewTombstoner d p)); now repeat constructor.
Qed.

Lemma verbosityOf_bounds v vv :
  quiet <= verbosityOf v vv <= veryVerbose
  /\ (vv = false -> verbosityOf v vv <= verbose)
  /\ (v = false -> vv = false -> verbosityOf v vv <= quiet).
Proof.
  unfold verbosityOf, quiet, verbose, veryVerbose.
  destruct v, vv; repeat split; try lia; discriminate.
Qed.

Lemma RunE_events d dir v vv :
  cleanWalk (tree d dir) ->
  (RunE d dir v vv).2
  = flat_map (fileTrace d (verbosityOf v vv)) (tombstonePaths (tree d dir))
    ++ (if negb (existsb (walkFails d) (tombstonePaths (tree d dir)))
           && bool_decide (tombstonePaths (tree d dir) = [])
        then [PrintNoFiles] else []).
Proof.
  intros Hw. rewrite (RunE_clean d dir v vv Hw).
  destruct (existsb (walkFails d) (tombstonePaths (tree d dir))); cbn [snd negb andb];
    [now rewrite app_nil_r | reflexivity].
Qed.

(** X14. After a traversal without error, [verify-tombstone] prints "No
    tombstone files found" if and only if no path ending in [.tombstone]
    was found. *)
Theorem no_files_line_iff_none_found d dir v vv :
  cleanWalk (tree d dir) ->
  In PrintNoFiles (RunE d dir v vv).2 <-> tombstonePaths (tree d dir) = [].
Proof.
  intros Hw. rewrite (RunE_events d dir v vv Hw). split.
  - intros H. apply in_app_or in H as [H|H].
    + apply in_flat_map in H as (p & _ & H).
      now apply (fileTrace_kinds d (verbosityOf v vv) p) in H.
    + destruct (bool_decide_reflect (tombstonePaths (tree d dir) = [])) as [E|E];
        [exact E|]. rewrite andb_false_r in H. destruct H.
  - intros ->. cbn. now left.
Qed.

Lemma no_files_line_iff_none_found_witness :
  In PrintNoFiles (RunE samples.emptyDisk "/data" true false).2
  <-> tombstonePaths (tree samples.emptyDisk "/data") = [].
Proof.
  apply (no_files_line_iff_none_found samples.emptyDisk "/data" true false).
  repeat constructor.
Defined.



Lemma Forall_files {P : Event -> Prop} d dir v vv :
  (forall p, Forall P (fileTrace d (verbosityOf v vv) p)) ->
  P PrintNoFiles ->
  Forall P (RunE d dir v vv).2.
Proof.
  intros Hfile Hnone.
  destruct (cleanWalk_dec (tree d dir)) as [Hw|Hw].
  - rewrite (RunE_events d dir v vv Hw). apply Forall_app_2.
    + apply Forall_flat_map_intro. exact Hfile.
    + destruct (negb _ && _); now repeat constructor.
  - destruct (RunE_dirty d dir v vv Hw) as [e ->]. constructor.
Qed.

(** X16. Whatever the flags and whatever the disk holds,
    [verify-tombstone] never prints the bounds of an entry as times: the
    command sets the verbosity to [veryVerbose] at most (the hidden flag
    [--vvv] is not read), so that the branch [v.verbosity > veryVerbose]
    of the visitor is never taken. *)
Theorem times_never_printed d dir v vv :
  Forall (fun e => usesUnixTime e = false) (RunE d dir v vv).2.
Proof.
  apply Forall_files; [|reflexivity]. intros p.
  apply fileTrace_kinds, verbosityOf_bounds.
Qed.

(** X17. Without [--vv], [verify-tombstone] prints no entry of any
    tombstone file, however many entries there are; with neither [-v]
    nor [--vv] it prints no "Verifying" line and no progress line
    either. *)
Theorem entries_printed_only_with_vv d dir v :
  Forall (fun e => isEntryLine e = false) (RunE d dir v false).2
  /\ Forall (fun e => isChatter e = false) (RunE d dir false false).2.
Proof.
  split; (apply Forall_files; [|reflexivity]); intros p.
  - now apply fileTrace_kinds, verbosityOf_bounds.
  - now apply fileTrace_kinds, verbosityOf_bounds.
Qed.

Lemma entryLines_filter l :
  List.filter isEntryLine (map entryLine l) = map entryLine l.
Proof. induction l as [|t l IH]; cbn; [reflexivity | now rewrite IH]. Qed.

Lemma fileTrace_entries d p :
  Z.of_nat (length (walkedEntries d p)) < 10000000 ->
  List.filter isEntryLine (fileTrace d veryVerbose p)
  = map entryLine (walkedEntries d p).
Proof.
  unfold walkedEntries. intros H. rewrite fileTrace_walk.
  change (veryVerbose >? quiet) with true. cbn [app List.filter isEntryLine].
  destruct (HasTombstones (NewTombstoner d p)); [|reflexivity].
  cbn [List.filter isEntryLine]. rewrite List.filter_app.
  rewrite walkEntries_very_verbose by (reflexivity || lia).
  rewrite entryLines_filter.
  destruct (walkErr (NewTombstoner d p)); cbn; now rewrite app_nil_r.
Qed.

(** X18. With [--vv], after a traversal without error and when no
    tombstone file has ten million entries or more, [verify-tombstone]
    prints every entry that the walks deliver exactly once, file by file
    and in the order of the walk, with its key and its bounds as raw
    integers, also the entries of a file whose walk fails after them. *)
Theorem vv_prints_every_entry d dir v :
  cleanWalk (tree d dir) ->
  (forall p, In p (tombstonePaths (tree d dir)) ->
     Z.of_nat (length (walkedEntries d p)) < 10000000) ->
  List.filter isEntryLine (RunE d dir v true).2
  = flat_map (fun p => map entryLine (walkedEntries d p))
             (tombstonePaths (tree d dir)).
Proof.
  intros Hw Hsmall. rewrite (RunE_events d dir v true Hw), List.filter_app.
  replace (List.filter isEntryLine
             (if negb (existsb (walkFails d) (tombstonePaths (tree d dir)))
                 && bool_decide (tombstonePaths (tree d dir) = [])
              then [PrintNoFiles] else [])) with (@nil Event)
    by (destruct (negb _ && _); reflexivity).
  rewrite app_nil_r.
  change (verbosityOf v true) with veryVerbose.
  induction (tombstonePaths (tree d dir)) as [|p fl IH]; [reflexivity|].
  cbn [flat_map]. rewrite List.filter_app, IH.
  - rewrite fileTrace_entries; [reflexivity|]. apply Hsmall. now left.
  - intros q Hq. apply Hsmall. now right.
Qed.

Lemma vv_prints_every_entry_witness :
  List.filter isEntryLine (RunE samples.tombstoneDisk "/data" false true).2
  = flat_map (fun p => map entryLine (walkedEntries samples.tombstoneDisk p))
             (tombstonePaths (tree samples.tombstoneDisk "/data")).
Proof.
  apply (vv_prints_every_entry samples.tombstoneDisk "/data" false).
  - repeat constructor.
  - intros p Hp. vm_compute in Hp.
    destruct Hp as [<-|[<-|[<-|[]]]]; vm_compute; reflexivity.
Defined.

Example vv_prints_every_entry_example :
  List.filter isEntryLine (RunE samples.tombstoneDisk "/data" false true).2
  = map entryLine [samples.entry 1; samples.entry 2; samples.entry 3;
                   samples.entry 1; samples.entry 2].
Proof. vm_compute. reflexivity. Qed.

End tombstone_output_props.

(** ** The lines of [verify-tsm -v], one by one *)

Module report_props.

Import tsm1 verify_tsm tsm_facts tsm_more.
Import utf8_proofs utf8_run sum_proofs trace_proofs.

Lemma flat_map_if {A B} (c : A -> bool) (g : A -> B) l :
  flat_map (fun a => if c a then [g a] else []) l = map g (List.filter c l).
Proof.
  induction l as [|a l IH]; [reflexivity|].
  cbn [flat_map List.filter]. rewrite IH. destruct (c a); reflexivity.
Qed.

Lemma keyReports_of_file p r :
  List.filter isNotUTF8 (utf8FileTrace true p r) = keyReports p r.
Proof.
  unfold utf8FileTrace, keyReports. cbn [app List.filter isNotUTF8].
  rewrite List.filter_app, filter_flat_map.
  replace (List.filter isNotUTF8
             (if (wrap64 (invalidKeys r) =? 0) && true
              then [PrintHealthy p] else [])) with (@nil Event)
    by (destruct ((wrap64 (invalidKeys r) =? 0) && true); reflexivity).
  rewrite app_nil_r, <- flat_map_if.
  apply flat_map_ext. intros i. unfold keyTrace. rewrite andb_true_r.
  destruct (keyInvalid r i); reflexivity.
Qed.

Lemma blockReports_of_blocks p cnt l :
  0 <= cnt -> cnt + Z.of_nat (length l) < 2 ^ 63 ->
  List.filter isBlockReport (blocksTrace true p cnt l) = blockReports p cnt l.
Proof.
  revert cnt. induction l as [|rd l IH]; intros cnt H0 Hn; [reflexivity|].
  cbn [length] in Hn. cbn [blocksTrace blockReports].
  rewrite List.filter_app. unfold int_incr, int_add.
  rewrite wrap64_small by lia. rewrite IH by lia. f_equal.
  unfold blockTrace. cbn [app List.filter isBlockReport].
  rewrite andb_true_r.
  destruct rd as [b|e]; [destruct (blockBad (ReadOk b))|]; reflexivity.
Qed.

Lemma no_reports_in_runDeferred cs :
  List.filter isNotUTF8 (runDeferred cs) = []
  /\ List.filter isBlockReport (runDeferred cs) = [].
Proof.
  split; apply filter_none; unfold runDeferred; apply Forall_flat_map_intro;
    intros [p|p]; now repeat constructor.
Qed.

Lemma flat_map_ext_in {A B} (g h : A -> list B) l :
  (forall a, In a l -> g a = h a) -> flat_map g l = flat_map h l.
Proof.
  induction l as [|a l IH]; intros H; [reflexivity|].
  cbn [flat_map]. rewrite (H a) by now left.
  rewrite IH; [reflexivity|]. intros b Hb. apply H. now right.
Qed.

(** X19. When the engine path is traversed and every TSM file opens,
    the lines [verify-tsm -v] prints about single keys are, file after
    file, one line for each index with an invalid key, in the order of
    the index; and the lines it prints about single blocks in the default
    mode are, file after file, one line for each broken block in the order
    of the iterator, numbered by the position of the block within its own
    file, counted from zero (each file having fewer than 2^63 blocks). *)
Theorem reports_name_file_and_position d dir :
  cleanWalk (tree d dir) ->
  Forall (readable d) (tsmPaths (tree d dir)) ->
  (forall p, In p (tsmPaths (tree d dir)) ->
     Z.of_nat (length (blocks (readerAt d p))) < 2 ^ 63) ->
  List.filter isNotUTF8 (RunE d dir true true).2
  = flat_map (fun p => keyReports p (readerAt d p)) (tsmPaths (tree d dir))
  /\ List.filter isBlockReport (RunE d dir false true).2
     = flat_map (fun p => blockReports p 0 (blocks (readerAt d p)))
                (tsmPaths (tree d dir)).
Proof.
  intros Hw Hr Hn.
  rewrite (RunE_utf8_readable d dir true Hw Hr),
    (RunE_sum_readable d dir true Hw Hr). cbn [snd].
  rewrite !List.filter_app. cbn [List.filter isNotUTF8 isBlockReport].
  pose proof (no_reports_in_runDeferred
                (map closeFileAndReader (tsmPaths (tree d dir)))) as [-> ->].
  rewrite !app_nil_r. unfold utf8Trace, sumTrace. rewrite !filter_flat_map.
  split.
  - apply flat_map_ext. intros p. apply keyReports_of_file.
  - apply flat_map_ext_in. intros p Hp.
    rewrite crc_props.reports_of_file.
    apply blockReports_of_blocks; [lia|]. specialize (Hn p Hp). lia.
Qed.

Lemma reports_name_file_and_position_witness :
  List.filter isNotUTF8 (RunE samples.keysDisk "/data" true true).2
  = flat_map (fun p => keyReports p (readerAt samples.keysDisk p))
             (tsmPaths (tree samples.keysDisk "/data"))
  /\ List.filter isBlockReport (RunE samples.keysDisk "/data" false true).2
     = flat_map (fun p => blockReports p 0 (blocks (readerAt samples.keysDisk p)))
                (tsmPaths (tree samples.keysDisk "/data")).
Proof.
  apply (reports_name_file_and_position samples.keysDisk "/data").
  - repeat constructor.
  - repeat constructor; eexists; reflexivity.
  - intros p Hp. vm_compute in Hp.
    destruct Hp as [<-|[<-|[]]]; vm_compute; reflexivity.
Defined.

Example reports_example :
  List.filter isNotUTF8 (RunE samples.keysDisk "/data" true true).2
  = [PrintNotUTF8 "/data/b.tsm" 1]
  /\ List.filter isBlockReport (RunE samples.mixedDisk "/data" false true).2
     = [PrintMismatch "/data/a.tsm" 3057449932 3057449933 samples.cpuKey 0].
Proof. split; vm_compute; reflexivity. Qed.

End report_props.
